(** * bruno-mcp-tools: a shallow embedding of the naming, discovery and runner core

    The development follows the TypeScript sources file by file:
    - [Js]       the fragment of the JavaScript string library the sources use;
    - [Errors]   src/errors.ts    ([AppError], [assert]);
    - [Path]     the POSIX flavour of node:path used by the sources;
    - [Naming]   src/naming.ts;
    - [Discover] src/discover.ts;
    - [Runner]   src/runner.ts (the second half of the file args.ts);
    - [Mcp]      src/mcp.ts (the registry and the list of tools);
    - [PathString] node:path on whole paths;
    - [Args]     src/args.ts;
    - [Server]   src/mcp.ts (the input of a call and its handler);
    - [Index]    src/index.ts.

    A JavaScript string is represented by the bytes of its UTF-8 encoding,
    the Stdlib type [string]: for ASCII text these are its code units, and
    in general they are what [Buffer.from(s, 'utf8')] yields.  The
    character classes of the sources are ASCII classes, so a character
    outside ASCII is, byte by byte, outside [[a-z0-9]] as it is in
    JavaScript.  The case conversions and the white-space class act on
    ASCII; the few characters outside ASCII that JavaScript maps to ASCII
    letters (U+212A, U+0130, U+00DF, ...) or counts as white space are not
    modelled. *)

From Stdlib Require Import ZArith Lia Ascii String List Bool.
From Stdlib Require Import Sorting.Sorted DecimalString Floats.
From stdpp Require Import base tactics option list strings gmap.

Open Scope stdpp_scope.

(* ================================================================== *)
(** * Part I: the model                                                 *)
(* ================================================================== *)

(* ------------------------------------------------------------------ *)
(** ** JavaScript strings                                               *)
(* ------------------------------------------------------------------ *)

Module Js.

(** Code-unit tests used by the character classes of the regular
    expressions in the sources. *)
Definition code (c : ascii) : nat := nat_of_ascii c.

Definition between (lo hi : nat) (c : ascii) : bool :=
  (lo <=? code c)%nat && (code c <=? hi)%nat.

Definition is_digit (c : ascii) : bool := between 48 57 c.
Definition is_lower (c : ascii) : bool := between 97 122 c.
Definition is_upper (c : ascii) : bool := between 65 90 c.

(** [[a-z0-9]] and [[A-Z0-9]]. *)
Definition is_lower_alnum (c : ascii) : bool := is_lower c || is_digit c.
Definition is_upper_alnum (c : ascii) : bool := is_upper c || is_digit c.

Definition is_char (x : ascii) (c : ascii) : bool :=
  if decide (c = x) then true else false.

Definition underscore : ascii := "_"%char.
Definition is_underscore : ascii -> bool := is_char underscore.

(** [\s] of a regular expression, and the characters [trim] removes,
    within ASCII: TAB, LF, VT, FF, CR and space. *)
Definition is_space (c : ascii) : bool :=
  between 9 13 c || (code c =? 32)%nat.

Definition lower_char (c : ascii) : ascii :=
  if is_upper c then ascii_of_nat (code c + 32) else c.
Definition upper_char (c : ascii) : ascii :=
  if is_lower c then ascii_of_nat (code c - 32) else c.

Fixpoint map_chars (f : ascii -> ascii) (s : string) : string :=
  match s with
  | EmptyString => EmptyString
  | String c s' => String (f c) (map_chars f s')
  end.

(** [s.toLowerCase()] and [s.toUpperCase()]. *)
Definition toLowerCase : string -> string := map_chars lower_char.
Definition toUpperCase : string -> string := map_chars upper_char.

Fixpoint all_chars (p : ascii -> bool) (s : string) : bool :=
  match s with
  | EmptyString => true
  | String c s' => p c && all_chars p s'
  end.

(** [s.replace(/[p]+/g, r)]: every maximal run of characters of the class
    [p] is replaced by [r].  [in_run] records that the previous character
    belonged to the run being replaced. *)
Fixpoint replace_runs_go (p : ascii -> bool) (r : string) (in_run : bool)
  (s : string) : string :=
  match s with
  | EmptyString => EmptyString
  | String c s' =>
      if p c then
        if in_run then replace_runs_go p r true s'
        else r +:+ replace_runs_go p r true s'
      else String c (replace_runs_go p r false s')
  end.
Definition replace_runs (p : ascii -> bool) (r : string) : string -> string :=
  replace_runs_go p r false.

(** The two alternatives of [/^[p]+|[p]+$/g] replaced by the empty string:
    the leading run and the trailing run of [p] are removed. *)
Fixpoint drop_leading (p : ascii -> bool) (s : string) : string :=
  match s with
  | EmptyString => EmptyString
  | String c s' => if p c then drop_leading p s' else s
  end.

Fixpoint drop_trailing (p : ascii -> bool) (s : string) : string :=
  match s with
  | EmptyString => EmptyString
  | String c s' =>
      match drop_trailing p s' with
      | EmptyString => if p c then EmptyString else String c EmptyString
      | t => String c t
      end
  end.

Definition strip_runs (p : ascii -> bool) (s : string) : string :=
  drop_trailing p (drop_leading p s).

(** [s.trim()], [s.trimEnd()]. *)
Definition trim : string -> string := strip_runs is_space.
Definition trimEnd : string -> string := drop_trailing is_space.

(** [s.startsWith(p)]. *)
Fixpoint startsWith (p s : string) : bool :=
  match p, s with
  | EmptyString, _ => true
  | String a p', String b s' => if decide (a = b) then startsWith p' s' else false
  | String _ _, EmptyString => false
  end.

(** [s.endsWith(p)]. *)
Definition endsWith (p s : string) : bool :=
  startsWith (String.rev p) (String.rev s).

(** [s.includes(c)] for a one-character needle. *)
Fixpoint includes_char (x : ascii) (s : string) : bool :=
  match s with
  | EmptyString => false
  | String c s' => is_char x c || includes_char x s'
  end.

(** [s.split(sep)] for a one-character separator: never the empty list. *)
Fixpoint split_on (sep : ascii) (s : string) : list string :=
  match s with
  | EmptyString => [EmptyString]
  | String c s' =>
      if decide (c = sep) then EmptyString :: split_on sep s'
      else match split_on sep s' with
           | [] => [String c EmptyString]
           | w :: ws => String c w :: ws
           end
  end.

(** [xs.join(sep)]. *)
Fixpoint join (sep : string) (xs : list string) : string :=
  match xs with
  | [] => EmptyString
  | [x] => x
  | x :: rest => x +:+ sep +:+ join sep rest
  end.

(** Truthiness of a string: [Boolean(s)], as in [filter(Boolean)]. *)
Definition truthy (s : string) : bool :=
  match s with EmptyString => false | _ => true end.

(** [String(n)] for a natural number. *)
Definition string_of_nat (n : nat) : string :=
  NilEmpty.string_of_uint (Nat.to_uint n).

End Js.

(* ------------------------------------------------------------------ *)
(** ** src/errors.ts                                                    *)
(* ------------------------------------------------------------------ *)

Module Errors.

(** The machine-stable codes the sources pass to [AppError]. *)
Inductive Code :=
| E_ARGS | E_NAMING | E_DISCOVERY | E_ENV_REQUIRED | E_VARS | E_RUNNER
| E_TIMEOUT | E_BRU_EXIT | E_REPORT | E_INPUT | E_TOOL_NOT_FOUND.

(** What a call can throw: an [AppError], or an error of the Node runtime
    (a failed [readFile], [readdir], ...) that the sources let through. *)
Inductive Error :=
| AppError (code : Code) (message : string)
| NodeError (message : string).

Definition Result (A : Type) : Type := Error + A.
Definition Ok {A} (a : A) : Result A := inr a.
Definition Throw {A} (e : Error) : Result A := inl e.

Definition bind {A B} (m : Result A) (k : A -> Result B) : Result B :=
  match m with inl e => inl e | inr a => k a end.

(** [assert(condition, code, message)]. *)
Definition assert (condition : bool) (code : Code) (message : string) : Result unit :=
  if condition then Ok tt else Throw (AppError code message).

Definition is_ok {A} (r : Result A) : bool :=
  match r with inr _ => true | inl _ => false end.

End Errors.

Notation "'let*' x ':=' m 'in' k" := (Errors.bind m (fun x => k))
  (at level 10, x name, m at level 100, k at level 200).
Notation "'check' m 'in' k" := (Errors.bind m (fun _ => k))
  (at level 10, m at level 100, k at level 200).

Import Errors.

(* ------------------------------------------------------------------ *)
(** ** The host: what the Node runtime supplies                         *)
(* ------------------------------------------------------------------ *)

(** [localeCompare] is [String.prototype.localeCompare] under the default
    locale of the process (a collation: negative, zero or positive);
    [cwd] is [process.cwd()]; [readFile p] is the text of
    [fs.readFile(p, 'utf8')], or [None] when the read is rejected. *)
Record Host := {
  cwd : string;
  localeCompare : string -> string -> Z;
  readFile : string -> option string
}.

(** A collation a sort can rely on: a total preorder. *)
Record Collation (cmp : string -> string -> Z) : Prop := {
  coll_total : forall a b, (cmp a b <= 0)%Z \/ (cmp b a <= 0)%Z;
  coll_trans : forall a b c, (cmp a b <= 0)%Z -> (cmp b c <= 0)%Z -> (cmp a c <= 0)%Z
}.

(** [xs.sort((a, b) => cmp(key(a), key(b)))].  Array.prototype.sort is
    stable; for a consistent comparator its result is the one of the
    stable insertion sort. *)
Section Sort.
Context {A : Type} (cmp : A -> A -> Z).

Fixpoint insert_sorted (x : A) (l : list A) : list A :=
  match l with
  | [] => [x]
  | y :: l' => if (cmp x y <=? 0)%Z then x :: l else y :: insert_sorted x l'
  end.

Definition sort_by (l : list A) : list A := foldr insert_sorted [] l.

End Sort.

(* ------------------------------------------------------------------ *)
(** ** node:path, POSIX flavour                                         *)
(* ------------------------------------------------------------------ *)

Module Path.

Definition sep : ascii := "/"%char.

(** [path.isAbsolute(p)]. *)
Definition isAbsolute (p : string) : bool := Js.startsWith "/" p.

(** The non-empty segments of a path. *)
Definition segments (p : string) : list string :=
  filter (fun s => Js.truthy s = true) (Js.split_on sep p).

(** Resolution of [.] and [..] segments (normalizeString, for an absolute
    path: [..] at the root is dropped).  [acc] is the resolved prefix,
    last segment first. *)
Fixpoint normalize_go (acc : list string) (segs : list string) : list string :=
  match segs with
  | [] => rev acc
  | s :: rest =>
      if decide (s = ".") then normalize_go acc rest
      else if decide (s = "..") then normalize_go (tail acc) rest
      else normalize_go (s :: acc) rest
  end.

(** The segments of [path.resolve(p)]. *)
Definition resolve_segments (cwd p : string) : list string :=
  if isAbsolute p then normalize_go [] (segments p)
  else normalize_go [] (segments cwd ++ segments p).

Fixpoint strip_common (xs ys : list string) : list string * list string :=
  match xs, ys with
  | x :: xs', y :: ys' => if decide (x = y) then strip_common xs' ys' else (xs, ys)
  | _, _ => (xs, ys)
  end.

(** [path.relative(from, to)]. *)
Definition relative (cwd from to : string) : string :=
  let '(up, down) := strip_common (resolve_segments cwd from) (resolve_segments cwd to) in
  Js.join "/" (map (fun _ => "..") up ++ down).

(** [path.basename(p)]. *)
Definition basename (p : string) : string := List.last (segments p) "".

(** [s.slice(0, s.length - n)]. *)
Definition drop_end (n : nat) (s : string) : string :=
  String.substring 0 (String.length s - n) s.

(** [path.basename(p, ext)]: the extension is removed from a base name
    that ends with it and is longer than it. *)
Definition basename_ext (p ext : string) : string :=
  if decide (p = ext) then ""
  else
    let b := basename p in
    if Js.endsWith ext b && (String.length ext <? String.length b)%nat
    then drop_end (String.length ext) b else b.

(** [path.join(dir, name)], for the absolute directories the sources
    pass and a name without a trailing separator: the normalized path. *)
Definition join (dir name : string) : string :=
  let segs := normalize_go [] (segments (dir +:+ "/" +:+ name)) in
  if isAbsolute dir then "/" +:+ Js.join "/" segs
  else match segs with [] => "." | _ => Js.join "/" segs end.

End Path.

(* ------------------------------------------------------------------ *)
(** ** src/naming.ts                                                    *)
(* ------------------------------------------------------------------ *)

Module Naming.

Record ToolTarget := {
  toolName : string;
  bruFileAbs : string;
  collectionRootAbs : string;
  requestPathNoExt : string;
  requiresEnv : bool;
  templateVars : list string;
  docs : option string
}.

(** A JavaScript [Map<string, ToolTarget>]: its entries in insertion order. *)
Definition ToolMap : Type := list (string * ToolTarget).

Definition map_has (m : ToolMap) (k : string) : bool :=
  existsb (fun e => if decide (e.1 = k) then true else false) m.

Definition map_get (m : ToolMap) (k : string) : option ToolTarget :=
  snd <$> List.find (fun e => if decide (e.1 = k) then true else false) m.

(** [TOOL_NAME_PATTERN = /^[a-z0-9_]+$/]. *)
Definition is_name_char (c : ascii) : bool :=
  Js.is_lower_alnum c || Js.is_underscore c.
Definition TOOL_NAME_PATTERN (s : string) : bool :=
  Js.truthy s && Js.all_chars is_name_char s.

(** [/[^a-z0-9]+/]. *)
Definition not_lower_alnum (c : ascii) : bool := negb (Js.is_lower_alnum c).

Definition sanitizeSegment (input : string) : string :=
  Js.replace_runs Js.is_underscore "_"
    (Js.strip_runs Js.is_underscore
      (Js.replace_runs not_lower_alnum "_"
        (Js.toLowerCase input))).

Definition sanitizePrefix (input : string) : Result string :=
  let value := sanitizeSegment input in
  check assert (0 <? String.length value)%nat E_ARGS
    "Prefix is empty after sanitization. Provide at least one alphanumeric character." in
  Ok value.

Definition validateToolName (input : string) : Result string :=
  check assert (0 <? String.length input)%nat E_ARGS "Tool name cannot be empty." in
  check assert (TOOL_NAME_PATTERN input) E_ARGS "Tool name must match /^[a-z0-9_]+$/" in
  Ok input.

Definition derivePrefix (prefixArg : option string) (collectionRootAbs : string)
  : Result string :=
  match prefixArg with
  | Some p => if Js.truthy p then sanitizePrefix p
              else sanitizePrefix (Path.basename collectionRootAbs)
  | None => sanitizePrefix (Path.basename collectionRootAbs)
  end.

(** [s.replace(/\.bru$/i, '')]. *)
Definition strip_bru (s : string) : string :=
  if Js.endsWith ".bru" (Js.toLowerCase s) then Path.drop_end 4 s else s.

(** [s.split(path.sep).join('/')]. *)
Definition to_posix (s : string) : string := Js.join "/" (Js.split_on Path.sep s).

(** The loop asserting that every sanitized segment is non-empty. *)
Fixpoint assert_segments (relativeBruPath : string) (segs : list string) : Result unit :=
  match segs with
  | [] => Ok tt
  | segment :: rest =>
      check assert (0 <? String.length segment)%nat E_NAMING
        ("Invalid path segment in " +:+ relativeBruPath) in
      assert_segments relativeBruPath rest
  end.

Definition path_segments (relativeBruPath : string) : list string :=
  let normalized := strip_bru (to_posix relativeBruPath) in
  map sanitizeSegment
    (filter (fun s => Js.truthy s = true) (Js.split_on "/" normalized)).

Definition buildToolNameFromRelativePath (prefix relativeBruPath : string)
  : Result string :=
  let segs := path_segments relativeBruPath in
  check assert_segments relativeBruPath segs in
  let name := prefix +:+ "_" +:+ Js.join "_" segs in
  validateToolName name.

(** *** extractDocsFromBruContent *)

(** [content.split(/\r?\n/)]: the pieces between line feeds, a carriage
    return just before a line feed belonging to the separator. *)
Definition drop_last_cr (s : string) : string :=
  if Js.endsWith (String "013" "") s then Path.drop_end 1 s else s.

Fixpoint strip_cr_but_last (pieces : list string) : list string :=
  match pieces with
  | [] => []
  | [p] => [p]
  | p :: rest => drop_last_cr p :: strip_cr_but_last rest
  end.

Definition split_lines (content : string) : list string :=
  strip_cr_but_last (Js.split_on "010" content).

(** The remainder of [line] after a match of [/^\s*docs\s*\{/], if any. *)
Definition after_docs_open (line : string) : option string :=
  let s1 := Js.drop_leading Js.is_space line in
  if Js.startsWith "docs" s1 then
    match Js.drop_leading Js.is_space (String.substring 4 (String.length s1 - 4) s1) with
    | String "{" rest => Some rest
    | _ => None
    end
  else None.

(** [/^\s*\}\s*$/.test(line)]. *)
Definition is_close_line (line : string) : bool :=
  if decide (Js.trim line = "}") then true else false.

(** [contentLines.join('\n').trim()], [undefined] when empty. *)
Definition finish_docs (contentLines : list string) : option string :=
  let out := Js.trim (Js.join (String "010" "") contentLines) in
  if Js.truthy out then Some out else None.

(** The inner loop: the lines after the opening one, up to a closing line. *)
Fixpoint docs_body (contentLines : list string) (lines : list string) : option string :=
  match lines with
  | [] => finish_docs contentLines
  | contentLine :: rest =>
      if is_close_line contentLine then finish_docs contentLines
      else docs_body (contentLines ++ [contentLine]) rest
  end.

(** [restOfFirstLine.replace(/\s*\}$/, '')]. *)
Definition strip_close (s : string) : string :=
  if Js.endsWith "}" s then Js.drop_trailing Js.is_space (Path.drop_end 1 s) else s.

(** The outer loop, on the lines from index [i] on. *)
Fixpoint docs_scan (lines : list string) : option string :=
  match lines with
  | [] => None
  | line :: rest =>
      match after_docs_open line with
      | None => docs_scan rest
      | Some tail_ =>
          let restOfFirstLine := Js.trimEnd (Js.drop_leading Js.is_space tail_) in
          if Js.truthy restOfFirstLine && negb (if decide (restOfFirstLine = "}") then true else false)
          then
            let upToClose := Js.trim (strip_close restOfFirstLine) in
            let contentLines := if Js.truthy upToClose then [upToClose] else [] in
            if Js.endsWith "}" restOfFirstLine then finish_docs contentLines
            else docs_body contentLines rest
          else docs_body [] rest
      end
  end.

Definition extractDocsFromBruContent (content : string) : option string :=
  docs_scan (split_lines content).

(** *** extractTemplateVariables *)

(** [[a-zA-Z0-9_.-]]. *)
Definition is_var_char (c : ascii) : bool :=
  Js.is_lower c || Js.is_upper c || Js.is_digit c || Js.is_underscore c
  || Js.is_char "." c || Js.is_char "-" c.

Fixpoint take_while (p : ascii -> bool) (s : string) : string :=
  match s with
  | String c s' => if p c then String c (take_while p s') else EmptyString
  | EmptyString => EmptyString
  end.

(** A match of [/\{\{\s*([a-zA-Z0-9_.-]+)\s*\}\}/] at the start of [s]:
    the captured name and the length of the match.  The three classes are
    disjoint, so the greedy reading is the only one. *)
Definition match_placeholder (s : string) : option (string * nat) :=
  if Js.startsWith "{{" s then
    let s1 := String.substring 2 (String.length s - 2) s in
    let s2 := Js.drop_leading Js.is_space s1 in
    let name := take_while is_var_char s2 in
    let s3 := Js.drop_leading is_var_char s2 in
    let s4 := Js.drop_leading Js.is_space s3 in
    if Js.truthy name && Js.startsWith "}}" s4
    then Some (name, (String.length s - String.length s4 + 2)%nat)
    else None
  else None.

(** The [regex.exec] loop: [skip] characters still belong to the last
    match; [found] is the insertion-ordered [Set]. *)
Fixpoint scan_placeholders (skip : nat) (found : list string) (s : string) : list string :=
  match s with
  | EmptyString => found
  | String _ s' =>
      match skip with
      | S k => scan_placeholders k found s'
      | O =>
          match match_placeholder s with
          | Some (variable, len) =>
              let found' := if decide (variable ∈ found) then found else found ++ [variable] in
              scan_placeholders (len - 1) found' s'
          | None => scan_placeholders 0 found s'
          end
      end
  end.

Definition template_variables_of (h : Host) (content : string) : list string :=
  sort_by (localeCompare h) (scan_placeholders 0 [] content).

Definition extractTemplateVariables (h : Host) (bruFileAbs : string) : Result (list string) :=
  match readFile h bruFileAbs with
  | Some content => Ok (template_variables_of h content)
  | None => Throw (NodeError ("readFile failed: " +:+ bruFileAbs))
  end.

Definition extractDocsFromBruFile (h : Host) (bruFileAbs : string) : Result (option string) :=
  match readFile h bruFileAbs with
  | Some content => Ok (extractDocsFromBruContent content)
  | None => Throw (NodeError ("readFile failed: " +:+ bruFileAbs))
  end.

(** [!relativePath || relativePath.startsWith('..') || path.isAbsolute(relativePath)]. *)
Definition escapes (relativePath : string) : bool :=
  negb (Js.truthy relativePath) || Js.startsWith ".." relativePath
  || Path.isAbsolute relativePath.

Definition traversal_blocked (file : string) : Error :=
  AppError E_DISCOVERY ("Path traversal blocked for discovered file: " +:+ file).

(** [Promise.all([extractTemplateVariables(f), extractDocsFromBruFile(f)])]:
    both read the same file; the first rejection is the one thrown. *)
Definition read_vars_and_docs (h : Host) (file : string)
  : Result (list string * option string) :=
  let* templateVars := extractTemplateVariables h file in
  let* docs := extractDocsFromBruFile h file in
  Ok (templateVars, docs).

Definition is_nonempty {A} (l : list A) : bool :=
  match l with [] => false | _ => true end.

Definition buildSingleToolMap (h : Host) (bruFileAbs collectionRootAbs prefix : string)
  (nameOverride : option string) : Result ToolMap :=
  let fileStem := sanitizeSegment (Path.basename_ext bruFileAbs ".bru") in
  check assert (0 <? String.length fileStem)%nat E_NAMING
    ("Invalid single request file name: " +:+ bruFileAbs) in
  let* toolName :=
    match nameOverride with
    | Some n => if Js.truthy n then validateToolName n
                else validateToolName (prefix +:+ "_" +:+ fileStem)
    | None => validateToolName (prefix +:+ "_" +:+ fileStem)
    end in
  let* vd := read_vars_and_docs h bruFileAbs in
  let requiresEnv := is_nonempty vd.1 in
  let relativePath := Path.relative (cwd h) collectionRootAbs bruFileAbs in
  if escapes relativePath then Throw (traversal_blocked bruFileAbs)
  else
    Ok [(toolName,
         {| toolName := toolName;
            bruFileAbs := bruFileAbs;
            collectionRootAbs := collectionRootAbs;
            requestPathNoExt := to_posix (strip_bru relativePath);
            requiresEnv := requiresEnv;
            templateVars := vd.1;
            docs := vd.2 |})].

Definition name_collision (toolName : string) : Error :=
  AppError E_NAMING ("Tool name collision after sanitization: " +:+ toolName).

(** The body of the [for] loop of buildCollectionToolMap, from the map
    built so far to the map after the files of [bruFilesAbs]. *)
Fixpoint collect (h : Host) (collectionRootAbs prefix : string)
  (map_ : ToolMap) (bruFilesAbs : list string) : Result ToolMap :=
  match bruFilesAbs with
  | [] => Ok map_
  | bruFileAbs :: rest =>
      let relativePath := Path.relative (cwd h) collectionRootAbs bruFileAbs in
      if escapes relativePath then Throw (traversal_blocked bruFileAbs)
      else if decide (Js.toLowerCase (Path.basename relativePath) = "collection.bru")
      then collect h collectionRootAbs prefix map_ rest
      else
        let* toolName := buildToolNameFromRelativePath prefix relativePath in
        if map_has map_ toolName then Throw (name_collision toolName)
        else
          let requestPathNoExt := to_posix (strip_bru relativePath) in
          let* vd := read_vars_and_docs h bruFileAbs in
          let requiresEnv := is_nonempty vd.1 in
          collect h collectionRootAbs prefix
            (map_ ++ [(toolName,
                       {| toolName := toolName;
                          bruFileAbs := bruFileAbs;
                          collectionRootAbs := collectionRootAbs;
                          requestPathNoExt := requestPathNoExt;
                          requiresEnv := requiresEnv;
                          templateVars := vd.1;
                          docs := vd.2 |})])
            rest
  end.

Definition buildCollectionToolMap (h : Host) (bruFilesAbs : list string)
  (collectionRootAbs prefix : string) : Result ToolMap :=
  let* map_ := collect h collectionRootAbs prefix [] bruFilesAbs in
  Ok (sort_by (fun a b => localeCompare h a.1 b.1) map_).

End Naming.

(* ------------------------------------------------------------------ *)
(** ** src/discover.ts                                                  *)
(* ------------------------------------------------------------------ *)

Module Discover.

(** What [readdir(dir, { withFileTypes: true })] reports for one entry: a
    regular file, a directory with its own entries, a symbolic link, or
    anything else (socket, fifo, device). *)
#[warnings="-register-all"]
Inductive Entry :=
| File (name : string)
| Dir (name : string) (entries : list Entry)
| Symlink (name : string)
| Other (name : string).

(** The file tree below the queried root as the walk observes it, and the
    canonical path [fs.realpath] reports for a path.  On a tree that does
    not change during the walk [realpath] is the identity on the walked
    paths; the containment check is there for when it is not. *)
Record FileSystem := {
  realpath : string -> string;
  root_entries : list Entry
}.

(** A [for] loop over [l] whose body may throw. *)
Definition for_each {A S} (body : S -> A -> Result S) : S -> list A -> Result S :=
  fix go (st : S) (l : list A) : Result S :=
    match l with
    | [] => Ok st
    | x :: l' => match body st x with
                 | inl e => inl e
                 | inr st' => go st' l'
                 end
    end.

Section Walk.
Context (h : Host) (fs : FileSystem) (rootRealAbs : string).

(** One iteration of the loop of [walk(currentAbs)] on [entry];
    [results] is the array shared by all invocations of [walk]. *)
Fixpoint walk_entry (currentAbs : string) (results : list string) (entry : Entry)
  : Result (list string) :=
  match entry with
  | Symlink _ => Ok results
  | Dir name entries =>
      if decide (Js.toLowerCase name = "environments") then Ok results
      else for_each (walk_entry (Path.join currentAbs name)) results entries
  | Other _ => Ok results
  | File name =>
      if Js.endsWith ".bru" name then
        let entryAbs := Path.join currentAbs name in
        let realAbs := realpath fs entryAbs in
        let rel := Path.relative (cwd h) rootRealAbs realAbs in
        if Naming.escapes rel then Throw (Naming.traversal_blocked entryAbs)
        else Ok (results ++ [realAbs])
      else Ok results
  end.

Definition walk (currentAbs : string) (results : list string) (entries : list Entry)
  : Result (list string) :=
  for_each (walk_entry currentAbs) results entries.

(** The key of the final sort: the POSIX-style path relative to the root. *)
Definition rel_posix (a : string) : string :=
  Naming.to_posix (Path.relative (cwd h) rootRealAbs a).

End Walk.

Definition discoverBruFiles (h : Host) (fs : FileSystem) (rootAbs : string)
  : Result (list string) :=
  let rootRealAbs := realpath fs rootAbs in
  let* results := walk h fs rootRealAbs rootRealAbs [] (root_entries fs) in
  Ok (sort_by (fun a b => localeCompare h (rel_posix h rootRealAbs a) (rel_posix h rootRealAbs b))
        results).

(** The files the discovery policy makes eligible, stated on the tree
    alone: [Found es dirs name] when below the directory with entries [es]
    the chain of directories [dirs], none of them a symbolic link and none
    named [environments] in any letter case, leads to the regular file
    [name] with the suffix [.bru]. *)
Inductive Found : list Entry -> list string -> string -> Prop :=
| Found_file es name :
    In (File name) es -> Js.endsWith ".bru" name = true -> Found es [] name
| Found_dir es d children dirs name :
    In (Dir d children) es -> Js.toLowerCase d <> "environments" ->
    Found children dirs name -> Found es (d :: dirs) name.

(** The path under which the walk meets such a file. *)
Definition entry_path (root : string) (dirs : list string) (name : string) : string :=
  Path.join (foldl Path.join root dirs) name.

(** A proper descendant of [root]: the resolved path extends the resolved
    root by at least one segment. *)
Definition descendant (cwd_ root p : string) : Prop :=
  exists rest, rest <> [] /\
    Path.resolve_segments cwd_ p = Path.resolve_segments cwd_ root ++ rest.

End Discover.

(* ------------------------------------------------------------------ *)
(** ** src/runner.ts                                                    *)
(* ------------------------------------------------------------------ *)

Module Runner.

Import Naming.

(** A decoded JSON document, as [JSON.parse] returns it: an object is
    held as its own properties in the order of [Object.entries] (the
    array indices first, ascending, then the other keys as the text has
    them), every key once.  A JavaScript value that may be [undefined] is
    an [option Json]. *)
#[warnings="-register-all"]
Inductive Json :=
| JNull
| JBool (b : bool)
| JNum (n : float)
| JStr (s : string)
| JArr (items : list Json)
| JObj (fields : list (string * Json)).

Definition Value : Type := option Json.
Definition undefined : Value := None.

(** The part of the ECMAScript runtime the runner calls and this file does
    not define: [Number::toString], the numeric reading of a string
    (StringToNumber), [JSON.stringify(v, null, 2)] and [JSON.parse] (a
    [SyntaxError] message on the left). *)
Record Runtime := {
  NumberToString : float -> string;
  StringToNumber : string -> float;
  stringify : Json -> string;
  parse : string -> string + Json
}.

Record RunnerOptions := {
  envName : option string;
  timeoutMs : nat;
  bodyLimitBytes : nat;
  vars : option (list (string * string))
}.

Record BrunoReportView := {
  statusCode : float;
  headers : list (string * string);
  bodyText : string
}.

(** [o[k]] on a value that is not [null] or [undefined]: only a plain
    object has the properties the runner reads. *)
Definition lookup_field (k : string) (fields : list (string * Json)) : Value :=
  snd <$> List.find (fun e => if decide (e.1 = k) then true else false) fields.

Definition prop (v : Json) (k : string) : Value :=
  match v with
  | JObj fields => lookup_field k fields
  | _ => None
  end.

(** [o?.[k]]. *)
Definition prop_opt (v : Value) (k : string) : Value :=
  match v with
  | Some o => prop o k
  | None => None
  end.

(** [a ?? b]. *)
Definition coalesce (a b : Value) : Value :=
  match a with
  | None | Some JNull => b
  | _ => a
  end.
Infix "??" := coalesce (at level 45, left associativity).

(** [Boolean(v)]. *)
Definition truthy (v : Value) : bool :=
  match v with
  | None | Some JNull => false
  | Some (JBool b) => b
  | Some (JNum n) => negb (PrimFloat.is_zero n || PrimFloat.is_nan n)
  | Some (JStr s) => Js.truthy s
  | Some (JArr _) | Some (JObj _) => true
  end.

(** [typeof v === 'object']. *)
Definition typeof_object (v : Value) : bool :=
  match v with
  | Some JNull | Some (JArr _) | Some (JObj _) => true
  | _ => false
  end.

(** *** Plain objects built by assignment *)

(** An array index: the canonical numeral of an integer below 2^32 - 1.
    The own keys of an object are listed with the array indices first,
    in ascending order, and the other keys after them in the order of
    their creation. *)
Definition digit_value (c : ascii) : option N :=
  let n := nat_of_ascii c in
  if (48 <=? n)%nat && (n <=? 57)%nat then Some (N.of_nat (n - 48)) else None.

Fixpoint digits_value (acc : N) (s : string) : option N :=
  match s with
  | EmptyString => Some acc
  | String c s' =>
      match digit_value c with
      | Some d => digits_value (10 * acc + d) s'
      | None => None
      end
  end.

Definition array_index (k : string) : option N :=
  match k with
  | EmptyString => None
  | String c rest =>
      if Js.is_char "0" c && Js.truthy rest then None
      else match digits_value 0 k with
           | Some n => if (n <? 4294967295)%N then Some n else None
           | None => None
           end
  end.

Definition has_key {A} (k : string) (out : list (string * A)) : bool :=
  existsb (fun e => if decide (e.1 = k) then true else false) out.

(** The value of an existing property is replaced where it stands. *)
Fixpoint obj_replace (k v : string) (out : list (string * string)) : list (string * string) :=
  match out with
  | [] => []
  | (k', v') :: rest =>
      if decide (k' = k) then (k, v) :: rest else (k', v') :: obj_replace k v rest
  end.

(** A new array index goes before the first key that is not a smaller
    array index. *)
Fixpoint obj_insert_index (n : N) (k v : string) (out : list (string * string))
  : list (string * string) :=
  match out with
  | [] => [(k, v)]
  | (k', v') :: rest =>
      match array_index k' with
      | Some n' =>
          if (n' <? n)%N then (k', v') :: obj_insert_index n k v rest
          else (k, v) :: out
      | None => (k, v) :: out
      end
  end.

(** [out[k] = v] for a string [v], on a plain object built from [{}] and
    kept as its entries in the order of [Object.entries].  The assignment
    to [__proto__] reaches the setter of [Object.prototype], which
    ignores a value that is neither an object nor [null]: no property is
    created. *)
Definition obj_set (k v : string) (out : list (string * string)) : list (string * string) :=
  if decide (k = "__proto__") then out
  else if has_key k out then obj_replace k v out
  else match array_index k with
       | Some n => obj_insert_index n k v out
       | None => out ++ [(k, v)]
       end.

Section WithRuntime.
Context (rt : Runtime).

(** The [TypeError] of ToPrimitive.  An object that [JSON.parse] made has
    no callable property of its own: with an own [toString] it has no
    method that yields a primitive value. *)
Definition not_primitive : Error :=
  NodeError "Cannot convert object to primitive value".

(** [String(v)].  An array is joined as [Array.prototype.join] does,
    [null] elements giving the empty string; an object gives what
    [Object.prototype.toString] returns unless an own [toString] hides
    that method. *)
Fixpoint ToString (v : Json) : Result string :=
  match v with
  | JNull => Ok "null"
  | JBool true => Ok "true"
  | JBool false => Ok "false"
  | JNum n => Ok (NumberToString rt n)
  | JStr s => Ok s
  | JArr items =>
      let* parts :=
        (fix elements (l : list Json) : Result (list string) :=
           match l with
           | [] => Ok []
           | x :: l' =>
               let* s := match x with JNull => Ok "" | _ => ToString x end in
               let* ss := elements l' in
               Ok (s :: ss)
           end) items in
      Ok (Js.join "," parts)
  | JObj fields =>
      if has_key "toString" fields then Throw not_primitive else Ok "[object Object]"
  end.

(** [Number(v)]: an array or an object is first converted to a
    primitive value, which is the string [String(v)] gives (the
    inherited [valueOf] returns the object itself, an own one is not
    callable). *)
Definition ToNumber (v : Value) : Result float :=
  match v with
  | None => Ok PrimFloat.nan
  | Some JNull => Ok 0%float
  | Some (JBool true) => Ok 1%float
  | Some (JBool false) => Ok 0%float
  | Some (JNum n) => Ok n
  | Some (JStr s) => Ok (StringToNumber rt s)
  | Some (JArr items) =>
      let* s := ToString (JArr items) in Ok (StringToNumber rt s)
  | Some (JObj fields) =>
      let* s := ToString (JObj fields) in Ok (StringToNumber rt s)
  end.

(** [v == null ? '' : String(v)]. *)
Definition string_or_empty (v : Value) : Result string :=
  match v with
  | None | Some JNull => Ok ""
  | Some x => ToString x
  end.

Definition toHeaders (input : Value) : Result (list (string * string)) :=
  match input with
  | Some (JArr items) =>
      Discover.for_each
        (fun out item =>
           if negb (truthy (Some item) && typeof_object (Some item)) then Ok out
           else match prop item "name" with
                | Some (JStr name) =>
                    let* text := string_or_empty (prop item "value") in
                    Ok (obj_set name text out)
                | _ => Ok out
                end) [] items
  | Some (JObj fields) =>
      Discover.for_each
        (fun out e =>
           let* text := string_or_empty (Some e.2) in
           Ok (obj_set e.1 text out)) [] fields
  | _ => Ok []
  end.

(** [JSON.stringify] does not throw on a decoded document, so that the
    [catch] of the source is never entered. *)
Definition toBodyText (input : Value) : string :=
  match input with
  | Some (JStr s) => s
  | None | Some JNull => ""
  | Some (JNum n) => NumberToString rt n
  | Some (JBool true) => "true"
  | Some (JBool false) => "false"
  | Some v => stringify rt v
  end.

(** The candidate the status is read from: the first of the four fields
    that is neither [undefined] nor [null] (the last one if all are). *)
Definition report_root (report : Json) : Json :=
  let reportRoot : Value :=
    match report with
    | JArr items => head items
    | _ => Some report
    end in
  match reportRoot with
  | None | Some JNull => JObj []
  | Some r => r
  end.

Definition first_object (r : Json) : Json :=
  let nestedResults : option (list Json) :=
    match prop r "results" with
    | Some (JArr items) => Some items
    | _ => None
    end in
  let firstResult : Value :=
    match nestedResults with
    | Some (x :: _) => Some x
    | _ => None
    end in
  match firstResult with
  | Some x => if truthy firstResult && typeof_object firstResult then x else JObj []
  | None => JObj []
  end.

Definition response_of (firstObject : Json) : Value :=
  let v := prop firstObject "response" in
  if truthy v && typeof_object v then v else None.

(** [response ?? firstObject]. *)
Definition status_source (r : Json) : Json :=
  let firstObject := first_object r in
  match response_of firstObject with
  | Some response => response
  | None => firstObject
  end.

Definition status_candidate (report : Json) : Value :=
  let r := report_root report in
  let statusSource := status_source r in
  prop statusSource "statusCode" ?? prop statusSource "status"
    ?? prop r "statusCode" ?? prop r "status".

Definition status_number (statusCandidate : Value) : Result float :=
  match statusCandidate with
  | Some (JNum n) => Ok n
  | _ => ToNumber statusCandidate
  end.

Definition extractReportView (report : Json) : Result BrunoReportView :=
  let r := report_root report in
  let firstObject := first_object r in
  let response := response_of firstObject in
  let* statusCode := status_number (status_candidate report) in
  check assert (is_finite statusCode) E_REPORT
    "Unable to parse response status from Bruno JSON report." in
  let* headers :=
    toHeaders (prop_opt response "headers" ?? prop firstObject "headers" ?? prop r "headers") in
  let bodyText :=
    toBodyText (prop_opt response "body" ?? prop_opt response "data"
                ?? prop firstObject "body" ?? prop firstObject "data"
                ?? prop r "body" ?? prop r "data") in
  Ok {| statusCode := statusCode; headers := headers; bodyText := bodyText |}.

End WithRuntime.

(** *** Buffer: UTF-8 *)

(** [buf.toString('utf8')] on a byte sequence, the result again held as
    UTF-8: the decoder of the WHATWG Encoding Standard, which keeps every
    well-formed sequence and replaces every ill-formed or incomplete one
    by U+FFFD (bytes EF BF BD). *)
Definition REPLACEMENT : string :=
  String (ascii_of_nat 239) (String (ascii_of_nat 191) (String (ascii_of_nat 189) "")).

(** The decoder's state: the continuation bytes still needed, the range
    allowed for the next one, and the bytes of the sequence read so far. *)
Record Utf8State := {
  needed : nat;
  lower : nat;
  upper : nat;
  pending : string
}.

Definition utf8_idle : Utf8State :=
  {| needed := 0; lower := 128; upper := 191; pending := "" |}.

(** A byte read with no sequence pending. *)
Definition utf8_start (b : ascii) : Utf8State * string :=
  let n := Js.code b in
  if (n <=? 127)%nat then (utf8_idle, String b "")
  else if Js.between 194 223 b then
    ({| needed := 1; lower := 128; upper := 191; pending := String b "" |}, "")
  else if Js.between 224 239 b then
    ({| needed := 2;
        lower := if (n =? 224)%nat then 160 else 128;
        upper := if (n =? 237)%nat then 159 else 191;
        pending := String b "" |}, "")
  else if Js.between 240 244 b then
    ({| needed := 3;
        lower := if (n =? 240)%nat then 144 else 128;
        upper := if (n =? 244)%nat then 143 else 191;
        pending := String b "" |}, "")
  else (utf8_idle, REPLACEMENT).

Definition utf8_step (st : Utf8State) (b : ascii) : Utf8State * string :=
  match needed st with
  | O => utf8_start b
  | S k =>
      if Js.between (lower st) (upper st) b then
        let seq := pending st +:+ String b "" in
        match k with
        | O => (utf8_idle, seq)
        | S _ => ({| needed := k; lower := 128; upper := 191; pending := seq |}, "")
        end
      else
        let '(st', out) := utf8_start b in
        (st', REPLACEMENT +:+ out)
  end.

Fixpoint utf8_decode (st : Utf8State) (bytes : string) : string :=
  match bytes with
  | EmptyString => match needed st with O => "" | S _ => REPLACEMENT end
  | String b rest =>
      let '(st', out) := utf8_step st b in
      out +:+ utf8_decode st' rest
  end.

Definition utf8_toString (bytes : string) : string := utf8_decode utf8_idle bytes.

(** [Buffer.byteLength(s, 'utf8')] and
    [Buffer.from(s, 'utf8').subarray(0, n)]. *)
Definition byteLength (s : string) : nat := String.length s.
Definition subarray (n : nat) (s : string) : string := String.substring 0 n s.

Section WithRuntime.
Context (rt : Runtime).

Definition truncation_marker (bodyLimitBytes : nat) : string :=
  String "010" "" +:+ "[truncated to " +:+ Js.string_of_nat bodyLimitBytes +:+ " bytes]".

(** The body section of the output. *)
Definition limit_body (body : string) (bodyLimitBytes : nat) : string :=
  let bodyBytes := byteLength body in
  if (bodyLimitBytes <? bodyBytes)%nat then
    let limited := utf8_toString (subarray bodyLimitBytes body) in
    limited +:+ truncation_marker bodyLimitBytes
  else body.

Definition headers_json (hs : list (string * string)) : Json :=
  JObj (map (fun e => (e.1, JStr e.2)) hs).

Definition formatToolOutput (view : BrunoReportView) (bodyLimitBytes : nat) : string :=
  let nl := String "010" "" in
  "Status: " +:+ NumberToString rt (statusCode view) +:+ nl +:+ nl
  +:+ "Headers:" +:+ nl +:+ stringify rt (headers_json (headers view)) +:+ nl +:+ nl
  +:+ "Body:" +:+ nl +:+ limit_body (bodyText view) bodyLimitBytes.

End WithRuntime.

(** *** Variables passed to the subprocess *)

(** [/[^A-Z0-9]+/]. *)
Definition not_upper_alnum (c : ascii) : bool := negb (Js.is_upper_alnum c).

Definition sanitizeEnvVarName (input : string) : string :=
  Js.replace_runs Js.is_underscore "_"
    (Js.strip_runs Js.is_underscore
      (Js.replace_runs not_upper_alnum "_"
        (Js.toUpperCase input))).

Record VarsPassThrough := {
  envMap : gmap string string;
  envVarArgs : list string
}.

(** The loop over [Object.entries(vars)]. *)
Fixpoint vars_loop (envMap_ : gmap string string) (seen : gset string)
  (envVarArgs_ : list string) (entries : list (string * string))
  : Result VarsPassThrough :=
  match entries with
  | [] => Ok {| envMap := envMap_; envVarArgs := envVarArgs_ |}
  | (key, value) :: rest =>
      check assert (0 <? String.length key)%nat E_VARS "Vars key cannot be empty." in
      check assert (negb (Js.includes_char "=" key)) E_VARS
        ("Invalid vars key (must not include '='): " +:+ key) in
      let normalized := sanitizeEnvVarName key in
      check assert (0 <? String.length normalized)%nat E_VARS ("Invalid vars key: " +:+ key) in
      let envKey := "MCP_VAR_" +:+ normalized in
      if decide (envKey ∈ seen)
      then Throw (AppError E_VARS ("Vars key collision after normalization: " +:+ key))
      else
        vars_loop (<[envKey := value]> envMap_) ({[envKey]} ∪ seen)
          (envVarArgs_ ++ ["--env-var"; key +:+ "=" +:+ value]) rest
  end.

Definition buildVarsPassThrough (vars_ : option (list (string * string)))
  : Result VarsPassThrough :=
  match vars_ with
  | None => Ok {| envMap := ∅; envVarArgs := [] |}
  | Some entries => vars_loop ∅ ∅ [] entries
  end.

(** *** runBrunoTool *)

Inductive Signal := SIGTERM | SIGKILL.

(** The two timers of a call: the one armed at spawn time for
    [options.timeoutMs], and the one armed when it expires. *)
Inductive Timer := TimeoutTimer | GraceTimer.

(** What a call does to the world, in order. *)
Inductive Effect :=
| Mkdtemp (prefix : string)
| Spawn (command : string) (args : list string) (cwd_ : string) (env : gmap string string)
| SetTimeout (t : Timer) (ms : nat)
| ClearTimeout (t : Timer)
| Kill (sig : Signal)
| ReadFile (path : string).

(** The callbacks the event loop dispatches while the call awaits its
    child, in the order of their dispatch: a chunk on stderr, the child's
    ['error'] event, the expiry of a timer, the child's ['close'] event
    with its exit code ([None] for [null]: ended by a signal). *)
Inductive ChildEvent :=
| StderrData (chunk : string)
| ChildError (message : string)
| TimerFired (t : Timer)
| ChildClose (code : option Z).

Record RunResult := {
  code : option Z;
  stderr : string;
  timedOut : bool
}.

(** The state the callbacks share: the two local variables, which timers
    are armed, the settlement of the promise (the first [resolve] or
    [reject] wins), and the effects so far. *)
Record ChildState := {
  st_stderr : string;
  st_timedOut : bool;
  st_timeoutArmed : bool;
  st_graceArmed : bool;
  st_settled : option (Result RunResult);
  st_effects : list Effect
}.

Definition settle (r : Result RunResult) (st : ChildState) : option (Result RunResult) :=
  match st_settled st with
  | Some old => Some old
  | None => Some r
  end.

(** The grace window between the two signals, in milliseconds. *)
Definition GRACE_MS : nat := 1000.

Definition child_step (st : ChildState) (ev : ChildEvent) : ChildState :=
  match ev with
  | StderrData chunk =>
      {| st_stderr := st_stderr st +:+ chunk;
         st_timedOut := st_timedOut st;
         st_timeoutArmed := st_timeoutArmed st;
         st_graceArmed := st_graceArmed st;
         st_settled := st_settled st;
         st_effects := st_effects st |}
  | ChildError message =>
      {| st_stderr := st_stderr st;
         st_timedOut := st_timedOut st;
         st_timeoutArmed := st_timeoutArmed st;
         st_graceArmed := st_graceArmed st;
         st_settled :=
           settle (Throw (AppError E_RUNNER ("Failed to spawn Bruno CLI: " +:+ message))) st;
         st_effects := st_effects st |}
  | TimerFired TimeoutTimer =>
      if st_timeoutArmed st then
        {| st_stderr := st_stderr st;
           st_timedOut := true;
           st_timeoutArmed := false;
           st_graceArmed := true;
           st_settled := st_settled st;
           st_effects := st_effects st ++ [Kill SIGTERM; SetTimeout GraceTimer GRACE_MS] |}
      else st
  | TimerFired GraceTimer =>
      if st_graceArmed st then
        {| st_stderr := st_stderr st;
           st_timedOut := st_timedOut st;
           st_timeoutArmed := st_timeoutArmed st;
           st_graceArmed := false;
           st_settled := st_settled st;
           st_effects := st_effects st ++ [Kill SIGKILL] |}
      else st
  | ChildClose code_ =>
      {| st_stderr := st_stderr st;
         st_timedOut := st_timedOut st;
         st_timeoutArmed := false;
         st_graceArmed := st_graceArmed st;
         st_settled :=
           settle (Ok {| code := code_; stderr := st_stderr st; timedOut := st_timedOut st |}) st;
         st_effects := st_effects st ++ [ClearTimeout TimeoutTimer] |}
  end.

(** The state right after [spawn] and [setTimeout(..., options.timeoutMs)]. *)
Definition child_init : ChildState :=
  {| st_stderr := "";
     st_timedOut := false;
     st_timeoutArmed := true;
     st_graceArmed := false;
     st_settled := None;
     st_effects := [] |}.

Definition run_child (events : list ChildEvent) : ChildState :=
  foldl child_step child_init events.

(** The world of one call. *)
Record World := {
  runtime : Runtime;
  process_env : gmap string string;
  os_tmpdir : string;
  mkdtemp : string -> string + string;
  randomUUID : string;
  child_events : list ChildEvent;
  read_report : string -> string + string
}.

Definition string_of_Z (z : Z) : string :=
  match z with
  | Zneg _ => "-" +:+ Js.string_of_nat (Z.abs_nat z)
  | _ => Js.string_of_nat (Z.abs_nat z)
  end.

Definition code_text (c : option Z) : string :=
  match c with
  | Some z => string_of_Z z
  | None => "null"
  end.

(** [xs.slice(-n)]. *)
Definition last_n {A} (n : nat) (xs : list A) : list A := drop (length xs - n) xs.

Definition no_env (options : RunnerOptions) : bool :=
  match envName options with
  | Some n => negb (Js.truthy n)
  | None => true
  end.

Definition provided_vars (options : RunnerOptions) : list string :=
  match vars options with
  | Some entries => map fst entries
  | None => []
  end.

Definition missing_vars (target : ToolTarget) (options : RunnerOptions) : list string :=
  filter (fun name => name ∉ provided_vars options) (templateVars target).

Definition env_required (target : ToolTarget) (missingVars : list string) : Error :=
  AppError E_ENV_REQUIRED
    ("Request " +:+ toolName target +:+ " references template variables ("
     +:+ Js.join ", " missingVars
     +:+ "). Provide --env <name> or pass all missing values via vars.").

Definition timeout_error (options : RunnerOptions) : Error :=
  AppError E_TIMEOUT
    ("Bruno request timed out after " +:+ Js.string_of_nat (timeoutMs options) +:+ "ms.").

(** The statements after the [await] of the child's promise. *)
Definition after_child (w : World) (options : RunnerOptions) (reportPath : string)
  (runResult : RunResult) : list Effect * Result string :=
  if timedOut runResult then ([], Throw (timeout_error options))
  else if negb (if decide (code runResult = Some 0%Z) then true else false) then
    let stderrTail :=
      Js.join (String "010" "")
        (last_n 10 (Js.split_on "010" (Js.trim (stderr runResult)))) in
    ([], Throw (AppError E_BRU_EXIT
           ("Bruno CLI exited with code " +:+ code_text (code runResult) +:+ ". "
            +:+ (if Js.truthy stderrTail then stderrTail else "No stderr output."))))
  else
    ([ReadFile reportPath],
     match read_report w reportPath with
     | inl message =>
         Throw (AppError E_REPORT
                  ("Bruno JSON report not found at " +:+ reportPath +:+ ": " +:+ message))
     | inr reportRaw =>
         match parse (runtime w) reportRaw with
         | inl message =>
             Throw (AppError E_REPORT ("Bruno JSON report is invalid: " +:+ message))
         | inr report =>
             let* view := extractReportView (runtime w) report in
             Ok (formatToolOutput (runtime w) view (bodyLimitBytes options))
         end
     end).

(** The effects of a call and its outcome; [None] when the child's promise
    never settles. *)
Definition runBrunoTool (w : World) (target : ToolTarget) (options : RunnerOptions)
  : list Effect * option (Result string) :=
  let missingVars :=
    if requiresEnv target && no_env options then missing_vars target options else [] in
  if is_nonempty missingVars then ([], Some (Throw (env_required target missingVars)))
  else
    let prefix := Path.join (os_tmpdir w) "bruno-mcp-" in
    match mkdtemp w prefix with
    | inl message => ([Mkdtemp prefix], Some (Throw (NodeError message)))
    | inr tmpDir =>
        let reportPath := Path.join tmpDir (randomUUID w +:+ ".json") in
        let requestBruPath := requestPathNoExt target +:+ ".bru" in
        match buildVarsPassThrough (vars options) with
        | inl e => ([Mkdtemp prefix], Some (Throw e))
        | inr pt =>
            let args :=
              ["run"; requestBruPath]
              ++ (if no_env options then [] else ["--env"; default "" (envName options)])
              ++ envVarArgs pt
              ++ ["--output"; reportPath; "--format"; "json"] in
            let childEnv := envMap pt ∪ process_env w in
            let st := run_child (child_events w) in
            let started :=
              [Mkdtemp prefix;
               Spawn "bru" args (collectionRootAbs target) childEnv;
               SetTimeout TimeoutTimer (timeoutMs options)] ++ st_effects st in
            match st_settled st with
            | None => (started, None)
            | Some (inl e) => (started, Some (Throw e))
            | Some (inr runResult) =>
                let '(more, outcome) := after_child w options reportPath runResult in
                (started ++ more, Some outcome)
            end
        end
    end.

End Runner.

(* ------------------------------------------------------------------ *)
(** ** src/mcp.ts                                                       *)
(* ------------------------------------------------------------------ *)

Module Mcp.

Import Naming.

Record ToolDescriptor := {
  name : string;
  description : string
}.

(** The handler registered for [ListToolsRequestSchema]; every tool
    carries the same [TOOL_INPUT_SCHEMA]. *)
Definition listTools (tools : ToolMap) : list ToolDescriptor :=
  map (fun e =>
         let target := e.2 in
         {| name := toolName target;
            description := "Execute Bruno request: " +:+ requestPathNoExt target |})
      tools.

(** [resolveToolTarget]. *)
Definition resolveToolTarget (tools : ToolMap) (name_ : string) : Result ToolTarget :=
  match map_get tools name_ with
  | Some target => Ok target
  | None => Throw (AppError E_TOOL_NOT_FOUND ("Unknown tool: " +:+ name_))
  end.

End Mcp.

(* ------------------------------------------------------------------ *)
(** ** node:path on whole paths                                         *)
(* ------------------------------------------------------------------ *)

(** [path.resolve], [path.normalize], [path.join] and [path.dirname] of
    the POSIX flavour, as functions from strings to strings; the
    segment-wise definitions of [Path] are reused. *)
Module PathString.

(** [normalizeString] with [allowAboveRoot]: a [..] that has nothing to
    remove is kept.  [acc] is the resolved prefix, last segment first. *)
Fixpoint normalize_above (acc : list string) (segs : list string) : list string :=
  match segs with
  | [] => rev acc
  | s :: rest =>
      if decide (s = ".") then normalize_above acc rest
      else if decide (s = "..") then
        match acc with
        | [] => normalize_above [".."] rest
        | a :: acc' =>
            if decide (a = "..") then normalize_above (".." :: acc) rest
            else normalize_above acc' rest
        end
      else normalize_above (s :: acc) rest
  end.

(** [path.normalize(p)]. *)
Definition normalize (p : string) : string :=
  if decide (p = "") then "."
  else
    let isAbsolute := Path.isAbsolute p in
    let trailingSeparator := Js.endsWith "/" p in
    let body :=
      Js.join "/" (if isAbsolute then Path.normalize_go [] (Path.segments p)
                   else normalize_above [] (Path.segments p)) in
    if decide (body = "") then
      if isAbsolute then "/" else if trailingSeparator then "./" else "."
    else
      let body' := if trailingSeparator then body +:+ "/" else body in
      if isAbsolute then "/" +:+ body' else body'.

(** [path.join(a, b)]: the non-empty arguments joined by a separator,
    then normalized. *)
Definition join (a b : string) : string :=
  let joined :=
    if decide (a = "") then b
    else if decide (b = "") then a
    else a +:+ "/" +:+ b in
  normalize joined.

(** [path.resolve(p)] in a process whose working directory is [cwd]. *)
Definition resolve (cwd p : string) : string :=
  "/" +:+ Js.join "/" (Path.resolve_segments cwd p).

(** The loop of [path.dirname]: the index of the separator that ends the
    directory part, found from the right down to index 1, the trailing
    separators being passed over. *)
Fixpoint dirname_scan (p : string) (i : nat) (matchedSlash : bool) : option nat :=
  match i with
  | O => None
  | S i' =>
      match String.get i p with
      | Some c =>
          if decide (c = Path.sep) then
            if negb matchedSlash then Some i else dirname_scan p i' matchedSlash
          else dirname_scan p i' false
      | None => dirname_scan p i' matchedSlash
      end
  end.

(** [path.dirname(p)]. *)
Definition dirname (p : string) : string :=
  if decide (p = "") then "."
  else
    let hasRoot := Path.isAbsolute p in
    match dirname_scan p (String.length p - 1) true with
    | None => if hasRoot then "/" else "."
    | Some end_ =>
        if hasRoot && (end_ =? 1)%nat then "//"
        else String.substring 0 end_ p
    end.

End PathString.

(* ------------------------------------------------------------------ *)
(** ** src/args.ts                                                      *)
(* ------------------------------------------------------------------ *)

Module Args.

Inductive Mode := Single | Collection.

Record ServerConfig := {
  mode : Mode;
  bruFileAbs : option string;
  collectionRootAbs : string;
  envName : option string;
  prefixArg : option string;
  nameArg : option string;
  timeoutMs : nat;
  bodyLimitBytes : nat
}.

Record RawArgs := {
  bru : option string;
  collection : option string;
  env : option string;
  prefix : option string;
  name : option string
}.

Definition no_args : RawArgs :=
  {| bru := None; collection := None; env := None; prefix := None; name := None |}.

(** The five assignments [raw.<field> = next]. *)
Definition set_bru (next : string) (raw : RawArgs) : RawArgs :=
  {| bru := Some next; collection := collection raw; env := env raw;
     prefix := prefix raw; name := name raw |}.
Definition set_collection (next : string) (raw : RawArgs) : RawArgs :=
  {| bru := bru raw; collection := Some next; env := env raw;
     prefix := prefix raw; name := name raw |}.
Definition set_env (next : string) (raw : RawArgs) : RawArgs :=
  {| bru := bru raw; collection := collection raw; env := Some next;
     prefix := prefix raw; name := name raw |}.
Definition set_prefix (next : string) (raw : RawArgs) : RawArgs :=
  {| bru := bru raw; collection := collection raw; env := env raw;
     prefix := Some next; name := name raw |}.
Definition set_name (next : string) (raw : RawArgs) : RawArgs :=
  {| bru := bru raw; collection := collection raw; env := env raw;
     prefix := prefix raw; name := Some next |}.

(** The loop of parseRawArgs from index [i] on, [argv] being the
    arguments from that index.  A flag takes [argv[i + 1]] as its value
    and the loop goes on two places further; [assert(next, ...)] fails
    on a missing value as on an empty one. *)
Fixpoint parse_from (raw : RawArgs) (argv : list string) : Result RawArgs :=
  match argv with
  | [] => Ok raw
  | arg :: rest =>
      let take (set : string -> RawArgs -> RawArgs) : Result RawArgs :=
        match rest with
        | next :: rest' =>
            check assert (Js.truthy next) E_ARGS ("Missing value for " +:+ arg) in
            parse_from (set next raw) rest'
        | [] => Throw (AppError E_ARGS ("Missing value for " +:+ arg))
        end in
      if decide (arg = "--bru") then take set_bru
      else if decide (arg = "--collection") then take set_collection
      else if decide (arg = "--env") then take set_env
      else if decide (arg = "--prefix") then take set_prefix
      else if decide (arg = "--name") then take set_name
      else Throw (AppError E_ARGS ("Unknown argument: " +:+ arg))
  end.

Definition parseRawArgs (argv : list string) : Result RawArgs :=
  parse_from no_args argv.

(** What [stat] tells about a path, and the three calls of
    node:fs/promises the file makes: each is rejected with an error, of
    which only the message is read, or fulfilled. *)
Inductive Kind := IsFile | IsDirectory | IsOther.

Record Fs := {
  realpath : string -> string + string;
  stat : string -> string + Kind;
  access : string -> option string
}.

Definition isFile (k : Kind) : bool :=
  match k with IsFile => true | _ => false end.
Definition isDirectory (k : Kind) : bool :=
  match k with IsDirectory => true | _ => false end.

(** [/[\\/]/]. *)
Definition is_any_separator (c : ascii) : bool :=
  Js.is_char "/" c || Js.is_char "\" c.

(** [s.split(/[p]+/)] followed by [filter(Boolean)]: the pieces between
    characters of the class; a run of them gives empty pieces, which the
    filter removes as it removes those a split on the run gives at the
    ends. *)
Fixpoint split_where (p : ascii -> bool) (s : string) : list string :=
  match s with
  | EmptyString => [EmptyString]
  | String c s' =>
      if p c then EmptyString :: split_where p s'
      else match split_where p s' with
           | [] => [String c EmptyString]
           | w :: ws => String c w :: ws
           end
  end.

Definition raw_segments (inputPath : string) : list string :=
  filter (fun s => Js.truthy s = true) (split_where is_any_separator inputPath).

Inductive Expected := ExpectFile | ExpectDir.

Definition resolveReadablePath (h : Host) (fs : Fs) (inputPath : string)
  (expected : Expected) : Result string :=
  let rawSegments := raw_segments inputPath in
  check assert (negb (if decide (".." ∈ rawSegments) then true else false)) E_ARGS
    ("Path traversal tokens are not allowed in input path: " +:+ inputPath) in
  let abs := PathString.resolve (cwd h) inputPath in
  match realpath fs abs with
  | inl message =>
      Throw (AppError E_ARGS
               ("Path not found or not accessible: " +:+ inputPath +:+ ". " +:+ message))
  | inr real =>
      match stat fs real with
      | inl message =>
          Throw (AppError E_ARGS ("Unable to stat path: " +:+ inputPath +:+ ". " +:+ message))
      | inr details =>
          check match expected with
                | ExpectFile =>
                    assert (isFile details) E_ARGS
                      ("Expected a file path but found: " +:+ inputPath)
                | ExpectDir => Ok tt
                end in
          check match expected with
                | ExpectDir =>
                    assert (isDirectory details) E_ARGS
                      ("Expected a directory path but found: " +:+ inputPath)
                | ExpectFile => Ok tt
                end in
          match access fs real with
          | Some message =>
              Throw (AppError E_ARGS
                       ("Path is not readable: " +:+ inputPath +:+ ". " +:+ message))
          | None => Ok real
          end
      end
  end.

(** The [try] block of resolveCollectionRoot: [true] when it returns
    [current], [false] when it falls through or anything in it is
    rejected. *)
Definition marker_readable (fs : Fs) (current : string) : bool :=
  let marker := PathString.join current "bruno.json" in
  match stat fs marker with
  | inr markerStat =>
      if isFile markerStat then
        match access fs marker with None => true | Some _ => false end
      else false
  | inl _ => false
  end.

Definition root_not_found (startAbs : string) : Error :=
  AppError E_ARGS
    ("Collection root not found. Expected a readable bruno.json in " +:+ startAbs
     +:+ " or its parents.").

(** The [while (true)] loop, run for at most [fuel] iterations: [None]
    when they do not suffice. *)
Fixpoint root_loop (fs : Fs) (startAbs : string) (fuel : nat) (current : string)
  : option (Result string) :=
  match fuel with
  | O => None
  | S fuel' =>
      if marker_readable fs current then Some (Ok current)
      else
        let parent := PathString.dirname current in
        if decide (parent = current) then Some (Throw (root_not_found startAbs))
        else root_loop fs startAbs fuel' parent
  end.

(** Every iteration but the last two shortens [current], so that these
    iterations are more than the loop can make. *)
Definition resolveCollectionRoot (fs : Fs) (startAbs : string) : option (Result string) :=
  root_loop fs startAbs (String.length startAbs + 3) startAbs.

(** [Boolean(raw.<field>)]. *)
Definition given (v : option string) : bool :=
  match v with Some s => Js.truthy s | None => false end.

#[warnings="-abstract-large-number"]
Definition config_of (raw : RawArgs) (mode_ : Mode) (bruFileAbs_ : option string)
  (collectionRootAbs_ : string) : ServerConfig :=
  {| mode := mode_;
     bruFileAbs := bruFileAbs_;
     collectionRootAbs := collectionRootAbs_;
     envName := env raw;
     prefixArg := prefix raw;
     nameArg := name raw;
     timeoutMs := 30000;
     bodyLimitBytes := 65536 |}.

(** [None] when the search for the collection root does not end. *)
Definition parseAndValidateArgs (h : Host) (fs : Fs) (argv : list string)
  : option (Result ServerConfig) :=
  match parseRawArgs argv with
  | inl e => Some (Throw e)
  | inr raw =>
      let hasBru := given (bru raw) in
      let hasCollection := given (collection raw) in
      if negb (xorb hasBru hasCollection) then
        Some (Throw (AppError E_ARGS
                       "Provide exactly one of --bru <path> or --collection <path>."))
      else if hasBru then
        let bruPath := default "" (bru raw) in
        if negb (Js.truthy bruPath) then
          Some (Throw (AppError E_ARGS "Missing --bru value."))
        else if negb (Js.endsWith ".bru" bruPath) then
          Some (Throw (AppError E_ARGS "--bru must point to a .bru file."))
        else
          match resolveReadablePath h fs bruPath ExpectFile with
          | inl e => Some (Throw e)
          | inr bruFileAbs_ =>
              match resolveCollectionRoot fs (PathString.dirname bruFileAbs_) with
              | None => None
              | Some (inl e) => Some (Throw e)
              | Some (inr collectionRootAbs_) =>
                  Some (Ok (config_of raw Single (Some bruFileAbs_) collectionRootAbs_))
              end
          end
      else
        let collectionPath := default "" (collection raw) in
        if negb (Js.truthy collectionPath) then
          Some (Throw (AppError E_ARGS "Missing --collection value."))
        else
          match resolveReadablePath h fs collectionPath ExpectDir with
          | inl e => Some (Throw e)
          | inr collectionRootAbs_ =>
              match resolveCollectionRoot fs collectionRootAbs_ with
              | None => None
              | Some (inl e) => Some (Throw e)
              | Some (inr _) =>
                  Some (Ok (config_of raw Collection None collectionRootAbs_))
              end
          end
  end.

End Args.

(* ------------------------------------------------------------------ *)
(** ** src/mcp.ts: the call of a tool                                   *)
(* ------------------------------------------------------------------ *)

Module Server.

Import Naming Runner Mcp.

(** The name of a code, and [err.message]: the constructor of [AppError]
    puts the code in brackets before the message. *)
Definition code_name (c : Code) : string :=
  match c with
  | E_ARGS => "E_ARGS"
  | E_NAMING => "E_NAMING"
  | E_DISCOVERY => "E_DISCOVERY"
  | E_ENV_REQUIRED => "E_ENV_REQUIRED"
  | E_VARS => "E_VARS"
  | E_RUNNER => "E_RUNNER"
  | E_TIMEOUT => "E_TIMEOUT"
  | E_BRU_EXIT => "E_BRU_EXIT"
  | E_REPORT => "E_REPORT"
  | E_INPUT => "E_INPUT"
  | E_TOOL_NOT_FOUND => "E_TOOL_NOT_FOUND"
  end.

Definition error_message (e : Error) : string :=
  match e with
  | AppError c message => "[" +:+ code_name c +:+ "] " +:+ message
  | NodeError message => message
  end.

Definition quote_mark : string := String (ascii_of_nat 34) "".

(** The loop over [Object.keys(obj)]. *)
Fixpoint check_keys (keys : list string) : Result unit :=
  match keys with
  | [] => Ok tt
  | key :: rest =>
      if decide (key = "vars") then check_keys rest
      else Throw (AppError E_INPUT
                    ("Unsupported input key: " +:+ key +:+ ". Only " +:+ quote_mark
                     +:+ "vars" +:+ quote_mark +:+ " is allowed."))
  end.

(** The loop over [Object.entries(obj.vars)], [vars] being the object
    built so far. *)
Fixpoint vars_entries (vars_ : list (string * string)) (entries : list (string * Json))
  : Result (list (string * string)) :=
  match entries with
  | [] => Ok vars_
  | (key, value) :: rest =>
      match value with
      | JStr s => vars_entries (obj_set key s vars_) rest
      | _ => Throw (AppError E_INPUT ("vars." +:+ key +:+ " must be a string."))
      end
  end.

(** [validateVars]; an object is held as its entries in the order of
    [Object.entries]. *)
Definition validateVars (input : Value) : Result (option (list (string * string))) :=
  match input with
  | None | Some JNull => Ok None
  | Some (JObj obj) =>
      check check_keys (map fst obj) in
      match lookup_field "vars" obj with
      | None | Some JNull => Ok None
      | Some (JObj entries) =>
          let* vars_ := vars_entries [] entries in
          Ok (Some vars_)
      | Some _ =>
          Throw (AppError E_INPUT
                   (quote_mark +:+ "vars" +:+ quote_mark
                    +:+ " must be an object of string values."))
      end
  | Some _ => Throw (AppError E_INPUT "Tool input must be an object.")
  end.

(** The parameters of createAndRunMcpServer. *)
Record ServerParams := {
  tools : ToolMap;
  server_envName : option string;
  server_timeoutMs : nat;
  server_bodyLimitBytes : nat
}.

(** The result of a call: [isError] and the text of its one content item. *)
Record CallToolResult := {
  isError : bool;
  text : string
}.

Definition failure (e : Error) : CallToolResult :=
  {| isError := true; text := error_message e |}.

(** The handler registered for [CallToolRequestSchema], on the name and
    the arguments of the request: the effects of the call and its result,
    [None] while the subprocess has not settled. *)
Definition callTool (w : World) (params : ServerParams) (name_ : string) (arguments : Value)
  : list Effect * option CallToolResult :=
  match resolveToolTarget (tools params) name_ with
  | inl e => ([], Some (failure e))
  | inr target =>
      match validateVars arguments with
      | inl e => ([], Some (failure e))
      | inr vars_ =>
          let runOptionsWithMaybe :=
            {| Runner.envName := server_envName params;
               Runner.timeoutMs := server_timeoutMs params;
               Runner.bodyLimitBytes := server_bodyLimitBytes params;
               vars := vars_ |} in
          let '(effects, outcome) := runBrunoTool w target runOptionsWithMaybe in
          (effects,
           match outcome with
           | None => None
           | Some (inl e) => Some (failure e)
           | Some (inr text_) => Some {| isError := false; text := text_ |}
           end)
      end
  end.

End Server.

(* ------------------------------------------------------------------ *)
(** ** src/index.ts                                                     *)
(* ------------------------------------------------------------------ *)

Module Index.

Import Naming Server.

(** The statements of [main] after the arguments are validated, up to
    the start of the server: the parameters createAndRunMcpServer is
    called with, or what is thrown before. *)
Definition start (h : Host) (fs : Discover.FileSystem) (config : Args.ServerConfig)
  : Result ServerParams :=
  let* prefix := derivePrefix (Args.prefixArg config) (Args.collectionRootAbs config) in
  match Args.mode config with
  | Args.Single =>
      check assert (Args.given (Args.bruFileAbs config)) E_ARGS
        "Single mode requires a resolved --bru path." in
      let* tools_ :=
        buildSingleToolMap h (default "" (Args.bruFileAbs config))
          (Args.collectionRootAbs config) prefix (Args.nameArg config) in
      Ok {| tools := tools_;
            server_envName := Args.envName config;
            server_timeoutMs := Args.timeoutMs config;
            server_bodyLimitBytes := Args.bodyLimitBytes config |}
  | Args.Collection =>
      let* bruFiles := Discover.discoverBruFiles h fs (Args.collectionRootAbs config) in
      check assert (0 <? length bruFiles)%nat E_DISCOVERY
        "No .bru files were found in the collection path." in
      let* tools_ :=
        buildCollectionToolMap h bruFiles (Args.collectionRootAbs config) prefix in
      Ok {| tools := tools_;
            server_envName := Args.envName config;
            server_timeoutMs := Args.timeoutMs config;
            server_bodyLimitBytes := Args.bodyLimitBytes config |}
  end.

(** [main]; [None] when the validation of the arguments does not end. *)
Definition main (h : Host) (afs : Args.Fs) (fs : Discover.FileSystem) (argv : list string)
  : option (Result ServerParams) :=
  match Args.parseAndValidateArgs h afs argv with
  | None => None
  | Some (inl e) => Some (Throw e)
  | Some (inr config) => Some (start h fs config)
  end.

(** What the [catch] of [main] writes to the standard error stream; the
    exit code is then 1. *)
Definition error_line (e : Error) : string :=
  match e with
  | AppError _ _ => error_message e
  | NodeError message => "[E_UNKNOWN] " +:+ message
  end.

End Index.

(* ------------------------------------------------------------------ *)
(** ** A reference host for closed examples                             *)
(* ------------------------------------------------------------------ *)

(** The theorems of Part II hold for every host; the examples need one.
    The functions below agree with Node on the inputs the examples use:
    ASCII file names, integer status codes, decimal numerals. *)
Module Reference.

Import Runner.

(** A collation that, like the root collation of ICU on letters, orders
    first without regard to letter case and then puts the lower-case
    letter first. *)
Definition collate (a b : string) : Z :=
  let la := Js.toLowerCase a in
  let lb := Js.toLowerCase b in
  if decide (la = lb) then
    if decide (a = b) then 0%Z else if String.leb b a then (-1)%Z else 1%Z
  else if String.leb la lb then (-1)%Z else 1%Z.

(** The comparison of code units: the order of [<] on strings. *)
Definition code_unit_compare (a b : string) : Z :=
  match String.compare a b with
  | Lt => (-1)%Z
  | Eq => 0%Z
  | Gt => 1%Z
  end.

(** A host whose files are given by a table. *)
Definition lookup_file (files : list (string * string)) (p : string) : option string :=
  snd <$> List.find (fun e => if decide (e.1 = p) then true else false) files.

Definition host (files : list (string * string)) : Host :=
  {| cwd := "/"; localeCompare := collate; readFile := lookup_file files |}.

(** [Number::toString], exact on the integers below 10^21. *)
Definition number_to_string (f : float) : string :=
  match Prim2SF f with
  | S754_zero _ => "0"
  | S754_infinity false => "Infinity"
  | S754_infinity true => "-Infinity"
  | S754_nan => "NaN"
  | S754_finite s m e =>
      let z := if (0 <=? e)%Z then (Zpos m * 2 ^ e)%Z else (Zpos m / 2 ^ (- e))%Z in
      (if s then "-" else "") +:+ Js.string_of_nat (Z.to_nat z)
  end.

Fixpoint digits_value (acc : Z) (s : string) : option Z :=
  match s with
  | EmptyString => Some acc
  | String c s' =>
      if Js.is_digit c then digits_value (10 * acc + Z.of_nat (Js.code c - 48)) s'
      else None
  end.

Definition float_of_Z (z : Z) : float :=
  match z with
  | Z0 => 0%float
  | Zpos p => SF2Prim (binary_normalize prec emax (Zpos p) 0 false)
  | Zneg p => SF2Prim (binary_normalize prec emax (Zneg p) 0 false)
  end.

(** StringToNumber on optional white space around a decimal numeral; any
    other text reads as NaN here. *)
Definition string_to_number (s : string) : float :=
  match Js.trim s with
  | EmptyString => 0%float
  | t => match digits_value 0 t with
         | Some z => float_of_Z z
         | None => PrimFloat.nan
         end
  end.

Definition dquote : string := String (ascii_of_nat 34) "".
Definition backslash : string := String (ascii_of_nat 92) "".

Definition hex_digit (n : nat) : ascii :=
  if (n <? 10)%nat then ascii_of_nat (48 + n) else ascii_of_nat (87 + n).

(** QuoteJSONString. *)
Fixpoint escape (s : string) : string :=
  match s with
  | EmptyString => EmptyString
  | String c s' =>
      let n := Js.code c in
      (if (n =? 34)%nat then backslash +:+ dquote
       else if (n =? 92)%nat then backslash +:+ backslash
       else if (n =? 8)%nat then backslash +:+ "b"
       else if (n =? 12)%nat then backslash +:+ "f"
       else if (n =? 10)%nat then backslash +:+ "n"
       else if (n =? 13)%nat then backslash +:+ "r"
       else if (n =? 9)%nat then backslash +:+ "t"
       else if (n <? 32)%nat then
         backslash +:+ "u00" +:+ String (hex_digit (n / 16)) (String (hex_digit (n mod 16)) "")
       else String c "") +:+ escape s'
  end.

Definition quote (s : string) : string := dquote +:+ escape s +:+ dquote.

(** [JSON.stringify(v, null, 2)], [indent] being the current indentation. *)
Fixpoint stringify_at (indent : string) (v : Json) : string :=
  let nl := String "010" "" in
  let inner := indent +:+ "  " in
  match v with
  | JNull => "null"
  | JBool true => "true"
  | JBool false => "false"
  | JNum n => if is_finite n then number_to_string n else "null"
  | JStr s => quote s
  | JArr [] => "[]"
  | JArr items =>
      "[" +:+ nl
      +:+ Js.join ("," +:+ nl) (map (fun x => inner +:+ stringify_at inner x) items)
      +:+ nl +:+ indent +:+ "]"
  | JObj [] => "{}"
  | JObj fields =>
      "{" +:+ nl
      +:+ Js.join ("," +:+ nl)
            (map (fun e => inner +:+ quote e.1 +:+ ": " +:+ stringify_at inner e.2) fields)
      +:+ nl +:+ indent +:+ "}"
  end.

(** [JSON.parse], given as the table of the documents a world contains. *)
Definition parse_table (docs : list (string * Json)) (text : string) : string + Json :=
  match List.find (fun e => if decide (e.1 = text) then true else false) docs with
  | Some e => inr e.2
  | None => inl "Unexpected token"
  end.

Definition runtime (docs : list (string * Json)) : Runtime :=
  {| NumberToString := number_to_string;
     StringToNumber := string_to_number;
     stringify := stringify_at "";
     parse := parse_table docs |}.

(** [c.repeat(n)]. *)
Fixpoint repeat_string (n : nat) (s : string) : string :=
  match n with
  | O => ""
  | S k => s +:+ repeat_string k s
  end.

End Reference.

(* ================================================================== *)
(** * Part II: properties                                               *)
(* ================================================================== *)

(* ------------------------------------------------------------------ *)
(** ** Facts about strings                                              *)
(* ------------------------------------------------------------------ *)

Module StringFacts.

Import Js.

Lemma app_cons c s t : String c s +:+ t = String c (s +:+ t).
Proof. reflexivity. Qed.

Lemma app_nil_l s : "" +:+ s = s.
Proof. reflexivity. Qed.

Lemma app_nil_r s : s +:+ "" = s.
Proof. induction s as [|c s IH]; [reflexivity|]. by rewrite app_cons, IH. Qed.

Lemma app_assoc a b c : (a +:+ b) +:+ c = a +:+ (b +:+ c).
Proof. induction a as [|x a IH]; [reflexivity|]. by rewrite !app_cons, IH. Qed.

Lemma length_app a b : String.length (a +:+ b) = (String.length a + String.length b)%nat.
Proof. induction a as [|x a IH]; [reflexivity|]. rewrite app_cons. simpl. by rewrite IH. Qed.

Lemma is_char_true x c : is_char x c = true <-> c = x.
Proof. unfold is_char. destruct (decide (c = x)); split; congruence. Qed.

Lemma is_underscore_true c : is_underscore c = true <-> c = underscore.
Proof. apply is_char_true. Qed.

(** The classes [[a-z0-9]] and [_] are disjoint, and neither holds an
    upper-case letter. *)
Lemma lower_alnum_not_underscore c : is_lower_alnum c = true -> is_underscore c = false.
Proof.
  intros H. destruct (is_underscore c) eqn:E; [|done].
  apply is_underscore_true in E. subst c. vm_compute in H. discriminate.
Qed.

Lemma lower_alnum_not_upper c : is_lower_alnum c = true -> is_upper c = false.
Proof.
  unfold is_lower_alnum, is_lower, is_digit, is_upper, between.
  intros H. apply orb_true_iff in H.
  apply andb_false_iff.
  destruct H as [H|H]; apply andb_true_iff in H as [H1 H2];
    apply Nat.leb_le in H1; apply Nat.leb_le in H2.
  - right. apply Nat.leb_gt. lia.
  - left. apply Nat.leb_gt. lia.
Qed.

Lemma underscore_not_upper : is_upper underscore = false.
Proof. reflexivity. Qed.

(** No two adjacent characters of the class [p]; [prev] tells that the
    character before the string is of the class. *)
Fixpoint no_double (p : ascii -> bool) (prev : bool) (s : string) : bool :=
  match s with
  | EmptyString => true
  | String c s' => if p c then negb prev && no_double p true s' else no_double p false s'
  end.

Definition first_is (p : ascii -> bool) (s : string) : bool :=
  match s with
  | EmptyString => false
  | String c _ => p c
  end.

Fixpoint last_is (p : ascii -> bool) (s : string) : bool :=
  match s with
  | EmptyString => false
  | String c EmptyString => p c
  | String _ s' => last_is p s'
  end.

Lemma no_double_weaken p s : no_double p true s = true -> no_double p false s = true.
Proof. destruct s as [|c s]; simpl; [done|]. destruct (p c); simpl; [discriminate|done]. Qed.

Lemma no_double_any p b s : no_double p b s = true -> no_double p false s = true.
Proof. destruct b; [apply no_double_weaken|done]. Qed.

(** *** Replacing the runs of a class by one character *)

Section ReplaceRuns.
Context (p : ascii -> bool) (r : ascii) (Hr : p r = true).

Lemma replace_runs_go_no_double b s :
  no_double p b (replace_runs_go p (String r "") b s) = true.
Proof.
  revert b. induction s as [|c s IH]; intros b; simpl; [done|].
  destruct (p c) eqn:Hc.
  - destruct b; [apply IH|].
    rewrite app_cons, app_nil_l. simpl. rewrite Hr. simpl. apply IH.
  - simpl. rewrite Hc. apply IH.
Qed.

Lemma replace_runs_go_all (q : ascii -> bool) b s :
  q r = true -> (forall c, p c = false -> q c = true) ->
  all_chars q (replace_runs_go p (String r "") b s) = true.
Proof.
  intros Hq Hpq. revert b. induction s as [|c s IH]; intros b; simpl; [done|].
  destruct (p c) eqn:Hc.
  - destruct b; [apply IH|].
    rewrite app_cons, app_nil_l. simpl. by rewrite Hq, IH.
  - simpl. by rewrite (Hpq c Hc), IH.
Qed.

(** A string in which the class occurs only as single copies of [r] is
    left as it is. *)
Lemma replace_runs_go_id b s :
  (forall c, p c = true -> c = r) -> no_double p b s = true ->
  replace_runs_go p (String r "") b s = s.
Proof.
  intros Hp. revert b. induction s as [|c s IH]; intros b H; simpl in *; [done|].
  destruct (p c) eqn:Hc.
  - apply andb_true_iff in H as [Hb H]. destruct b; [discriminate|].
    rewrite app_cons, app_nil_l. rewrite (Hp c Hc). f_equal. by apply IH.
  - f_equal. by apply IH.
Qed.

End ReplaceRuns.

(** *** Removing the leading and the trailing run *)

Section Strip.
Context (p : ascii -> bool).

Lemma drop_leading_all q s : all_chars q s = true -> all_chars q (drop_leading p s) = true.
Proof.
  induction s as [|c s IH]; simpl; [done|]. intros H.
  apply andb_true_iff in H as [H1 H2].
  destruct (p c); [by apply IH|]. simpl. by rewrite H1, H2.
Qed.

Lemma drop_leading_no_double q b s :
  no_double q b s = true -> no_double q false (drop_leading p s) = true.
Proof.
  revert b. induction s as [|c s IH]; intros b H; simpl in *; [done|].
  destruct (p c).
  - destruct (q c).
    + apply andb_true_iff in H as [_ H]. by apply (IH true).
    + by apply (IH false).
  - apply (no_double_any q b). exact H.
Qed.

Lemma drop_leading_first s : first_is p (drop_leading p s) = false.
Proof.
  induction s as [|c s IH]; simpl; [done|].
  destruct (p c) eqn:Hc; [done|]. simpl. exact Hc.
Qed.

Lemma drop_leading_id s : first_is p s = false -> drop_leading p s = s.
Proof. destruct s as [|c s]; simpl; [done|]. by intros ->. Qed.

Lemma drop_trailing_all q s : all_chars q s = true -> all_chars q (drop_trailing p s) = true.
Proof.
  induction s as [|c s IH]; simpl; [done|]. intros H.
  apply andb_true_iff in H as [H1 H2]. specialize (IH H2).
  destruct (drop_trailing p s) as [|d t].
  - destruct (p c); simpl; [done|]. by rewrite H1.
  - simpl in *. by rewrite H1, IH.
Qed.

Lemma drop_trailing_no_double q b s :
  no_double q b s = true -> no_double q b (drop_trailing p s) = true.
Proof.
  revert b. induction s as [|c s IH]; intros b H; simpl in *; [done|].
  destruct (q c) eqn:Hq.
  - apply andb_true_iff in H as [Hb H]. specialize (IH true H).
    destruct (drop_trailing p s) as [|d t].
    + destruct (p c); simpl; [done|]. by rewrite Hq, Hb.
    + simpl. rewrite Hq, Hb. exact IH.
  - specialize (IH false H).
    destruct (drop_trailing p s) as [|d t].
    + destruct (p c); simpl; [done|]. by rewrite Hq.
    + simpl. rewrite Hq. exact IH.
Qed.

Lemma drop_trailing_last s : last_is p (drop_trailing p s) = false.
Proof.
  induction s as [|c s IH]; simpl; [done|].
  destruct (drop_trailing p s) as [|d t] eqn:E.
  - destruct (p c) eqn:Hc; simpl; [done|exact Hc].
  - exact IH.
Qed.

Lemma drop_trailing_first s :
  first_is p s = false -> first_is p (drop_trailing p s) = false.
Proof.
  destruct s as [|c s]; simpl; [done|]. intros Hc.
  destruct (drop_trailing p s); [by rewrite Hc|done].
Qed.

Lemma drop_trailing_id s : last_is p s = false -> drop_trailing p s = s.
Proof.
  induction s as [|c s IH]; simpl; [done|].
  destruct s as [|d t].
  - simpl. by intros ->.
  - intros H. rewrite (IH H). reflexivity.
Qed.

End Strip.

(** *** The predicates in terms of concatenation *)

Lemma first_is_app p c t : p c = true -> first_is p (String c "" +:+ t) = true.
Proof. done. Qed.

Lemma last_is_app p c t : p c = true -> last_is p (t +:+ String c "") = true.
Proof.
  intros Hc. induction t as [|d t IH]; [exact Hc|].
  rewrite app_cons. simpl.
  destruct (t +:+ String c "") eqn:E; [|exact IH].
  destruct t; discriminate.
Qed.

Lemma no_double_app p c u v b :
  p c = true -> no_double p b (u +:+ String c (String c "") +:+ v) = false.
Proof.
  intros Hc. revert b. induction u as [|d u IH]; intros b.
  - rewrite app_nil_l, !app_cons. simpl. rewrite Hc. simpl.
    by rewrite andb_false_r.
  - rewrite app_cons. simpl. destruct (p d); [|apply IH].
    rewrite IH. apply andb_false_r.
Qed.

Lemma map_chars_id f q s :
  (forall c, q c = true -> f c = c) -> all_chars q s = true -> map_chars f s = s.
Proof.
  intros Hf. induction s as [|c s IH]; simpl; [done|]. intros H.
  apply andb_true_iff in H as [H1 H2]. by rewrite (Hf c H1), IH.
Qed.

End StringFacts.

(* ------------------------------------------------------------------ *)
(** ** sanitizeSegment                                                  *)
(* ------------------------------------------------------------------ *)

Module SanitizeFacts.

Import Js StringFacts Naming.

Lemma no_double_mono (p q : ascii -> bool) b s :
  (forall c, q c = true -> p c = true) ->
  no_double p b s = true -> no_double q b s = true.
Proof.
  intros Hqp. revert b. induction s as [|c s IH]; intros b H; simpl in *; [done|].
  destruct (q c) eqn:Hq.
  - rewrite (Hqp c Hq) in H. apply andb_true_iff in H as [Hb H].
    rewrite Hb. simpl. by apply IH.
  - destruct (p c).
    + apply andb_true_iff in H as [_ H]. apply IH. by apply no_double_weaken.
    + by apply IH.
Qed.

Lemma replace_runs_go_ext (p p' q : ascii -> bool) r b s :
  (forall c, q c = true -> p c = p' c) -> all_chars q s = true ->
  replace_runs_go p r b s = replace_runs_go p' r b s.
Proof.
  intros Hpp. revert b. induction s as [|c s IH]; intros b H; simpl in *; [done|].
  apply andb_true_iff in H as [H1 H2]. rewrite <- (Hpp c H1).
  destruct (p c); destruct b; by rewrite IH.
Qed.

(** What the sanitizer produces: characters of [[a-z0-9_]] only, every
    underscore single, none first and none last. *)
Record Clean (s : string) : Prop := {
  clean_chars : all_chars is_name_char s = true;
  clean_single : no_double is_underscore false s = true;
  clean_first : first_is is_underscore s = false;
  clean_last : last_is is_underscore s = false
}.

Lemma name_char_cases c :
  is_name_char c = true -> not_lower_alnum c = is_underscore c.
Proof.
  unfold is_name_char, not_lower_alnum. intros H.
  destruct (is_lower_alnum c) eqn:E; simpl in *.
  - symmetry. by apply lower_alnum_not_underscore.
  - by rewrite H.
Qed.

Lemma name_char_lower c : is_name_char c = true -> lower_char c = c.
Proof.
  unfold is_name_char, lower_char. intros H. apply orb_true_iff in H as [H|H].
  - by rewrite (lower_alnum_not_upper c H).
  - apply is_underscore_true in H. by subst c.
Qed.

Lemma name_char_not_upper c : is_name_char c = true -> negb (is_upper c) = true.
Proof.
  unfold is_name_char. intros H. apply orb_true_iff in H as [H|H].
  - by rewrite (lower_alnum_not_upper c H).
  - apply is_underscore_true in H. by subst c.
Qed.

Lemma all_chars_impl (p q : ascii -> bool) s :
  (forall c, p c = true -> q c = true) -> all_chars p s = true -> all_chars q s = true.
Proof.
  intros Hpq. induction s as [|c s IH]; simpl; [done|]. intros H.
  apply andb_true_iff in H as [H1 H2]. by rewrite (Hpq c H1), IH.
Qed.

(** The three replacements after any lower-casing [lower].  Nothing
    below depends on which characters [lower] maps where, only on its
    leaving a text of [[a-z0-9_]] as it is: the results hold for the
    lower-casing of ASCII letters of this file as for the full
    [toLowerCase] of ECMAScript. *)
Section AnyLowerCase.
Context (lower : string -> string).

Definition sanitize_with (input : string) : string :=
  replace_runs is_underscore "_"
    (strip_runs is_underscore
      (replace_runs not_lower_alnum "_" (lower input))).

(** The third replacement finds nothing left to collapse. *)
Lemma sanitize_with_unfold x :
  sanitize_with x =
  strip_runs is_underscore (replace_runs not_lower_alnum "_" (lower x)).
Proof.
  unfold sanitize_with, replace_runs at 1.
  apply (replace_runs_go_id is_underscore underscore).
  - intros c. apply is_underscore_true.
  - unfold strip_runs. apply drop_trailing_no_double.
    apply (drop_leading_no_double _ _ false).
    apply (no_double_mono not_lower_alnum).
    + intros c Hc. unfold not_lower_alnum.
      destruct (is_lower_alnum c) eqn:E; [|done].
      apply lower_alnum_not_underscore in E. congruence.
    + apply (replace_runs_go_no_double not_lower_alnum underscore). reflexivity.
Qed.

Lemma sanitize_with_clean x : Clean (sanitize_with x).
Proof.
  rewrite sanitize_with_unfold. unfold strip_runs.
  set (R := replace_runs not_lower_alnum "_" (lower x)).
  assert (HR1 : all_chars is_name_char R = true).
  { apply (replace_runs_go_all not_lower_alnum underscore); [reflexivity|].
    intros c Hc. unfold is_name_char, not_lower_alnum in *.
    apply negb_false_iff in Hc. by rewrite Hc. }
  assert (HR2 : no_double is_underscore false R = true).
  { apply (no_double_mono not_lower_alnum).
    - intros c Hc. unfold not_lower_alnum.
      destruct (is_lower_alnum c) eqn:E; [|done].
      apply lower_alnum_not_underscore in E. congruence.
    - apply (replace_runs_go_no_double not_lower_alnum underscore). reflexivity. }
  split.
  - by apply drop_trailing_all, drop_leading_all.
  - apply drop_trailing_no_double. by apply (drop_leading_no_double _ _ false).
  - apply drop_trailing_first, drop_leading_first.
  - apply drop_trailing_last.
Qed.

Hypothesis lower_fixes : forall s, all_chars is_name_char s = true -> lower s = s.

Lemma sanitize_with_fixes s : Clean s -> sanitize_with s = s.
Proof.
  intros [H1 H2 H3 H4]. rewrite sanitize_with_unfold, (lower_fixes s H1).
  unfold replace_runs.
  rewrite (replace_runs_go_ext not_lower_alnum is_underscore is_name_char "_" false s
             name_char_cases H1).
  change "_" with (String underscore "").
  rewrite (replace_runs_go_id is_underscore underscore false s); [|apply is_underscore_true|exact H2].
  unfold strip_runs. rewrite (drop_leading_id _ _ H3). by apply drop_trailing_id.
Qed.

Lemma sanitize_with_idempotent x : sanitize_with (sanitize_with x) = sanitize_with x.
Proof. apply sanitize_with_fixes, sanitize_with_clean. Qed.

End AnyLowerCase.

Lemma sanitizeSegment_clean x : Clean (sanitizeSegment x).
Proof. apply (sanitize_with_clean toLowerCase). Qed.

Lemma sanitizeSegment_fixes s : Clean s -> sanitizeSegment s = s.
Proof.
  apply (sanitize_with_fixes toLowerCase). intros t Ht.
  apply (map_chars_id lower_char is_name_char t name_char_lower Ht).
Qed.

(** C8.  For every string [x], sanitizing is idempotent; the result
    consists of characters of [[a-z0-9_]] only, so that it holds no
    upper-case letter; it neither begins nor ends with an underscore and
    holds no two underscores in a row.  [sanitizeSegment] is a function of
    its argument defined on every string: exactly one result. *)
Theorem sanitizeSegment_idempotent_pattern (x : string) :
  sanitizeSegment (sanitizeSegment x) = sanitizeSegment x
  /\ all_chars is_name_char (sanitizeSegment x) = true
  /\ all_chars (fun c => negb (is_upper c)) (sanitizeSegment x) = true
  /\ (forall t, sanitizeSegment x <> "_" +:+ t)
  /\ (forall t, sanitizeSegment x <> t +:+ "_")
  /\ (forall u v, sanitizeSegment x <> u +:+ "__" +:+ v)
  /\ (exists y, sanitizeSegment x = y /\ forall y', sanitizeSegment x = y' -> y' = y).
Proof.
  pose proof (sanitizeSegment_clean x) as HC.
  destruct HC as [H1 H2 H3 H4].
  split; [apply sanitizeSegment_fixes; by split|].
  split; [exact H1|].
  split; [exact (all_chars_impl _ _ _ name_char_not_upper H1)|].
  split; [|split; [|split]].
  - intros t E. rewrite E in H3. discriminate.
  - intros t E. rewrite E in H4. change "_" with (String underscore "") in H4.
    rewrite (last_is_app is_underscore underscore t) in H4; [discriminate|reflexivity].
  - intros u v E. rewrite E in H2.
    change "__" with (String underscore (String underscore "")) in H2.
    rewrite (no_double_app is_underscore underscore u v false) in H2; [discriminate|reflexivity].
  - exists (sanitizeSegment x). split; [reflexivity|]. by intros y' <-.
Qed.

End SanitizeFacts.

(* ------------------------------------------------------------------ *)
(** ** Array.prototype.sort                                             *)
(* ------------------------------------------------------------------ *)

Module SortFacts.

Section Sorting.
Context {A : Type} (cmp : A -> A -> Z).

Definition le (a b : A) : Prop := (cmp a b <= 0)%Z.

Lemma insert_sorted_perm x l : insert_sorted cmp x l ≡ₚ x :: l.
Proof.
  induction l as [|y l IH]; simpl; [done|].
  destruct (cmp x y <=? 0)%Z; [done|].
  rewrite IH. apply Permutation_swap.
Qed.

Lemma sort_by_perm l : sort_by cmp l ≡ₚ l.
Proof.
  induction l as [|x l IH]; simpl; [done|].
  unfold sort_by in *. simpl. rewrite insert_sorted_perm. by rewrite IH.
Qed.

Lemma sort_by_elem x l : x ∈ sort_by cmp l <-> x ∈ l.
Proof. by rewrite sort_by_perm. Qed.

Lemma sort_by_Forall (P : A -> Prop) l : Forall P l -> Forall P (sort_by cmp l).
Proof. intros H. by rewrite sort_by_perm. Qed.

Hypothesis le_total : forall a b, le a b \/ le b a.
Hypothesis le_trans : forall a b c, le a b -> le b c -> le a c.

Lemma insert_sorted_sorted x l :
  StronglySorted le l -> StronglySorted le (insert_sorted cmp x l).
Proof.
  induction 1 as [|y l Hs IH Hy]; simpl.
  - repeat constructor.
  - destruct (cmp x y <=? 0)%Z eqn:E.
    + apply Z.leb_le in E. constructor; [by constructor|].
      constructor; [exact E|].
      eapply Forall_impl; [exact Hy|]. intros z Hz. by eapply le_trans.
    + apply Z.leb_gt in E. constructor; [exact IH|].
      rewrite insert_sorted_perm. constructor; [|exact Hy].
      destruct (le_total x y) as [H|H]; [unfold le in H; lia|exact H].
Qed.

Lemma sort_by_sorted l : StronglySorted le (sort_by cmp l).
Proof.
  induction l as [|x l IH]; [constructor|].
  unfold sort_by in *. simpl. by apply insert_sorted_sorted.
Qed.

End Sorting.

(** A sort on a key under a collation yields a sequence sorted on that key. *)
Lemma sort_by_key_sorted {A} (cmp : string -> string -> Z) (key : A -> string) (l : list A) :
  Collation cmp ->
  StronglySorted (fun a b => (cmp (key a) (key b) <= 0)%Z)
    (sort_by (fun a b => cmp (key a) (key b)) l).
Proof.
  intros [Ht Hr]. apply (sort_by_sorted (fun a b => cmp (key a) (key b))).
  - intros a b. apply Ht.
  - intros a b c. apply Hr.
Qed.

End SortFacts.

(* ------------------------------------------------------------------ *)
(** ** The tool registry                                                *)
(* ------------------------------------------------------------------ *)

Module NamingFacts.

Import Js StringFacts Naming.

Lemma assert_ok b c msg : assert b c msg = Ok tt -> b = true.
Proof. unfold assert. destruct b; [done|discriminate]. Qed.

Lemma assert_cases b c msg :
  (b = true /\ assert b c msg = Ok tt) \/ (b = false /\ assert b c msg = Throw (AppError c msg)).
Proof. destruct b; [left|right]; done. Qed.

Lemma validateToolName_ok input n :
  validateToolName input = Ok n -> n = input /\ TOOL_NAME_PATTERN input = true.
Proof.
  unfold validateToolName.
  destruct (assert_cases (0 <? String.length input)%nat E_ARGS "Tool name cannot be empty.")
    as [[_ ->]|[_ ->]]; simpl; [|discriminate].
  destruct (assert_cases (TOOL_NAME_PATTERN input) E_ARGS "Tool name must match /^[a-z0-9_]+$/")
    as [[Hp ->]|[_ ->]]; simpl; [|discriminate].
  intros [= <-]. done.
Qed.

Lemma buildToolName_ok prefix rel n :
  buildToolNameFromRelativePath prefix rel = Ok n ->
  n = prefix +:+ "_" +:+ join "_" (path_segments rel) /\ TOOL_NAME_PATTERN n = true.
Proof.
  unfold buildToolNameFromRelativePath.
  destruct (assert_segments rel (path_segments rel)) as [e|[]]; simpl; [discriminate|].
  intros H. apply validateToolName_ok in H as [-> H]. done.
Qed.

(** What every entry of a registry satisfies. *)
Definition keyed_by_name (e : string * ToolTarget) : Prop :=
  e.1 = toolName e.2 /\ TOOL_NAME_PATTERN (toolName e.2) = true.

Definition prefixed (prefix : string) (e : string * ToolTarget) : Prop :=
  exists rest, toolName e.2 = prefix +:+ "_" +:+ rest.

Lemma collect_invariant h root prefix (P : string * ToolTarget -> Prop) files :
  (forall n t, toolName t = n -> TOOL_NAME_PATTERN n = true ->
               (exists rest, n = prefix +:+ "_" +:+ rest) -> P (n, t)) ->
  forall m m', Forall P m -> collect h root prefix m files = Ok m' -> Forall P m'.
Proof.
  intros HP. induction files as [|f files IH]; intros m m' Hm; simpl.
  - by intros [= <-].
  - destruct (escapes _); [discriminate|].
    destruct (decide _) as [Hmeta|Hmeta]; [by apply IH|].
    destruct (buildToolNameFromRelativePath prefix _) as [e|n] eqn:En; simpl; [discriminate|].
    destruct (map_has m n); [discriminate|].
    destruct (read_vars_and_docs h f) as [e|vd]; simpl; [discriminate|].
    apply IH. apply Forall_app. split; [exact Hm|].
    constructor; [|constructor].
    apply buildToolName_ok in En as [En Hn].
    apply HP; [reflexivity|exact Hn|]. eexists. exact En.
Qed.

(** C10.  A registry returned by either constructor maps every key to a
    target whose [toolName] is that key, every such name matches
    [/^[a-z0-9_]+$/], and in collection mode every name is the supplied
    prefix, an underscore and a remainder. *)
Theorem registry_keys_are_valid_names (h : Host) (bruFileAbs root prefix : string)
  (nameOverride : option string) (files : list string) (m : ToolMap)
  (k : string) (t : ToolTarget) :
  In (k, t) m ->
  (buildSingleToolMap h bruFileAbs root prefix nameOverride = Ok m ->
     k = toolName t /\ TOOL_NAME_PATTERN (toolName t) = true)
  /\ (buildCollectionToolMap h files root prefix = Ok m ->
     k = toolName t /\ TOOL_NAME_PATTERN (toolName t) = true
     /\ exists rest, toolName t = prefix +:+ "_" +:+ rest).
Proof.
  intros Hin. split.
  - unfold buildSingleToolMap.
    destruct (assert _ E_NAMING _) as [e|[]]; simpl; [discriminate|].
    set (name := match nameOverride with
                 | Some n0 => if truthy n0 then validateToolName n0 else _
                 | None => _ end).
    destruct name as [e|n] eqn:En; simpl; [discriminate|].
    destruct (read_vars_and_docs h bruFileAbs) as [e|vd]; simpl; [discriminate|].
    destruct (escapes _); [discriminate|].
    intros [= <-]. destruct Hin as [[= <- <-]|[]]. simpl. split; [done|].
    subst name. destruct nameOverride as [n0|]; [destruct (truthy n0)|];
      apply validateToolName_ok in En as [-> Hp]; exact Hp.
  - unfold buildCollectionToolMap.
    destruct (collect h root prefix [] files) as [e|m0] eqn:Ec; simpl; [discriminate|].
    intros [= <-].
    assert (Forall (fun e => keyed_by_name e /\ prefixed prefix e) m0) as HF.
    { eapply (collect_invariant h root prefix); [|constructor|exact Ec].
      intros n t' <- Hp Hrest. split; [split|]; done. }
    apply (SortFacts.sort_by_Forall (fun a b => localeCompare h a.1 b.1)) in HF.
    rewrite Forall_forall in HF. apply list_elem_of_In in Hin.
    destruct (HF _ Hin) as [[H1 H2] H3]. done.
Qed.

(** *** Collisions *)

(** The identifier a listed file yields: none for a file outside the root,
    for the collection metadata file, or for a path that has no valid name. *)
Definition yields (h : Host) (root prefix file : string) : option string :=
  let rel := Path.relative (cwd h) root file in
  if escapes rel then None
  else if decide (toLowerCase (Path.basename rel) = "collection.bru") then None
  else match buildToolNameFromRelativePath prefix rel with
       | inr n => Some n
       | inl _ => None
       end.

(** A file that no check of the loop rejects on its own: it lies below the
    root and is either the metadata file or has a valid name and can be
    read. *)
Definition passes (h : Host) (root prefix file : string) : bool :=
  let rel := Path.relative (cwd h) root file in
  negb (escapes rel)
  && ((if decide (toLowerCase (Path.basename rel) = "collection.bru") then true else false)
      || (is_ok (buildToolNameFromRelativePath prefix rel)
          && is_ok (read_vars_and_docs h file))).

Lemma map_has_app m1 m2 k : map_has (m1 ++ m2) k = map_has m1 k || map_has m2 k.
Proof. unfold map_has. apply existsb_app. Qed.

(** The error that the checks of the loop raise for a file whatever the
    registry holds: the file lies outside the root; or it is not the
    metadata file and has no valid name; or it is not the metadata file
    and cannot be read. *)
Definition own_error (h : Host) (root prefix file : string) : option Error :=
  let rel := Path.relative (cwd h) root file in
  if escapes rel then Some (traversal_blocked file)
  else if decide (toLowerCase (Path.basename rel) = "collection.bru") then None
  else match buildToolNameFromRelativePath prefix rel with
       | inl e => Some e
       | inr _ => match read_vars_and_docs h file with
                  | inl e => Some e
                  | inr _ => None
                  end
       end.

(** One of the files of [before] yields the identifier [n]. *)
Definition taken (h : Host) (root prefix : string) (before : list string) (n : string) : bool :=
  existsb (fun f => if decide (yields h root prefix f = Some n) then true else false) before.

(** What the loop raises at a file that comes after the files of
    [before], none of which it has failed at: the collision error when
    the file yields an identifier that one of them has yielded (the
    registry is looked up before the file is read), and otherwise the
    error the file has on its own, if any. *)
Definition verdict (h : Host) (root prefix : string) (before : list string) (file : string)
  : option Error :=
  match yields h root prefix file with
  | Some n =>
      if taken h root prefix before n then Some (name_collision n)
      else own_error h root prefix file
  | None => own_error h root prefix file
  end.

Lemma passes_own_error h root prefix file :
  passes h root prefix file = true <-> own_error h root prefix file = None.
Proof.
  unfold passes, own_error.
  destruct (escapes _); simpl; [split; discriminate|].
  destruct (decide _) as [Hmeta|Hmeta]; simpl; [done|].
  destruct (buildToolNameFromRelativePath prefix _) as [e|n]; simpl; [split; discriminate|].
  destruct (read_vars_and_docs h file) as [e|vd]; simpl; [split; discriminate|done].
Qed.

Lemma taken_app h root prefix before f n :
  taken h root prefix (before ++ [f]) n
  = taken h root prefix before n
    || (if decide (yields h root prefix f = Some n) then true else false).
Proof. unfold taken. rewrite existsb_app. simpl. by rewrite orb_false_r. Qed.

Lemma taken_elem h root prefix before f n :
  f ∈ before -> yields h root prefix f = Some n -> taken h root prefix before n = true.
Proof.
  intros Hin Hy. unfold taken. apply existsb_exists. exists f.
  split; [by apply list_elem_of_In|]. by rewrite decide_True.
Qed.

(** One iteration of the loop, the registry holding the identifiers of
    the files of [before]: it throws the verdict on the file, or goes on
    with a registry that holds the identifier of this file as well. *)
Lemma collect_step h root prefix m before f rest :
  (forall n, map_has m n = taken h root prefix before n) ->
  (exists e, verdict h root prefix before f = Some e
             /\ collect h root prefix m (f :: rest) = Throw e)
  \/ (verdict h root prefix before f = None
      /\ exists m', collect h root prefix m (f :: rest) = collect h root prefix m' rest
                    /\ forall n, map_has m' n = taken h root prefix (before ++ [f]) n).
Proof.
  intros Hinv.
  assert (forall y n, yields h root prefix f = y ->
            taken h root prefix (before ++ [f]) n
            = taken h root prefix before n
              || match y with Some n0 => if decide (n0 = n) then true else false
                              | None => false end) as Htaken.
  { intros y n <-. rewrite taken_app. f_equal.
    destruct (yields h root prefix f) as [n0|]; [|by rewrite decide_False].
    destruct (decide (n0 = n)) as [->|Hne]; [by rewrite decide_True|].
    rewrite decide_False; [done|]. by intros [= <-]. }
  revert Htaken. unfold verdict, yields, own_error. simpl.
  destruct (escapes _); [intros _; left; by eexists|].
  destruct (decide _) as [Hmeta|Hmeta].
  { intros Htaken. right. split; [done|]. exists m. split; [done|]. intros n.
    rewrite (Htaken None n eq_refl), Hinv. by rewrite orb_false_r. }
  destruct (buildToolNameFromRelativePath prefix _) as [e|n] eqn:En; simpl;
    [intros _; left; by eexists|].
  intros Htaken.
  rewrite <- Hinv. destruct (map_has m n) eqn:Hhas; [left; by eexists|].
  destruct (read_vars_and_docs h f) as [e|vd]; simpl; [left; by eexists|].
  right. split; [done|]. eexists. split; [reflexivity|]. intros n'.
  rewrite map_has_app, (Htaken (Some n) n' eq_refl), Hinv. f_equal.
  simpl. by rewrite orb_false_r.
Qed.

(** The loop throws the verdict on the first file that has one, and
    returns when no file has one. *)
Lemma collect_first h root prefix files : forall before m,
  (forall n, map_has m n = taken h root prefix before n) ->
  match collect h root prefix m files with
  | inl e =>
      exists k fk,
        files !! k = Some fk
        /\ verdict h root prefix (before ++ take k files) fk = Some e
        /\ forall k' fk', (k' < k)%nat -> files !! k' = Some fk' ->
                          verdict h root prefix (before ++ take k' files) fk' = None
  | inr _ =>
      forall k fk, files !! k = Some fk ->
                   verdict h root prefix (before ++ take k files) fk = None
  end.
Proof.
  induction files as [|f files IH]; intros before m Hinv.
  - simpl. intros k fk Hk. done.
  - destruct (collect_step h root prefix m before f files Hinv)
      as [(e & Hv & ->)|(Hv & m' & -> & Hinv')].
    + exists 0%nat, f. split; [done|]. split.
      * simpl. by rewrite List.app_nil_r.
      * intros k' fk' Hlt. lia.
    + specialize (IH (before ++ [f]) m' Hinv').
      destruct (collect h root prefix m' files) as [e|m''].
      * destruct IH as (k & fk & Hk & Hvk & Hmin). exists (S k), fk.
        split; [done|]. split.
        -- simpl. by rewrite cons_middle, List.app_assoc.
        -- intros [|k'] fk' Hlt Hk'; simpl in *.
           ++ injection Hk' as <-. by rewrite List.app_nil_r.
           ++ rewrite cons_middle, List.app_assoc. apply Hmin; [lia|done].
      * intros [|k] fk Hk; simpl in *.
        -- injection Hk as <-. by rewrite List.app_nil_r.
        -- rewrite cons_middle, List.app_assoc. by apply IH.
Qed.

(** C3, as amended.  When two entries of the file list yield the same
    identifier, buildCollectionToolMap returns no registry: the two files
    are never merged into one tool and neither is renamed.  The error is
    the one raised at the first file of the list that has a verdict,
    which is the second of the two or a file listed before it: the
    collision error when that file yields an identifier that a file
    listed before it has yielded, and otherwise the error of the check
    the file fails on its own (outside the root, no valid name, or
    unreadable).  In particular it is a collision error whenever every
    file listed before the second of the two passes the checks of the
    loop on its own. *)
Theorem colliding_names_are_fatal (h : Host) (files : list string) (root prefix : string)
  (i j : nat) (fi fj n : string) :
  (i < j)%nat -> files !! i = Some fi -> files !! j = Some fj ->
  yields h root prefix fi = Some n -> yields h root prefix fj = Some n ->
  exists k fk e,
    (k <= j)%nat /\ files !! k = Some fk
    /\ buildCollectionToolMap h files root prefix = Throw e
    /\ verdict h root prefix (take k files) fk = Some e
    /\ (forall k' fk', (k' < k)%nat -> files !! k' = Some fk' ->
                       verdict h root prefix (take k' files) fk' = None)
    /\ (Forall (fun f => passes h root prefix f = true) (take j files) ->
        exists n', e = name_collision n').
Proof.
  intros Hij Hi Hj Hyi Hyj.
  assert (verdict h root prefix (take j files) fj = Some (name_collision n)) as Hvj.
  { unfold verdict. rewrite Hyj. rewrite (taken_elem h root prefix _ fi n); [done| |done].
    apply list_elem_of_lookup. exists i. by rewrite lookup_take_lt. }
  pose proof (collect_first h root prefix files [] []) as Hfirst. simpl in Hfirst.
  specialize (Hfirst (fun _ => eq_refl)). unfold buildCollectionToolMap.
  destruct (collect h root prefix [] files) as [e|m].
  - destruct Hfirst as (k & fk & Hk & Hvk & Hmin).
    assert (k <= j)%nat as Hkj.
    { destruct (decide (k <= j)%nat) as [|Hgt]; [done|].
      rewrite (Hmin j fj) in Hvj; [discriminate|lia|done]. }
    exists k, fk, e. split; [done|]. split; [done|]. split; [done|].
    split; [done|]. split; [done|]. intros Hpass.
    destruct (decide (k = j)) as [->|Hne].
    + rewrite Hj in Hk. injection Hk as <-. rewrite Hvj in Hvk. injection Hvk as <-.
      by eexists.
    + assert (own_error h root prefix fk = None) as Hown.
      { apply passes_own_error. rewrite Forall_forall in Hpass. apply Hpass.
        apply list_elem_of_lookup. exists k. rewrite lookup_take_lt; [done|lia]. }
      unfold verdict in Hvk. rewrite Hown in Hvk.
      destruct (yields h root prefix fk) as [nk|]; [|discriminate].
      destruct (taken h root prefix (take k files) nk); [|discriminate].
      injection Hvk as <-. by eexists.
  - rewrite (Hfirst j fj Hj) in Hvj. discriminate.
Qed.

End NamingFacts.

(* ------------------------------------------------------------------ *)
(** ** The runner: preconditions and variables                          *)
(* ------------------------------------------------------------------ *)

Module RunnerFacts.

Import Js StringFacts Naming Runner.

Lemma is_nonempty_elem {A} (l : list A) x : x ∈ l -> is_nonempty l = true.
Proof. destruct l; [intros H; by apply elem_of_nil in H|done]. Qed.

Lemma missing_vars_spec target options v :
  v ∈ missing_vars target options <->
  v ∈ templateVars target /\ v ∉ provided_vars options.
Proof. unfold missing_vars. rewrite list_elem_of_filter. tauto. Qed.

(** C2.  A target that requires an environment, called with no
    environment name (none, or the empty string, which the source treats
    alike) and with a variable map that lacks one of its template
    variables, fails with the environment-required error; the message
    lists exactly the missing names; and the call has no effect on the
    world: no temporary directory, no subprocess. *)
Theorem env_required_before_any_effect (w : World) (target : ToolTarget)
  (options : RunnerOptions) (name : string) :
  requiresEnv target = true ->
  no_env options = true ->
  name ∈ templateVars target ->
  name ∉ provided_vars options ->
  runBrunoTool w target options =
    ([], Some (Throw (AppError E_ENV_REQUIRED
       ("Request " +:+ toolName target +:+ " references template variables ("
        +:+ join ", " (missing_vars target options)
        +:+ "). Provide --env <name> or pass all missing values via vars."))))
  /\ name ∈ missing_vars target options
  /\ (forall v, v ∈ missing_vars target options <->
                v ∈ templateVars target /\ v ∉ provided_vars options).
Proof.
  intros Hreq Henv Hin Hnot.
  assert (name ∈ missing_vars target options) as Hm by (by apply missing_vars_spec).
  split; [|split; [exact Hm|apply missing_vars_spec]].
  unfold runBrunoTool. rewrite Hreq, Henv. simpl.
  by rewrite (is_nonempty_elem _ _ Hm).
Qed.

(** *** buildVarsPassThrough *)

(** The name under which a key reaches the environment of the child. *)
Definition env_key (key : string) : string := "MCP_VAR_" +:+ sanitizeEnvVarName key.

(** The three assertions on a key. *)
Definition key_ok (key : string) : bool :=
  (0 <? String.length key)%nat
  && negb (includes_char "=" key)
  && (0 <? String.length (sanitizeEnvVarName key))%nat.

Definition override_args (e : string * string) : list string :=
  ["--env-var"; e.1 +:+ "=" +:+ e.2].

Definition collision (key : string) : Error :=
  AppError E_VARS ("Vars key collision after normalization: " +:+ key).

Lemma vars_loop_cases em seen args k v rest :
  (key_ok k = false /\ exists msg, vars_loop em seen args ((k, v) :: rest) = Throw (AppError E_VARS msg))
  \/ (key_ok k = true /\ env_key k ∈ seen
      /\ vars_loop em seen args ((k, v) :: rest) = Throw (collision k))
  \/ (key_ok k = true /\ (env_key k ∉ seen)
      /\ vars_loop em seen args ((k, v) :: rest) =
         vars_loop (<[env_key k := v]> em) ({[env_key k]} ∪ seen)
           (args ++ override_args (k, v)) rest).
Proof.
  unfold key_ok. simpl.
  destruct (0 <? String.length k)%nat; simpl; [|left; split; [done|by eexists]].
  destruct (includes_char "=" k); simpl; [left; split; [done|by eexists]|].
  destruct (0 <? String.length (sanitizeEnvVarName k))%nat; simpl;
    [|left; split; [done|by eexists]].
  right. fold (env_key k). destruct (decide (env_key k ∈ seen)); [left|right]; done.
Qed.

Lemma vars_loop_throws entries : forall em seen args e,
  vars_loop em seen args entries = Throw e -> exists msg, e = AppError E_VARS msg.
Proof.
  induction entries as [|[k v] rest IH]; intros em seen args e; [discriminate|].
  destruct (vars_loop_cases em seen args k v rest)
    as [[_ [msg ->]]|[(_ & _ & ->)|(_ & _ & ->)]].
  - intros [= <-]. by eexists.
  - intros [= <-]. by eexists.
  - apply IH.
Qed.

Lemma vars_loop_ok entries : forall em seen args pt,
  vars_loop em seen args entries = Ok pt ->
  envVarArgs pt = args ++ flat_map override_args entries
  /\ Forall (fun e => key_ok e.1 = true) entries
  /\ NoDup (map (fun e => env_key e.1) entries)
  /\ (forall e, e ∈ entries -> env_key e.1 ∉ seen)
  /\ (forall e, e ∈ entries -> envMap pt !! env_key e.1 = Some e.2)
  /\ (forall key v, key ∈ seen -> em !! key = Some v -> envMap pt !! key = Some v).
Proof.
  induction entries as [|[k v] rest IH]; intros em seen args pt.
  - simpl. intros [= <-]. simpl. rewrite List.app_nil_r.
    repeat split; try done; try constructor.
    + intros e He. by apply elem_of_nil in He.
    + intros e He. by apply elem_of_nil in He.
  - destruct (vars_loop_cases em seen args k v rest)
      as [[_ [msg ->]]|[(_ & _ & ->)|(Hk & Hs & ->)]]; [discriminate..|].
    intros Hrec. destruct (IH _ _ _ _ Hrec) as (Ha & Hf & Hn & Hfresh & Hget & Hold).
    assert (forall e, e ∈ rest -> env_key e.1 <> env_key k) as Hne.
    { intros e He Heq. apply (Hfresh e He). rewrite Heq.
      apply elem_of_union. left. by apply elem_of_singleton. }
    split; [|split; [|split; [|split; [|split]]]].
    + rewrite Ha. simpl. by rewrite <- List.app_assoc.
    + by constructor.
    + simpl. constructor; [|exact Hn].
      intros Hin. apply list_elem_of_In in Hin. apply in_map_iff in Hin as (e & Heq & He).
      apply (Hne e); [by apply list_elem_of_In|exact Heq].
    + intros e He. apply elem_of_cons in He as [->|He]; [exact Hs|].
      intros Hin. apply (Hfresh e He). apply elem_of_union. by right.
    + intros e He. apply elem_of_cons in He as [->|He]; [|by apply Hget].
      simpl. apply Hold; [|apply lookup_insert_eq].
      apply elem_of_union. left. by apply elem_of_singleton.
    + intros key v0 Hkey Hv0. apply Hold; [apply elem_of_union; by right|].
      rewrite lookup_insert_ne; [exact Hv0|]. intros <-. done.
Qed.

Lemma vars_loop_seen entries : forall em seen args j k2 v2,
  entries !! j = Some (k2, v2) -> env_key k2 ∈ seen ->
  Forall (fun e => key_ok e.1 = true) (take (S j) entries) ->
  exists k, vars_loop em seen args entries = Throw (collision k).
Proof.
  induction entries as [|[k v] rest IH]; intros em seen args j k2 v2 Hj Hs Hf; [done|].
  rewrite firstn_cons in Hf. apply Forall_cons in Hf as [Hk Hf]. simpl in Hk.
  destruct (vars_loop_cases em seen args k v rest)
    as [[Hbad _]|[(_ & _ & ->)|(_ & Hfresh & ->)]]; [congruence|by eexists|].
  destruct j as [|j]; simpl in Hj.
  - injection Hj as -> ->. done.
  - eapply IH; [exact Hj|apply elem_of_union; by right|exact Hf].
Qed.

Lemma vars_loop_collision entries : forall em seen args i j k1 v1 k2 v2,
  (i < j)%nat -> entries !! i = Some (k1, v1) -> entries !! j = Some (k2, v2) ->
  sanitizeEnvVarName k1 = sanitizeEnvVarName k2 ->
  Forall (fun e => key_ok e.1 = true) (take (S j) entries) ->
  exists k, vars_loop em seen args entries = Throw (collision k).
Proof.
  induction entries as [|[k v] rest IH]; intros em seen args i j k1 v1 k2 v2 Hij Hi Hj Hsame Hf;
    [done|].
  destruct j as [|j]; [lia|].
  pose proof Hf as Hf'. rewrite firstn_cons in Hf'. apply Forall_cons in Hf' as [Hk Hrest].
  simpl in Hk, Hj.
  destruct (vars_loop_cases em seen args k v rest)
    as [[Hbad _]|[(_ & _ & ->)|(_ & Hfresh & ->)]]; [congruence|by eexists|].
  destruct i as [|i]; simpl in Hi.
  - injection Hi as -> ->.
    eapply vars_loop_seen; [exact Hj| |exact Hrest].
    unfold env_key. rewrite <- Hsame. apply elem_of_union. left. by apply elem_of_singleton.
  - eapply (IH _ _ _ i j); [lia|exact Hi|exact Hj|exact Hsame|exact Hrest].
Qed.

(** The error of the first of the three assertions that a key fails. *)
Definition key_error (key : string) : option Error :=
  if negb (0 <? String.length key)%nat then
    Some (AppError E_VARS "Vars key cannot be empty.")
  else if includes_char "=" key then
    Some (AppError E_VARS ("Invalid vars key (must not include '='): " +:+ key))
  else if negb (0 <? String.length (sanitizeEnvVarName key))%nat then
    Some (AppError E_VARS ("Invalid vars key: " +:+ key))
  else None.

(** What the loop raises at a key that comes after the entries of
    [before], none of which it has failed at: the error of the assertion
    the key fails, and otherwise the collision error when a key of
    [before] has the same name in the environment. *)
Definition key_verdict (before : list (string * string)) (key : string) : option Error :=
  match key_error key with
  | Some e => Some e
  | None =>
      if decide (env_key key ∈ map (fun e => env_key e.1) before) then Some (collision key)
      else None
  end.

Lemma key_ok_error key : key_ok key = true <-> key_error key = None.
Proof.
  unfold key_ok, key_error.
  destruct (0 <? String.length key)%nat; simpl; [|split; discriminate].
  destruct (includes_char "=" key); simpl; [split; discriminate|].
  destruct (0 <? String.length (sanitizeEnvVarName key))%nat; simpl; [done|split; discriminate].
Qed.

(** One iteration of the loop, [seen] holding the names of the entries of
    [before]. *)
Lemma vars_loop_step em seen args before k v rest :
  (forall x, x ∈ seen <-> x ∈ map (fun e => env_key e.1) before) ->
  (exists e, key_verdict before k = Some e
             /\ vars_loop em seen args ((k, v) :: rest) = Throw e)
  \/ (key_verdict before k = None
      /\ exists em' seen' args',
           vars_loop em seen args ((k, v) :: rest) = vars_loop em' seen' args' rest
           /\ forall x, x ∈ seen' <-> x ∈ map (fun e => env_key e.1) (before ++ [(k, v)])).
Proof.
  intros Hinv. unfold key_verdict, key_error. simpl.
  destruct (0 <? String.length k)%nat; simpl; [|left; by eexists].
  destruct (includes_char "=" k); simpl; [left; by eexists|].
  destruct (0 <? String.length (sanitizeEnvVarName k))%nat; simpl; [|left; by eexists].
  fold (env_key k).
  destruct (decide (env_key k ∈ seen)) as [Hin|Hout].
  - left. rewrite decide_True by (by apply Hinv). by eexists.
  - right. rewrite decide_False by (intros H; by apply Hout, Hinv).
    split; [done|]. do 3 eexists. split; [reflexivity|]. intros x.
    rewrite map_app, elem_of_app, elem_of_union, elem_of_singleton, Hinv. simpl.
    rewrite list_elem_of_singleton. tauto.
Qed.

(** The loop throws the verdict on the first key that has one, and
    returns when no key has one. *)
Lemma vars_loop_first entries : forall em seen args before,
  (forall x, x ∈ seen <-> x ∈ map (fun e => env_key e.1) before) ->
  match vars_loop em seen args entries with
  | inl e =>
      exists k key value,
        entries !! k = Some (key, value)
        /\ key_verdict (before ++ take k entries) key = Some e
        /\ forall k' key' value', (k' < k)%nat -> entries !! k' = Some (key', value') ->
                                  key_verdict (before ++ take k' entries) key' = None
  | inr _ =>
      forall k key value, entries !! k = Some (key, value) ->
                          key_verdict (before ++ take k entries) key = None
  end.
Proof.
  induction entries as [|[k0 v0] entries IH]; intros em seen args before Hinv.
  - simpl. intros k key value Hk. done.
  - destruct (vars_loop_step em seen args before k0 v0 entries Hinv)
      as [(e & Hv & ->)|(Hv & em' & seen' & args' & -> & Hinv')].
    + exists 0%nat, k0, v0. split; [done|]. split.
      * simpl. by rewrite List.app_nil_r.
      * intros k' key' value' Hlt. lia.
    + specialize (IH em' seen' args' (before ++ [(k0, v0)]) Hinv').
      destruct (vars_loop em' seen' args' entries) as [e|pt].
      * destruct IH as (k & key & value & Hk & Hvk & Hmin). exists (S k), key, value.
        split; [done|]. split.
        -- simpl. by rewrite cons_middle, List.app_assoc.
        -- intros [|k'] key' value' Hlt Hk'; simpl in *.
           ++ injection Hk' as <- <-. by rewrite List.app_nil_r.
           ++ rewrite cons_middle, List.app_assoc. eapply Hmin; [lia|done].
      * intros [|k] key value Hk; simpl in *.
        -- injection Hk as <- <-. by rewrite List.app_nil_r.
        -- rewrite cons_middle, List.app_assoc. by eapply IH.
Qed.

Lemma key_verdict_code before key e :
  key_verdict before key = Some e -> exists msg, e = AppError E_VARS msg.
Proof.
  unfold key_verdict, key_error.
  destruct (negb _); [intros [= <-]; by eexists|].
  destruct (includes_char "=" key); [intros [= <-]; by eexists|].
  destruct (negb _); [intros [= <-]; by eexists|].
  destruct (decide _); [intros [= <-]; by eexists|discriminate].
Qed.

(** The effects of the callbacks never include a spawn. *)
Definition not_spawn (eff : Effect) : Prop :=
  match eff with Spawn _ _ _ _ => False | _ => True end.

Lemma child_step_not_spawn st ev :
  Forall not_spawn (st_effects st) -> Forall not_spawn (st_effects (child_step st ev)).
Proof.
  intros H. destruct ev as [chunk|msg|[|]|c]; simpl; try done.
  - destruct (st_timeoutArmed st); [|done]. simpl.
    apply Forall_app. split; [done|]. repeat constructor.
  - destruct (st_graceArmed st); [|done]. simpl.
    apply Forall_app. split; [done|]. repeat constructor.
  - apply Forall_app. split; [done|]. repeat constructor.
Qed.

Lemma run_child_not_spawn events : Forall not_spawn (st_effects (run_child events)).
Proof.
  unfold run_child.
  assert (forall st, Forall not_spawn (st_effects st) ->
                     Forall not_spawn (st_effects (foldl child_step st events))) as H.
  { induction events as [|ev events IH]; intros st Hst; simpl; [done|].
    apply IH. by apply child_step_not_spawn. }
  apply H. constructor.
Qed.

Lemma after_child_not_spawn w options reportPath runResult :
  Forall not_spawn (after_child w options reportPath runResult).1.
Proof.
  unfold after_child. destruct (timedOut runResult); [constructor|].
  destruct (negb _); [constructor|]. simpl. repeat constructor.
Qed.

(** The subprocess a call spawns, if any: its arguments and environment. *)
Lemma runBrunoTool_spawn w target options cmd args dir env :
  In (Spawn cmd args dir env) (runBrunoTool w target options).1 ->
  exists pt tmpDir,
    buildVarsPassThrough (vars options) = Ok pt
    /\ mkdtemp w (Path.join (os_tmpdir w) "bruno-mcp-") = inr tmpDir
    /\ cmd = "bru" /\ dir = collectionRootAbs target
    /\ env = envMap pt ∪ process_env w
    /\ args = ["run"; requestPathNoExt target +:+ ".bru"]
              ++ (if no_env options then [] else ["--env"; default "" (envName options)])
              ++ envVarArgs pt
              ++ ["--output"; Path.join tmpDir (randomUUID w +:+ ".json"); "--format"; "json"].
Proof.
  unfold runBrunoTool.
  destruct (is_nonempty _); [intros []|].
  destruct (mkdtemp w _) as [msg|tmpDir] eqn:Em; [simpl; intros [H|[]]; discriminate|].
  destruct (buildVarsPassThrough (vars options)) as [e|pt] eqn:Ev;
    [simpl; intros [H|[]]; discriminate|].
  intros Hin.
  assert (In (Spawn cmd args dir env)
            ([Mkdtemp (Path.join (os_tmpdir w) "bruno-mcp-");
              Spawn "bru"
                (["run"; requestPathNoExt target +:+ ".bru"]
                 ++ (if no_env options then [] else ["--env"; default "" (envName options)])
                 ++ envVarArgs pt
                 ++ ["--output"; Path.join tmpDir (randomUUID w +:+ ".json"); "--format"; "json"])
                (collectionRootAbs target) (envMap pt ∪ process_env w);
              SetTimeout TimeoutTimer (timeoutMs options)])
          \/ exists eff, In eff [Spawn cmd args dir env] /\ not_spawn eff) as [H|(eff & [<-|[]] & [])].
  { pose proof (run_child_not_spawn (child_events w)) as Hc.
    destruct (st_settled (run_child (child_events w))) as [[e|runResult]|].
    - simpl in Hin. destruct Hin as [H|[H|[H|Hin]]]; [left; simpl; tauto..|].
      right. exists (Spawn cmd args dir env). split; [by left|].
      rewrite Forall_forall in Hc. apply Hc. by apply list_elem_of_In.
    - pose proof (after_child_not_spawn w options
                    (Path.join tmpDir (randomUUID w +:+ ".json")) runResult) as Ha.
      destruct (after_child w options _ runResult) as [more outcome]. simpl in *.
      destruct Hin as [H|[H|[H|Hin]]]; [left; simpl; tauto..|].
      right. exists (Spawn cmd args dir env). split; [by left|].
      apply in_app_or in Hin as [Hin|Hin].
      + rewrite Forall_forall in Hc. apply Hc. by apply list_elem_of_In.
      + rewrite Forall_forall in Ha. apply Ha. by apply list_elem_of_In.
    - simpl in Hin. destruct Hin as [H|[H|[H|Hin]]]; [left; simpl; tauto..|].
      right. exists (Spawn cmd args dir env). split; [by left|].
      rewrite Forall_forall in Hc. apply Hc. by apply list_elem_of_In. }
  destruct H as [H|[H|[H|[]]]]; [discriminate| |discriminate].
  injection H as <- <- <- <-. exists pt, tmpDir. done.
Qed.

Lemma flat_map_elem_split {A B} (f : A -> list B) (l : list A) (x : A) :
  x ∈ l -> exists before after, flat_map f l = before ++ f x ++ after.
Proof.
  intros Hin. apply list_elem_of_split in Hin as (l1 & l2 & ->).
  exists (flat_map f l1), (flat_map f l2). by rewrite flat_map_app.
Qed.

Lemma runBrunoTool_fails_with_vars w target options e :
  buildVarsPassThrough (vars options) = Throw e ->
  (exists e', (runBrunoTool w target options).2 = Some (Throw e'))
  /\ forall cmd args dir env, ~ In (Spawn cmd args dir env) (runBrunoTool w target options).1.
Proof.
  intros Hv. split.
  - unfold runBrunoTool. destruct (is_nonempty _); [by eexists|].
    destruct (mkdtemp w _); [by eexists|]. rewrite Hv. by eexists.
  - intros cmd args dir env Hin.
    apply runBrunoTool_spawn in Hin as (pt & tmpDir & Hok & _). rewrite Hv in Hok. discriminate.
Qed.

(** C9, as amended.  For the entries of a supplied variable map:
    a key that is empty or contains [=] makes the call fail, and so does a
    key whose sanitized form is empty; when the variables are accepted,
    every one of them reaches the subprocess as the pair of arguments
    [--env-var key=value] and as the environment variable [MCP_VAR_]
    followed by the upper-cased sanitized key; and two entries whose keys
    sanitize to the same name make the call fail.  The error is then the
    one raised at the first entry that has a verdict, which is the second
    of the two or an entry before it: the error of the first assertion its
    key fails, and otherwise, its name in the environment being that of
    an earlier key, the collision error for its key.  In particular it is
    a collision error whenever every key up to the second of the two
    passes the three assertions on a key. *)
Theorem vars_reach_the_subprocess_or_fail (w : World) (target : ToolTarget)
  (options : RunnerOptions) (entries : list (string * string)) :
  vars options = Some entries ->
  (forall e, e ∈ entries ->
     e.1 = "" \/ includes_char "=" e.1 = true \/ sanitizeEnvVarName e.1 = "" ->
     (exists msg, buildVarsPassThrough (Some entries) = Throw (AppError E_VARS msg))
     /\ (exists e', (runBrunoTool w target options).2 = Some (Throw e')))
  /\ (forall pt, buildVarsPassThrough (Some entries) = Ok pt ->
       envVarArgs pt = flat_map override_args entries
       /\ forall e, e ∈ entries -> envMap pt !! ("MCP_VAR_" +:+ sanitizeEnvVarName e.1) = Some e.2)
  /\ (forall cmd args dir env,
       In (Spawn cmd args dir env) (runBrunoTool w target options).1 ->
       forall e, e ∈ entries ->
         env !! ("MCP_VAR_" +:+ sanitizeEnvVarName e.1) = Some e.2
         /\ exists before after,
              args = before ++ ["--env-var"; e.1 +:+ "=" +:+ e.2] ++ after)
  /\ (forall i j k1 v1 k2 v2,
       (i < j)%nat -> entries !! i = Some (k1, v1) -> entries !! j = Some (k2, v2) ->
       sanitizeEnvVarName k1 = sanitizeEnvVarName k2 ->
       (exists msg, buildVarsPassThrough (Some entries) = Throw (AppError E_VARS msg))
       /\ (exists e', (runBrunoTool w target options).2 = Some (Throw e'))
       /\ (Forall (fun e => key_ok e.1 = true) (take (S j) entries) ->
           exists k, buildVarsPassThrough (Some entries) =
                     Throw (AppError E_VARS ("Vars key collision after normalization: " +:+ k)))
       /\ exists k key value e,
            (k <= j)%nat /\ entries !! k = Some (key, value)
            /\ buildVarsPassThrough (Some entries) = Throw e
            /\ key_verdict (take k entries) key = Some e
            /\ forall k' key' value', (k' < k)%nat -> entries !! k' = Some (key', value') ->
                                      key_verdict (take k' entries) key' = None).
Proof.
  intros Hvars.
  assert (forall e, buildVarsPassThrough (Some entries) = Throw e ->
                    exists e', (runBrunoTool w target options).2 = Some (Throw e')) as Hcall.
  { intros e He. rewrite <- Hvars in He.
    by destruct (runBrunoTool_fails_with_vars w target options e He). }
  assert (forall pt, buildVarsPassThrough (Some entries) = Ok pt ->
            envVarArgs pt = flat_map override_args entries
            /\ forall e, e ∈ entries -> envMap pt !! env_key e.1 = Some e.2) as Hok.
  { intros pt Hpt. simpl in Hpt.
    destruct (vars_loop_ok _ _ _ _ _ Hpt) as (Ha & _ & _ & _ & Hget & _). done. }
  split; [|split; [|split]].
  - intros e He Hbad.
    destruct (buildVarsPassThrough (Some entries)) as [err|pt] eqn:Eb.
    + simpl in Eb. destruct (vars_loop_throws _ _ _ _ _ Eb) as [msg ->].
      split; [by eexists|by eapply Hcall].
    + exfalso. simpl in Eb.
      destruct (vars_loop_ok _ _ _ _ _ Eb) as (_ & Hf & _).
      rewrite Forall_forall in Hf. specialize (Hf e He). unfold key_ok in Hf.
      apply andb_true_iff in Hf as [Hf H3]. apply andb_true_iff in Hf as [H1 H2].
      destruct Hbad as [Hb|[Hb|Hb]].
      * rewrite Hb in H1. discriminate.
      * rewrite Hb in H2. discriminate.
      * rewrite Hb in H3. discriminate.
  - exact Hok.
  - intros cmd args dir env Hin e He.
    apply runBrunoTool_spawn in Hin as (pt & tmpDir & Hpt & _ & _ & _ & -> & ->).
    rewrite Hvars in Hpt. destruct (Hok pt Hpt) as [Ha Hget]. split.
    + apply lookup_union_Some_l. by apply Hget.
    + rewrite Ha. destruct (flat_map_elem_split override_args entries e He) as (b & a & ->).
      exists (["run"; requestPathNoExt target +:+ ".bru"]
              ++ (if no_env options then [] else ["--env"; default "" (envName options)]) ++ b),
             (a ++ ["--output"; Path.join tmpDir (randomUUID w +:+ ".json"); "--format"; "json"]).
      unfold override_args. by rewrite <- !List.app_assoc.
  - intros i j k1 v1 k2 v2 Hij Hi Hj Hsame.
    assert (exists msg, buildVarsPassThrough (Some entries) = Throw (AppError E_VARS msg)) as Hthrow.
    { destruct (buildVarsPassThrough (Some entries)) as [err|pt] eqn:Eb.
      - simpl in Eb. destruct (vars_loop_throws _ _ _ _ _ Eb) as [msg ->]. by eexists.
      - exfalso. simpl in Eb. destruct (vars_loop_ok _ _ _ _ _ Eb) as (_ & _ & Hn & _).
        pose proof (proj1 (NoDup_alt _) Hn i j (env_key k1)) as Hij'.
        change (map (fun e : string * string => env_key e.1) entries)
          with ((fun e : string * string => env_key e.1) <$> entries) in Hij'.
        rewrite !list_lookup_fmap, Hi, Hj in Hij'. simpl in Hij'.
        assert (env_key k2 = env_key k1) as Hk by (unfold env_key; by rewrite Hsame).
        rewrite Hk in Hij'. specialize (Hij' eq_refl eq_refl). lia. }
    split; [exact Hthrow|]. split; [|split].
    + destruct Hthrow as [msg Hmsg]. by eapply Hcall.
    + intros Hf. simpl. eapply vars_loop_collision; eauto.
    + assert (exists e, key_verdict (take j entries) k2 = Some e) as [ej Hvj].
      { unfold key_verdict. destruct (key_error k2) as [e|]; [by eexists|].
        rewrite decide_True; [by eexists|].
        apply list_elem_of_In, in_map_iff. exists (k1, v1). split.
        - unfold env_key. simpl. by rewrite Hsame.
        - apply list_elem_of_In, list_elem_of_lookup. exists i. by rewrite lookup_take_lt. }
      pose proof (vars_loop_first entries ∅ ∅ [] []) as Hfirst. simpl in Hfirst.
      assert (forall x : string, x ∈ (∅ : gset string) <-> x ∈ @nil string) as Hinv.
      { intros x. split; [by intros H%elem_of_empty|by intros H%elem_of_nil]. }
      specialize (Hfirst Hinv). destruct Hthrow as [msg Hmsg]. simpl in Hmsg.
      rewrite Hmsg in Hfirst. destruct Hfirst as (k & key & value & Hk & Hvk & Hmin).
      exists k, key, value, (AppError E_VARS msg).
      split; [|split; [done|split; [exact Hmsg|split; [done|exact Hmin]]]].
      destruct (decide (k <= j)%nat) as [|Hgt]; [done|].
      rewrite (Hmin j k2 v2) in Hvj; [discriminate|lia|done].
Qed.

End RunnerFacts.

(* ------------------------------------------------------------------ *)
(** ** The runner: timeout                                              *)
(* ------------------------------------------------------------------ *)

Module TimeoutFacts.

Import Js Naming Runner RunnerFacts.

(** Events that leave the promise pending: everything but ['error'] and
    ['close']. *)
Definition pending_event (ev : ChildEvent) : Prop :=
  match ev with
  | ChildError _ | ChildClose _ => False
  | _ => True
  end.

(** Events before the timeout timer expires that leave the promise
    pending: chunks on stderr (the grace timer, not armed yet, is listed
    for completeness). *)
Definition early_event (ev : ChildEvent) : Prop :=
  match ev with
  | StderrData _ | TimerFired GraceTimer => True
  | _ => False
  end.

Definition run_from (st : ChildState) (events : list ChildEvent) : ChildState :=
  foldl child_step st events.

Lemma run_from_app st l1 l2 : run_from st (l1 ++ l2) = run_from (run_from st l1) l2.
Proof. apply foldl_app. Qed.

(** The state of a child nothing has happened to but output on stderr. *)
Definition fresh (out : string) : ChildState :=
  {| st_stderr := out;
     st_timedOut := false;
     st_timeoutArmed := true;
     st_graceArmed := false;
     st_settled := None;
     st_effects := [] |}.

Lemma run_from_early events : forall out,
  Forall early_event events -> exists out', run_from (fresh out) events = fresh out'.
Proof.
  induction events as [|ev events IH]; intros out Hf; [by eexists|].
  apply Forall_cons in Hf as [Hev Hf].
  destruct ev as [chunk|msg|[|]|c]; try done; simpl.
  - apply (IH (out +:+ chunk) Hf).
  - apply (IH out Hf).
Qed.

(** Once set, [timedOut] stays set, and a settled promise stays settled. *)
Lemma child_step_timedOut st ev :
  st_timedOut st = true -> st_timedOut (child_step st ev) = true.
Proof.
  intros H. destruct ev as [chunk|msg|[|]|c]; simpl; try done.
  - by destruct (st_timeoutArmed st).
  - by destruct (st_graceArmed st).
Qed.

Lemma child_step_settled st ev r :
  st_settled st = Some r -> st_settled (child_step st ev) = Some r.
Proof.
  intros H. destruct ev as [chunk|msg|[|]|c]; simpl; try done.
  - unfold settle. by rewrite H.
  - by destruct (st_timeoutArmed st).
  - by destruct (st_graceArmed st).
  - unfold settle. by rewrite H.
Qed.

Lemma run_from_settled events : forall st r,
  st_settled st = Some r -> st_settled (run_from st events) = Some r.
Proof.
  induction events as [|ev events IH]; intros st r H; [done|].
  simpl. apply IH. by apply child_step_settled.
Qed.

Lemma child_step_pending st ev :
  pending_event ev -> st_settled (child_step st ev) = st_settled st.
Proof.
  destruct ev as [chunk|msg|[|]|c]; simpl; try done.
  - by destruct (st_timeoutArmed st).
  - by destruct (st_graceArmed st).
Qed.

Lemma run_from_pending events : forall st,
  Forall pending_event events ->
  st_settled (run_from st events) = st_settled st
  /\ (st_timedOut st = true -> st_timedOut (run_from st events) = true).
Proof.
  induction events as [|ev events IH]; intros st Hf; [done|].
  apply Forall_cons in Hf as [Hev Hf]. simpl.
  destruct (IH (child_step st ev) Hf) as [H1 H2]. split.
  - rewrite H1. by apply child_step_pending.
  - intros Ht. apply H2. by apply child_step_timedOut.
Qed.

(** The effects of the callbacks: only signals and timers, and they
    accumulate. *)
Definition callback_effect (eff : Effect) : Prop :=
  match eff with
  | Kill _ | SetTimeout _ _ | ClearTimeout _ => True
  | _ => False
  end.

Lemma child_step_effects st ev :
  exists more, st_effects (child_step st ev) = st_effects st ++ more
               /\ Forall callback_effect more.
Proof.
  destruct ev as [chunk|msg|[|]|c]; simpl.
  - exists []. by rewrite List.app_nil_r.
  - exists []. by rewrite List.app_nil_r.
  - destruct (st_timeoutArmed st); simpl.
    + eexists. split; [reflexivity|]. repeat constructor.
    + exists []. by rewrite List.app_nil_r.
  - destruct (st_graceArmed st); simpl.
    + eexists. split; [reflexivity|]. repeat constructor.
    + exists []. by rewrite List.app_nil_r.
  - eexists. split; [reflexivity|]. repeat constructor.
Qed.

Lemma run_from_effects events : forall st,
  exists more, st_effects (run_from st events) = st_effects st ++ more
               /\ Forall callback_effect more.
Proof.
  induction events as [|ev events IH]; intros st; simpl.
  - exists []. by rewrite List.app_nil_r.
  - destruct (IH (child_step st ev)) as (m2 & E2 & F2).
    destruct (child_step_effects st ev) as (m1 & E1 & F1).
    exists (m1 ++ m2). split.
    + rewrite E2, E1. by rewrite List.app_assoc.
    + by apply Forall_app.
Qed.

(** An armed grace timer that expires sends the forceful signal. *)
Lemma run_from_grace events : forall st,
  st_graceArmed st = true -> TimerFired GraceTimer ∈ events ->
  Kill SIGKILL ∈ st_effects (run_from st events).
Proof.
  induction events as [|ev events IH]; intros st Ha Hin; [by apply elem_of_nil in Hin|].
  apply elem_of_cons in Hin as [<-|Hin]; simpl.
  - rewrite Ha.
    destruct (run_from_effects events
                {| st_stderr := st_stderr st; st_timedOut := st_timedOut st;
                   st_timeoutArmed := st_timeoutArmed st; st_graceArmed := false;
                   st_settled := st_settled st;
                   st_effects := st_effects st ++ [Kill SIGKILL] |}) as (more & -> & _).
    simpl. rewrite !elem_of_app. left. right. by apply list_elem_of_singleton.
  - destruct ev as [chunk|msg|[|]|c]; simpl.
    + by apply IH.
    + by apply IH.
    + destruct (st_timeoutArmed st); by apply IH.
    + rewrite Ha.
      destruct (run_from_effects events
                  {| st_stderr := st_stderr st; st_timedOut := st_timedOut st;
                     st_timeoutArmed := st_timeoutArmed st; st_graceArmed := false;
                     st_settled := st_settled st;
                     st_effects := st_effects st ++ [Kill SIGKILL] |}) as (more & -> & _).
      simpl. rewrite !elem_of_app. left. right. by apply list_elem_of_singleton.
    + by apply IH.
Qed.

(** The call gets as far as spawning the subprocess: the environment
    requirement is met, the temporary directory is created and the
    variables are accepted. *)
Record ReachesSpawn (w : World) (target : ToolTarget) (options : RunnerOptions) : Prop := {
  env_met :
    requiresEnv target = false \/ no_env options = false
    \/ missing_vars target options = [];
  tmp_made : exists tmpDir, mkdtemp w (Path.join (os_tmpdir w) "bruno-mcp-") = inr tmpDir;
  vars_accepted : exists pt, buildVarsPassThrough (vars options) = Ok pt
}.

(** C6, as amended.  Take a call that spawns its subprocess and whose timeout
    timer expires while the promise is pending, the child closing afterwards
    with any exit code [code]: before the expiry only output on stderr,
    between the expiry and the ['close'] event neither ['error'] nor
    ['close'].  The call fails with the timeout error, whatever the exit
    code and whatever report the child has written, and the report is
    never read.  At the expiry the callback sends SIGTERM and arms the
    grace timer of 1000 ms, these being the next effects after the timeout
    timer was armed; when the grace timer expires SIGKILL is sent. *)
Theorem timeout_wins (w : World) (target : ToolTarget) (options : RunnerOptions)
  (pre mid post : list ChildEvent) (code_ : option Z) :
  ReachesSpawn w target options ->
  child_events w = pre ++ TimerFired TimeoutTimer :: mid ++ ChildClose code_ :: post ->
  Forall early_event pre ->
  Forall pending_event mid ->
  (runBrunoTool w target options).2 =
    Some (Throw (AppError E_TIMEOUT
            ("Bruno request timed out after " +:+ string_of_nat (timeoutMs options) +:+ "ms.")))
  /\ (exists prefix cmd args dir env rest,
        (runBrunoTool w target options).1 =
          [Mkdtemp prefix; Spawn cmd args dir env;
           SetTimeout TimeoutTimer (timeoutMs options);
           Kill SIGTERM; SetTimeout GraceTimer 1000] ++ rest
        /\ Forall callback_effect rest
        /\ (TimerFired GraceTimer ∈ mid ++ post -> Kill SIGKILL ∈ rest))
  /\ (forall path, ~ In (ReadFile path) (runBrunoTool w target options).1).
Proof.
  intros [Henv [tmpDir Htmp] [pt Hpt]] Hev Hpre Hmid.
  (* the state of the callbacks after all events *)
  destruct (run_from_early pre "" Hpre) as [out Hout].
  set (S1 := {| st_stderr := out; st_timedOut := true; st_timeoutArmed := false;
                st_graceArmed := true; st_settled := None;
                st_effects := [Kill SIGTERM; SetTimeout GraceTimer GRACE_MS] |}).
  assert (run_child (child_events w) = run_from S1 (mid ++ ChildClose code_ :: post)) as Hrun.
  { unfold run_child. rewrite Hev. fold (run_from child_init).
    rewrite run_from_app. change child_init with (fresh ""). rewrite Hout. reflexivity. }
  destruct (run_from_pending mid S1 Hmid) as [Hs2 Ht2]. specialize (Ht2 eq_refl).
  set (S2 := run_from S1 mid) in *.
  set (rr := {| code := code_; stderr := st_stderr S2; timedOut := st_timedOut S2 |}).
  assert (st_settled (run_child (child_events w)) = Some (Ok rr)) as Hsettled.
  { rewrite Hrun, run_from_app. fold S2. simpl. apply run_from_settled.
    simpl. unfold settle. by rewrite Hs2. }
  destruct (run_from_effects (mid ++ ChildClose code_ :: post) S1) as (rest & Hrest & Hcb).
  rewrite <- Hrun in Hrest. simpl in Hrest.
  assert (is_nonempty
            (if requiresEnv target && no_env options
             then missing_vars target options else []) = false) as Hno.
  { destruct Henv as [-> | [-> | ->]]; [done| |].
    - by rewrite andb_false_r.
    - by destruct (requiresEnv target && no_env options). }
  assert (runBrunoTool w target options =
            ([Mkdtemp (Path.join (os_tmpdir w) "bruno-mcp-");
              Spawn "bru"
                (["run"; requestPathNoExt target +:+ ".bru"]
                 ++ (if no_env options then [] else ["--env"; default "" (envName options)])
                 ++ envVarArgs pt
                 ++ ["--output"; Path.join tmpDir (randomUUID w +:+ ".json"); "--format"; "json"])
                (collectionRootAbs target) (envMap pt ∪ process_env w);
              SetTimeout TimeoutTimer (timeoutMs options);
              Kill SIGTERM; SetTimeout GraceTimer 1000] ++ rest,
             Some (Throw (timeout_error options)))) as Hcall.
  { unfold runBrunoTool. rewrite Hno, Htmp, Hpt, Hsettled.
    unfold after_child. subst rr. simpl. rewrite Ht2. rewrite Hrest.
    by rewrite List.app_nil_r. }
  rewrite Hcall. simpl. split; [reflexivity|]. split.
  - do 6 eexists. split; [reflexivity|]. split; [exact Hcb|].
    intros Hg.
    assert (Kill SIGKILL ∈ st_effects (run_from S1 (mid ++ ChildClose code_ :: post))) as Hk.
    { apply run_from_grace; [reflexivity|].
      apply elem_of_app in Hg as [Hg|Hg]; apply elem_of_app; [by left|].
      right. by apply elem_of_cons; right. }
    rewrite <- Hrun, Hrest in Hk.
    apply elem_of_cons in Hk as [Hk|Hk]; [discriminate|].
    apply elem_of_cons in Hk as [Hk|Hk]; [discriminate|exact Hk].
  - intros path [H|[H|[H|[H|[H|Hin]]]]]; try discriminate.
    rewrite Forall_forall in Hcb. apply list_elem_of_In in Hin. by apply (Hcb _ Hin).
Qed.

End TimeoutFacts.

(* ------------------------------------------------------------------ *)
(** ** The runner: output                                               *)
(* ------------------------------------------------------------------ *)

Module OutputFacts.

Import Js StringFacts Naming Runner.

(** Well-formed UTF-8 (Unicode, table 3-7): the second byte of a sequence
    of three or four is constrained by the first. *)
Definition second_low (b1 : ascii) : nat :=
  if (Js.code b1 =? 224)%nat then 160 else if (Js.code b1 =? 240)%nat then 144 else 128.
Definition second_high (b1 : ascii) : nat :=
  if (Js.code b1 =? 237)%nat then 159 else if (Js.code b1 =? 244)%nat then 143 else 191.

Inductive WellFormed : string -> Prop :=
| wf_empty : WellFormed ""
| wf_one b s :
    (Js.code b <= 127)%nat -> WellFormed s -> WellFormed (String b s)
| wf_two b1 b2 s :
    between 194 223 b1 = true -> between 128 191 b2 = true ->
    WellFormed s -> WellFormed (String b1 (String b2 s))
| wf_three b1 b2 b3 s :
    between 224 239 b1 = true -> between (second_low b1) (second_high b1) b2 = true ->
    between 128 191 b3 = true ->
    WellFormed s -> WellFormed (String b1 (String b2 (String b3 s)))
| wf_four b1 b2 b3 b4 s :
    between 240 244 b1 = true -> between (second_low b1) (second_high b1) b2 = true ->
    between 128 191 b3 = true -> between 128 191 b4 = true ->
    WellFormed s -> WellFormed (String b1 (String b2 (String b3 (String b4 s)))).

(** A multi-byte sequence cut short: a proper, non-empty prefix of a
    well-formed sequence. *)
Inductive Incomplete : string -> Prop :=
| cut_two b1 : between 194 223 b1 = true -> Incomplete (String b1 "")
| cut_three_1 b1 : between 224 239 b1 = true -> Incomplete (String b1 "")
| cut_three_2 b1 b2 :
    between 224 239 b1 = true -> between (second_low b1) (second_high b1) b2 = true ->
    Incomplete (String b1 (String b2 ""))
| cut_four_1 b1 : between 240 244 b1 = true -> Incomplete (String b1 "")
| cut_four_2 b1 b2 :
    between 240 244 b1 = true -> between (second_low b1) (second_high b1) b2 = true ->
    Incomplete (String b1 (String b2 ""))
| cut_four_3 b1 b2 b3 :
    between 240 244 b1 = true -> between (second_low b1) (second_high b1) b2 = true ->
    between 128 191 b3 = true ->
    Incomplete (String b1 (String b2 (String b3 ""))).

Lemma between_spec lo hi b :
  between lo hi b = true <-> (lo <= Js.code b <= hi)%nat.
Proof.
  unfold between. rewrite andb_true_iff, !Nat.leb_le. tauto.
Qed.

Lemma between_out lo hi lo' hi' b :
  between lo hi b = true -> (hi < lo' \/ hi' < lo)%nat -> between lo' hi' b = false.
Proof.
  intros H Hd. apply between_spec in H.
  destruct (between lo' hi' b) eqn:E; [|done].
  apply between_spec in E. lia.
Qed.

Lemma not_ascii lo hi b :
  between lo hi b = true -> (127 < lo)%nat -> (Js.code b <=? 127)%nat = false.
Proof. intros H Hlo. apply between_spec in H. apply Nat.leb_gt. lia. Qed.

(** The decoder on the first byte of each kind of sequence. *)
Lemma start_one b : (Js.code b <= 127)%nat -> utf8_start b = (utf8_idle, String b "").
Proof. intros H. unfold utf8_start. apply Nat.leb_le in H. by rewrite H. Qed.

Lemma start_two b1 :
  between 194 223 b1 = true ->
  utf8_start b1 = ({| needed := 1; lower := 128; upper := 191; pending := String b1 "" |}, "").
Proof.
  intros H. unfold utf8_start. rewrite (not_ascii _ _ _ H) by lia. by rewrite H.
Qed.

Lemma start_three b1 :
  between 224 239 b1 = true ->
  utf8_start b1 = ({| needed := 2; lower := second_low b1; upper := second_high b1;
                      pending := String b1 "" |}, "").
Proof.
  intros H. unfold utf8_start. rewrite (not_ascii _ _ _ H) by lia.
  rewrite (between_out _ _ 194 223 _ H) by lia. rewrite H.
  unfold second_low, second_high. apply between_spec in H.
  destruct (Js.code b1 =? 224)%nat eqn:E1; destruct (Js.code b1 =? 237)%nat eqn:E2;
    destruct (Js.code b1 =? 240)%nat eqn:E3; destruct (Js.code b1 =? 244)%nat eqn:E4;
    try reflexivity;
    repeat match goal with
           | H : (_ =? _)%nat = true |- _ => apply Nat.eqb_eq in H
           end; lia.
Qed.

Lemma start_four b1 :
  between 240 244 b1 = true ->
  utf8_start b1 = ({| needed := 3; lower := second_low b1; upper := second_high b1;
                      pending := String b1 "" |}, "").
Proof.
  intros H. unfold utf8_start. rewrite (not_ascii _ _ _ H) by lia.
  rewrite (between_out _ _ 194 223 _ H) by lia.
  rewrite (between_out _ _ 224 239 _ H) by lia. rewrite H.
  unfold second_low, second_high. apply between_spec in H.
  destruct (Js.code b1 =? 224)%nat eqn:E1; destruct (Js.code b1 =? 237)%nat eqn:E2;
    destruct (Js.code b1 =? 240)%nat eqn:E3; destruct (Js.code b1 =? 244)%nat eqn:E4;
    try reflexivity;
    repeat match goal with
           | H : (_ =? _)%nat = true |- _ => apply Nat.eqb_eq in H
           end; lia.
Qed.

Lemma decode_cons st b rest :
  utf8_decode st (String b rest) =
  (utf8_step st b).2 +:+ utf8_decode (utf8_step st b).1 rest.
Proof. simpl. by destruct (utf8_step st b). Qed.

Lemma step_idle b : utf8_step utf8_idle b = utf8_start b.
Proof. reflexivity. Qed.

Lemma step_last lo hi seq b :
  between lo hi b = true ->
  utf8_step {| needed := 1; lower := lo; upper := hi; pending := seq |} b
  = (utf8_idle, seq +:+ String b "").
Proof. intros H. unfold utf8_step. simpl. by rewrite H. Qed.

Lemma step_more k lo hi seq b :
  between lo hi b = true ->
  utf8_step {| needed := S (S k); lower := lo; upper := hi; pending := seq |} b
  = ({| needed := S k; lower := 128; upper := 191; pending := seq +:+ String b "" |}, "").
Proof. intros H. unfold utf8_step. simpl. by rewrite H. Qed.

(** A well-formed text is decoded to itself, and a text cut inside a
    sequence to its whole characters followed by U+FFFD. *)
Lemma decode_well_formed good : WellFormed good ->
  forall tail_, utf8_decode utf8_idle (good +:+ tail_) = good +:+ utf8_decode utf8_idle tail_.
Proof.
  induction 1 as [|b s Hb _ IH|b1 b2 s H1 H2 _ IH|b1 b2 b3 s H1 H2 H3 _ IH
                  |b1 b2 b3 b4 s H1 H2 H3 H4 _ IH]; intros tail_.
  - reflexivity.
  - rewrite app_cons, decode_cons, step_idle, (start_one b Hb). simpl. by rewrite IH.
  - rewrite !app_cons, decode_cons, step_idle, (start_two b1 H1). simpl fst. simpl snd.
    rewrite decode_cons, (step_last _ _ _ b2 H2). simpl fst. simpl snd.
    rewrite IH. reflexivity.
  - rewrite !app_cons, decode_cons, step_idle, (start_three b1 H1). simpl fst. simpl snd.
    rewrite decode_cons, (step_more _ _ _ _ b2 H2). simpl fst. simpl snd.
    rewrite decode_cons, (step_last _ _ _ b3 H3). simpl fst. simpl snd.
    rewrite IH. reflexivity.
  - rewrite !app_cons, decode_cons, step_idle, (start_four b1 H1). simpl fst. simpl snd.
    rewrite decode_cons, (step_more _ _ _ _ b2 H2). simpl fst. simpl snd.
    rewrite decode_cons, (step_more _ _ _ _ b3 H3). simpl fst. simpl snd.
    rewrite decode_cons, (step_last _ _ _ b4 H4). simpl fst. simpl snd.
    rewrite IH. reflexivity.
Qed.

Lemma decode_incomplete part : Incomplete part -> utf8_decode utf8_idle part = REPLACEMENT.
Proof.
  destruct 1 as [b1 H1|b1 H1|b1 b2 H1 H2|b1 H1|b1 b2 H1 H2|b1 b2 b3 H1 H2 H3].
  - rewrite decode_cons, step_idle, (start_two b1 H1). reflexivity.
  - rewrite decode_cons, step_idle, (start_three b1 H1). reflexivity.
  - rewrite decode_cons, step_idle, (start_three b1 H1). simpl fst. simpl snd.
    rewrite decode_cons, (step_more _ _ _ _ b2 H2). reflexivity.
  - rewrite decode_cons, step_idle, (start_four b1 H1). reflexivity.
  - rewrite decode_cons, step_idle, (start_four b1 H1). simpl fst. simpl snd.
    rewrite decode_cons, (step_more _ _ _ _ b2 H2). reflexivity.
  - rewrite decode_cons, step_idle, (start_four b1 H1). simpl fst. simpl snd.
    rewrite decode_cons, (step_more _ _ _ _ b2 H2). simpl fst. simpl snd.
    rewrite decode_cons, (step_more _ _ _ _ b3 H3). reflexivity.
Qed.

Lemma toString_well_formed s : WellFormed s -> utf8_toString s = s.
Proof.
  intros H. unfold utf8_toString.
  rewrite <- (app_nil_r s) at 1. rewrite (decode_well_formed s H). simpl. apply app_nil_r.
Qed.

Lemma toString_cut good part :
  WellFormed good -> Incomplete part -> utf8_toString (good +:+ part) = good +:+ REPLACEMENT.
Proof.
  intros Hg Hp. unfold utf8_toString.
  by rewrite (decode_well_formed good Hg), (decode_incomplete part Hp).
Qed.

(** The first [n] bytes of a well-formed text: whole characters, then
    nothing or a sequence cut short. *)
Lemma subarray_0 s : subarray 0 s = "".
Proof. by destruct s. Qed.

Lemma subarray_S n b s : subarray (S n) (String b s) = String b (subarray n s).
Proof. reflexivity. Qed.

Lemma subarray_well_formed body : WellFormed body -> forall n,
  exists good part, subarray n body = good +:+ part /\ WellFormed good
                    /\ (part = "" \/ Incomplete part).
Proof.
  induction 1 as [|b s Hb _ IH|b1 b2 s H1 H2 _ IH|b1 b2 b3 s H1 H2 H3 _ IH
                  |b1 b2 b3 b4 s H1 H2 H3 H4 _ IH]; intros n.
  - exists "", "". destruct n; repeat split; auto using wf_empty.
  - destruct n as [|n]; [exists "", ""; rewrite subarray_0; auto using wf_empty|].
    destruct (IH n) as (g & p & E & Hg & Hp).
    exists (String b g), p. rewrite subarray_S, E. auto using wf_one.
  - destruct n as [|[|n]].
    + exists "", "". rewrite subarray_0. auto using wf_empty.
    + exists "", (String b1 ""). rewrite !subarray_S, subarray_0.
      auto using wf_empty, cut_two.
    + destruct (IH n) as (g & p & E & Hg & Hp).
      exists (String b1 (String b2 g)), p. rewrite !subarray_S, E. auto using wf_two.
  - destruct n as [|[|[|n]]].
    + exists "", "". rewrite subarray_0. auto using wf_empty.
    + exists "", (String b1 ""). rewrite !subarray_S, subarray_0.
      auto using wf_empty, cut_three_1.
    + exists "", (String b1 (String b2 "")). rewrite !subarray_S, subarray_0.
      auto using wf_empty, cut_three_2.
    + destruct (IH n) as (g & p & E & Hg & Hp).
      exists (String b1 (String b2 (String b3 g))), p. rewrite !subarray_S, E.
      auto using wf_three.
  - destruct n as [|[|[|[|n]]]].
    + exists "", "". rewrite subarray_0. auto using wf_empty.
    + exists "", (String b1 ""). rewrite !subarray_S, subarray_0.
      auto using wf_empty, cut_four_1.
    + exists "", (String b1 (String b2 "")). rewrite !subarray_S, subarray_0.
      auto using wf_empty, cut_four_2.
    + exists "", (String b1 (String b2 (String b3 ""))). rewrite !subarray_S, subarray_0.
      auto using wf_empty, cut_four_3.
    + destruct (IH n) as (g & p & E & Hg & Hp).
      exists (String b1 (String b2 (String b3 (String b4 g)))), p. rewrite !subarray_S, E.
      auto using wf_four.
Qed.

Lemma subarray_length n s : (n <= String.length s)%nat -> String.length (subarray n s) = n.
Proof.
  revert s. induction n as [|n IH]; intros s H; [by rewrite subarray_0|].
  destruct s as [|b s]; simpl in *; [lia|]. rewrite IH; [done|lia].
Qed.

Definition nl : string := String "010" "".

(** C5, as amended.  When the body is longer in bytes than the cap, the
    body section of the output is the UTF-8 decoding of the first [cap]
    bytes of the body, followed by a line feed and the marker
    [[truncated to <cap> bytes]].  The cut is made at the byte [cap]
    whatever it splits.  If the bytes cut off are well-formed UTF-8 (they
    end on a character boundary, as they always do in an ASCII body), the
    decoding is these [cap] bytes themselves.  If the body is well-formed
    and the cut falls inside a multi-byte sequence, the decoding is the
    whole characters before the cut followed by U+FFFD.  A body of 500
    letters [a] under a cap of 100 yields 100 letters [a] and the marker
    naming 100. *)
Theorem truncated_body_is_decoded_prefix (rt : Runtime) (view : BrunoReportView) (cap : nat) :
  (cap < byteLength (bodyText view))%nat ->
  formatToolOutput rt view cap =
    "Status: " +:+ NumberToString rt (statusCode view) +:+ nl +:+ nl
    +:+ "Headers:" +:+ nl +:+ stringify rt (headers_json (headers view)) +:+ nl +:+ nl
    +:+ "Body:" +:+ nl
    +:+ utf8_toString (subarray cap (bodyText view))
    +:+ nl +:+ "[truncated to " +:+ string_of_nat cap +:+ " bytes]"
  /\ byteLength (subarray cap (bodyText view)) = cap
  /\ (WellFormed (subarray cap (bodyText view)) ->
      utf8_toString (subarray cap (bodyText view)) = subarray cap (bodyText view))
  /\ (WellFormed (bodyText view) ->
      exists good part,
        subarray cap (bodyText view) = good +:+ part /\ WellFormed good
        /\ ((part = "" /\ utf8_toString (subarray cap (bodyText view)) = good)
            \/ (Incomplete part
                /\ utf8_toString (subarray cap (bodyText view)) = good +:+ REPLACEMENT)))
  /\ (forall status hs,
      formatToolOutput rt
        {| statusCode := status; headers := hs; bodyText := Reference.repeat_string 500 "a" |}
        100 =
      "Status: " +:+ NumberToString rt status +:+ nl +:+ nl
      +:+ "Headers:" +:+ nl +:+ stringify rt (headers_json hs) +:+ nl +:+ nl
      +:+ "Body:" +:+ nl
      +:+ Reference.repeat_string 100 "a" +:+ nl +:+ "[truncated to 100 bytes]").
Proof.
  intros Hlong. split; [|split; [|split; [|split]]].
  - unfold formatToolOutput, limit_body, truncation_marker.
    apply Nat.ltb_lt in Hlong. rewrite Hlong. reflexivity.
  - apply subarray_length. unfold byteLength in Hlong. lia.
  - apply toString_well_formed.
  - intros Hwf.
    destruct (subarray_well_formed _ Hwf cap) as (good & part & E & Hg & [->|Hp]).
    + exists good, "". split; [exact E|]. split; [exact Hg|]. left. split; [done|].
      rewrite E, app_nil_r. by apply toString_well_formed.
    + exists good, part. split; [exact E|]. split; [exact Hg|]. right. split; [done|].
      rewrite E. by apply toString_cut.
  - intros status hs.
    assert (limit_body (Reference.repeat_string 500 "a") 100 =
            Reference.repeat_string 100 "a" +:+ nl +:+ "[truncated to 100 bytes]") as Hbody
      by (vm_compute; reflexivity).
    unfold formatToolOutput. cbn [statusCode headers bodyText]. rewrite Hbody. reflexivity.
Qed.

(** *** extractReportView *)

(** The first candidate that is neither [undefined] nor [null]; the last
    one when all of them are. *)
Fixpoint first_defined (candidates : list Value) : Value :=
  match candidates with
  | [] => None
  | [c] => c
  | c :: rest =>
      match c with
      | None | Some JNull => first_defined rest
      | _ => c
      end
  end.

Definition report_error : Error :=
  AppError E_REPORT "Unable to parse response status from Bruno JSON report.".

(** *** The conversions that throw *)

Lemma Json_ind_nested (P : Json -> Prop) :
  P JNull -> (forall b, P (JBool b)) -> (forall n, P (JNum n)) -> (forall s, P (JStr s)) ->
  (forall items, Forall P items -> P (JArr items)) ->
  (forall fields, P (JObj fields)) ->
  forall v, P v.
Proof.
  intros Hnull Hbool Hnum Hstr Harr Hobj.
  fix rec 1. intros [|b|n|s|items|fields].
  - apply Hnull.
  - apply Hbool.
  - apply Hnum.
  - apply Hstr.
  - apply Harr. induction items as [|x items IH]; constructor; [apply rec|exact IH].
  - apply Hobj.
Qed.

(** [String] and [Number] throw nothing but the [TypeError] of
    ToPrimitive. *)
Lemma ToString_throws rt v : forall e, ToString rt v = Throw e -> e = not_primitive.
Proof.
  induction v as [|b|n|s|items IH|fields] using Json_ind_nested; intros e; simpl.
  - discriminate.
  - destruct b; discriminate.
  - discriminate.
  - discriminate.
  - match goal with |- context [Errors.bind (?f items)] => set (elements := f) end.
    assert (elements items = Throw e -> e = not_primitive) as Hel.
    { clear -IH. revert e. induction IH as [|x l Hx _ IHl]; intros e; simpl; [discriminate|].
      destruct (match x with JNull => Ok "" | _ => ToString rt x end) as [e0|s] eqn:Ex.
      - intros [= <-]. apply Hx. by destruct x.
      - simpl. destruct (elements l) as [e1|ss]; simpl; [|discriminate].
        intros [= <-]. by apply IHl. }
    destruct (elements items) as [e0|parts]; simpl; [|discriminate].
    intros [= <-]. by apply Hel.
  - destruct (has_key "toString" fields); [by intros [= <-]|discriminate].
Qed.

Lemma ToNumber_throws rt v e : ToNumber rt v = Throw e -> e = not_primitive.
Proof.
  destruct v as [[|[|]|n|s|items|fields]|]; try discriminate.
  - unfold ToNumber.
    destruct (ToString rt (JArr items)) as [e0|s] eqn:Es; simpl; [|discriminate].
    intros [= <-]. by apply ToString_throws in Es.
  - unfold ToNumber.
    destruct (ToString rt (JObj fields)) as [e0|s] eqn:Es; simpl; [|discriminate].
    intros [= <-]. by apply ToString_throws in Es.
Qed.

Lemma status_number_throws rt v e : status_number rt v = Throw e -> e = not_primitive.
Proof.
  destruct v as [[|b|n|s|items|fields]|]; try discriminate; apply ToNumber_throws.
Qed.

Lemma string_or_empty_throws rt v e : string_or_empty rt v = Throw e -> e = not_primitive.
Proof. destruct v as [[]|]; try discriminate; apply ToString_throws. Qed.

Lemma for_each_throws {A S} (body : S -> A -> Result S) (P : Error -> Prop) l :
  (forall st x e, body st x = Throw e -> P e) ->
  forall st e, Discover.for_each body st l = Throw e -> P e.
Proof.
  intros Hbody. induction l as [|x l IH]; intros st e; simpl; [discriminate|].
  destruct (body st x) as [e0|st'] eqn:Eb.
  - intros [= <-]. by eapply Hbody.
  - apply IH.
Qed.

Lemma toHeaders_throws rt input e : toHeaders rt input = Throw e -> e = not_primitive.
Proof.
  destruct input as [[|b|n|s|items|fields]|]; try discriminate; unfold toHeaders.
  - apply (for_each_throws _ (fun e => e = not_primitive)). intros out item e0.
    destruct (negb _); [discriminate|].
    destruct (prop item "name") as [[|b|n|s|items'|fields]|]; try discriminate.
    destruct (string_or_empty rt (prop item "value")) as [e1|text] eqn:Et; simpl;
      [|discriminate].
    intros [= <-]. by apply string_or_empty_throws in Et.
  - apply (for_each_throws _ (fun e => e = not_primitive)). intros out entry e0.
    destruct (string_or_empty rt (Some entry.2)) as [e1|text] eqn:Et; simpl; [|discriminate].
    intros [= <-]. by apply string_or_empty_throws in Et.
Qed.

(** extractReportView throws the report-parsing error or that
    [TypeError]. *)
Lemma extractReportView_cases rt report e :
  extractReportView rt report = Throw e -> e = report_error \/ e = not_primitive.
Proof.
  unfold extractReportView.
  destruct (status_number rt (status_candidate report)) as [e0|statusCode] eqn:Es; simpl.
  { intros [= <-]. right. by apply status_number_throws in Es. }
  unfold assert. destruct (is_finite statusCode); simpl; [|intros [= <-]; by left].
  destruct (toHeaders rt _) as [e0|hs] eqn:Eh; simpl; [|discriminate].
  intros [= <-]. right. by apply toHeaders_throws in Eh.
Qed.

(** The shape of a report whose first result carries a [response]
    object: the statements of extractReportView up to the status source. *)
Lemma status_source_response top first resp more :
  lookup_field "results" top = Some (JArr (JObj first :: more)) ->
  lookup_field "response" first = Some (JObj resp) ->
  first_object (JObj top) = JObj first
  /\ response_of (JObj first) = Some (JObj resp)
  /\ status_source (JObj top) = JObj resp.
Proof.
  intros Hresults Hresponse.
  assert (first_object (JObj top) = JObj first) as Hfirst.
  { unfold first_object. simpl. by rewrite Hresults. }
  assert (response_of (JObj first) = Some (JObj resp)) as Hresp.
  { unfold response_of. simpl. by rewrite Hresponse. }
  split; [exact Hfirst|]. split; [exact Hresp|].
  unfold status_source. by rewrite Hfirst, Hresp.
Qed.

Lemma coalesce_first_defined (a b c d : Value) :
  a ?? b ?? c ?? d = first_defined [a; b; c; d].
Proof. destruct a as [[]|], b as [[]|], c as [[]|]; reflexivity. Qed.

(** The report of the claim: the first result carries a finite
    [statusCode] beside a [response] object that holds no status. *)
Definition shadowed_report : Json :=
  JObj [("results",
         JArr [JObj [("response", JObj [("body", JStr "ok")]);
                     ("statusCode", JNum 200%float);
                     ("headers", JObj [("x-request-id", JStr "7")])]])].

(** C7: what the code does.  A report that is an array is read as its
    first element.  When the first element of [results] carries a
    [response] object, the status is read from that object and from the
    top level only: [statusCode] and [status] of the first element itself
    are never read, whereas the headers (and the body) are read from the
    response object, then from the first element, then from the top
    level.  So a report whose first result holds a finite [statusCode]
    beside a [response] object without a status fails with the
    report-parsing error, and with a status at the top level it is that
    status which is returned, beside the headers of the first result.
    Without a [response] object the first result is read.  The
    conversion of the candidate adds two cases: [null] is reported as the
    status 0, and an object with an own [toString] makes [Number] throw a
    [TypeError] in place of the report-parsing error. *)
Theorem status_skips_the_first_result (rt : Runtime) :
  (forall top first resp more,
     lookup_field "results" top = Some (JArr (JObj first :: more)) ->
     lookup_field "response" first = Some (JObj resp) ->
     status_candidate (JObj top)
     = first_defined [lookup_field "statusCode" resp; lookup_field "status" resp;
                      lookup_field "statusCode" top; lookup_field "status" top]
     /\ (lookup_field "statusCode" resp = None -> lookup_field "status" resp = None ->
         lookup_field "statusCode" top = None -> lookup_field "status" top = None ->
         extractReportView rt (JObj top) = Throw report_error)
     /\ (forall n view,
           lookup_field "statusCode" resp = None -> lookup_field "status" resp = None ->
           lookup_field "statusCode" top = Some (JNum n) ->
           lookup_field "headers" resp = None ->
           extractReportView rt (JObj top) = Ok view ->
           statusCode view = n
           /\ toHeaders rt (lookup_field "headers" first ?? lookup_field "headers" top)
              = Ok (headers view)))
  /\ (forall top first more,
        lookup_field "results" top = Some (JArr (JObj first :: more)) ->
        lookup_field "response" first = None ->
        status_candidate (JObj top)
        = first_defined [lookup_field "statusCode" first; lookup_field "status" first;
                         lookup_field "statusCode" top; lookup_field "status" top])
  /\ (forall top rest,
        extractReportView rt (JArr (JObj top :: rest)) = extractReportView rt (JObj top))
  /\ extractReportView rt shadowed_report = Throw report_error
  /\ prop (first_object shadowed_report) "statusCode" = Some (JNum 200%float)
  /\ extractReportView rt (JObj [("status", JNull)])
     = Ok {| statusCode := 0%float; headers := []; bodyText := "" |}
  /\ extractReportView rt (JObj [("status", JObj [("toString", JNum 1%float)])])
     = Throw not_primitive.
Proof.
  split; [|split; [|repeat split; reflexivity]].
  - intros top first resp more Hresults Hresponse.
    destruct (status_source_response top first resp more Hresults Hresponse)
      as (Hfirst & Hresp & Hsource).
    assert (status_candidate (JObj top)
            = first_defined [lookup_field "statusCode" resp; lookup_field "status" resp;
                             lookup_field "statusCode" top; lookup_field "status" top]) as Hc.
    { unfold status_candidate.
      change (report_root (JObj top)) with (JObj top). rewrite Hsource.
      apply coalesce_first_defined. }
    split; [exact Hc|]. split.
    + intros H1 H2 H3 H4. unfold extractReportView.
      rewrite Hc, H1, H2, H3, H4. reflexivity.
    + intros n view H1 H2 H3 Hh. unfold extractReportView.
      rewrite Hc, H1, H2, H3.
      change (report_root (JObj top)) with (JObj top). rewrite Hfirst, Hresp.
      cbn [first_defined status_number]. unfold Errors.bind, Ok, Throw, assert.
      destruct (is_finite n); [|discriminate].
      cbn [prop_opt prop]. rewrite Hh.
      change (None ?? lookup_field "headers" first) with (lookup_field "headers" first).
      destruct (toHeaders rt (lookup_field "headers" first ?? lookup_field "headers" top))
        as [e|hs]; [discriminate|].
      intros [= <-]. done.
  - intros top first more Hresults Hresponse.
    unfold status_candidate, status_source.
    change (report_root (JObj top)) with (JObj top).
    assert (first_object (JObj top) = JObj first) as ->.
    { unfold first_object. simpl. by rewrite Hresults. }
    assert (response_of (JObj first) = None) as ->.
    { unfold response_of. simpl. by rewrite Hresponse. }
    apply coalesce_first_defined.
Qed.

End OutputFacts.

(* ------------------------------------------------------------------ *)
(** ** The list of tools                                                *)
(* ------------------------------------------------------------------ *)

Module McpFacts.

Import Naming Mcp.

Definition invoice_bru : string :=
  "meta { name: Invoice }" +:+ OutputFacts.nl
  +:+ "get { url: /invoice }" +:+ OutputFacts.nl
  +:+ "docs {" +:+ OutputFacts.nl
  +:+ "  Fetches invoice details from OIC." +:+ OutputFacts.nl
  +:+ "}" +:+ OutputFacts.nl.

(** C4: what the code does on a request with a [docs] block.  The registry
    carries the extracted documentation, as the test of naming.ts expects,
    and the tool list describes the tool by the generated default all the
    same: the handler never reads [docs]. *)
Theorem list_tools_ignores_docs :
  (forall tools, map description (listTools tools) =
                 map (fun e => "Execute Bruno request: " +:+ requestPathNoExt e.2) tools)
  /\ exists target,
      buildCollectionToolMap (Reference.host [("/root/api/invoice.bru", invoice_bru)])
        ["/root/api/invoice.bru"] "/root" "my_api"
      = Ok [("my_api_api_invoice", target)]
      /\ docs target = Some "Fetches invoice details from OIC."
      /\ listTools [("my_api_api_invoice", target)] =
         [{| name := "my_api_api_invoice";
             description := "Execute Bruno request: api/invoice" |}].
Proof.
  split.
  - intros tools. unfold listTools. rewrite map_map. reflexivity.
  - eexists. split; [vm_compute; reflexivity|]. split; reflexivity.
Qed.

End McpFacts.

(* ------------------------------------------------------------------ *)
(** ** Discovery                                                        *)
(* ------------------------------------------------------------------ *)

Module DiscoverFacts.

Import Js StringFacts Naming Discover.

(** *** Containment *)

Lemma strip_common_spec xs : forall ys up down,
  Path.strip_common xs ys = (up, down) ->
  exists common, xs = common ++ up /\ ys = common ++ down.
Proof.
  induction xs as [|x xs IH]; intros ys up down.
  - simpl. intros [= <- <-]. by exists [].
  - destruct ys as [|y ys]; simpl.
    + intros [= <- <-]. by exists [].
    + destruct (decide (x = y)) as [->|Hne].
      * intros H. destruct (IH _ _ _ H) as (c & -> & ->). by exists (y :: c).
      * intros [= <- <-]. by exists [].
Qed.

Lemma join_dotdot rest : startsWith ".." (Js.join "/" (".." :: rest)) = true.
Proof. destruct rest; reflexivity. Qed.

(** A path the containment check lets through is a proper descendant of
    the root. *)
Lemma not_escapes_descendant cwd_ root p :
  escapes (Path.relative cwd_ root p) = false -> descendant cwd_ root p.
Proof.
  unfold escapes, Path.relative, descendant.
  destruct (Path.strip_common _ _) as [up down] eqn:E.
  apply strip_common_spec in E as (common & Hroot & Hp).
  intros H. apply orb_false_iff in H as [H _]. apply orb_false_iff in H as [Hempty Hdots].
  destruct up as [|u up].
  - rewrite List.app_nil_r in Hroot. subst common. simpl in Hempty.
    exists down. split; [|exact Hp].
    intros ->. simpl in Hempty. discriminate.
  - simpl map in Hdots. change ((".." :: map (fun _ => "..") up) ++ down)
      with (".." :: (map (fun _ : string => "..") up ++ down)) in Hdots.
    rewrite join_dotdot in Hdots. discriminate.
Qed.

(** *** The walk *)

Section Walk.
Context (h : Host) (fs : FileSystem) (root : string).

(** The entry paths of the eligible files below an entry, in the order
    in which the walk meets them. *)
Fixpoint found_under (currentAbs : string) (entry : Entry) : list string :=
  match entry with
  | File name => if endsWith ".bru" name then [Path.join currentAbs name] else []
  | Dir name entries =>
      if decide (toLowerCase name = "environments") then []
      else flat_map (found_under (Path.join currentAbs name)) entries
  | Symlink _ | Other _ => []
  end.

Definition contained (entryAbs : string) : bool :=
  negb (escapes (Path.relative (cwd h) root (realpath fs entryAbs))).

Lemma Entry_rect_nested (P : Entry -> Prop) :
  (forall name, P (File name)) ->
  (forall name entries, Forall P entries -> P (Dir name entries)) ->
  (forall name, P (Symlink name)) ->
  (forall name, P (Other name)) ->
  forall e, P e.
Proof.
  intros HF HD HS HO.
  fix rec 1. intros [name|name entries|name|name].
  - apply HF.
  - apply HD. induction entries as [|e entries IH]; constructor; [apply rec|exact IH].
  - apply HS.
  - apply HO.
Qed.

(** What a loop over entries does, given what its body does on each. *)
Lemma for_each_walk (body : list string -> Entry -> Result (list string))
  (paths : Entry -> list string) entries :
  Forall (fun e => forall results,
            match body results e with
            | inr results' =>
                results' = results ++ map (realpath fs) (paths e)
                /\ Forall (fun p => contained p = true) (paths e)
            | inl err =>
                exists p, p ∈ paths e /\ contained p = false /\ err = traversal_blocked p
            end) entries ->
  forall results,
    match for_each body results entries with
    | inr results' =>
        results' = results ++ map (realpath fs) (flat_map paths entries)
        /\ Forall (fun p => contained p = true) (flat_map paths entries)
    | inl err =>
        exists p, p ∈ flat_map paths entries /\ contained p = false
                  /\ err = traversal_blocked p
    end.
Proof.
  induction 1 as [|e entries He _ IH]; intros results; simpl.
  - by rewrite List.app_nil_r.
  - specialize (He results). destruct (body results e) as [err|results1].
    + destruct He as (p & Hp & Hc & ->). exists p. split; [|done].
      apply elem_of_app. by left.
    + destruct He as [-> Hall]. specialize (IH (results ++ map (realpath fs) (paths e))).
      destruct (for_each body _ entries) as [err|results2].
      * destruct IH as (p & Hp & Hc & ->). exists p. split; [|done].
        apply elem_of_app. by right.
      * destruct IH as [-> Hall2]. split.
        -- by rewrite map_app, List.app_assoc.
        -- by apply Forall_app.
Qed.

Lemma walk_entry_spec entry : forall currentAbs results,
  match walk_entry h fs root currentAbs results entry with
  | inr results' =>
      results' = results ++ map (realpath fs) (found_under currentAbs entry)
      /\ Forall (fun p => contained p = true) (found_under currentAbs entry)
  | inl err =>
      exists p, p ∈ found_under currentAbs entry /\ contained p = false
                /\ err = traversal_blocked p
  end.
Proof.
  induction entry as [name|name entries IH|name|name] using Entry_rect_nested;
    intros currentAbs results; simpl.
  - destruct (endsWith ".bru" name); [|by rewrite List.app_nil_r].
    unfold contained.
    destruct (escapes (Path.relative (cwd h) root (realpath fs (Path.join currentAbs name))))
      eqn:E; simpl.
    + exists (Path.join currentAbs name). rewrite E. split; [|done].
      by apply list_elem_of_singleton.
    + split; [done|]. constructor; [by rewrite E|constructor].
  - destruct (decide (toLowerCase name = "environments")); [by rewrite List.app_nil_r|].
    apply (for_each_walk _ (found_under (Path.join currentAbs name))).
    eapply Forall_impl; [exact IH|]. intros e He res. apply He.
  - by rewrite List.app_nil_r.
  - by rewrite List.app_nil_r.
Qed.

Lemma walk_spec entries currentAbs results :
  match walk h fs root currentAbs results entries with
  | inr results' =>
      results' = results ++ map (realpath fs) (flat_map (found_under currentAbs) entries)
      /\ Forall (fun p => contained p = true) (flat_map (found_under currentAbs) entries)
  | inl err =>
      exists p, p ∈ flat_map (found_under currentAbs) entries /\ contained p = false
                /\ err = traversal_blocked p
  end.
Proof.
  unfold walk. apply (for_each_walk _ (found_under currentAbs)).
  apply Forall_forall. intros e _ res. apply walk_entry_spec.
Qed.

End Walk.

(** *** The eligible files *)

Lemma Found_nil dirs name : ~ Found [] dirs name.
Proof. intros H. inversion H; subst; contradiction. Qed.

Lemma Found_cons e es dirs name :
  Found (e :: es) dirs name <-> Found [e] dirs name \/ Found es dirs name.
Proof.
  split.
  - intros H. inversion H as [? ? Hin Hb|? d ch ds ? Hin Hne HF]; subst.
    + destruct Hin as [->|Hin]; [left|right]; apply Found_file; try done. by left.
    + destruct Hin as [->|Hin]; [left|right]; eapply Found_dir; try done. by left.
  - intros [H|H].
    + inversion H as [? ? Hin Hb|? d ch ds ? Hin Hne HF]; subst.
      * destruct Hin as [->|[]]. apply Found_file; [by left|done].
      * destruct Hin as [->|[]]. eapply Found_dir; [by left|done..].
    + inversion H as [? ? Hin Hb|? d ch ds ? Hin Hne HF]; subst.
      * apply Found_file; [by right|done].
      * eapply Found_dir; [by right|done..].
Qed.

Lemma Found_file_iff n dirs name :
  Found [File n] dirs name <-> dirs = [] /\ name = n /\ endsWith ".bru" n = true.
Proof.
  split.
  - intros H. inversion H as [? ? Hin Hb|? d ch ds ? Hin Hne HF]; subst.
    + destruct Hin as [[= ->]|[]]. done.
    + destruct Hin as [[=]|[]].
  - intros (-> & -> & Hb). apply Found_file; [by left|done].
Qed.

Lemma Found_dir_iff d children dirs name :
  Found [Dir d children] dirs name <->
  toLowerCase d <> "environments" /\ exists ds, dirs = d :: ds /\ Found children ds name.
Proof.
  split.
  - intros H. inversion H as [? ? Hin Hb|? d' ch ds ? Hin Hne HF]; subst.
    + destruct Hin as [[=]|[]].
    + destruct Hin as [[= -> ->]|[]]. split; [done|]. by exists ds.
  - intros (Hne & ds & -> & HF). eapply Found_dir; [by left|done..].
Qed.

Lemma Found_symlink n dirs name : ~ Found [Symlink n] dirs name.
Proof.
  intros H. inversion H as [? ? Hin Hb|? d ch ds ? Hin Hne HF]; subst;
    destruct Hin as [[=]|[]].
Qed.

Lemma Found_other n dirs name : ~ Found [Other n] dirs name.
Proof.
  intros H. inversion H as [? ? Hin Hb|? d ch ds ? Hin Hne HF]; subst;
    destruct Hin as [[=]|[]].
Qed.

(** No directory on the way to an eligible file is named [environments],
    and the file has the suffix [.bru]. *)
Lemma Found_policy entries dirs name :
  Found entries dirs name ->
  Forall (fun d => toLowerCase d <> "environments") dirs /\ endsWith ".bru" name = true.
Proof.
  induction 1 as [es nm Hin Hb|es d ch ds nm Hin Hne _ [IH1 IH2]].
  - split; [constructor|done].
  - split; [by constructor|done].
Qed.

Definition found_spec (paths : string -> list string) (entries : list Entry) : Prop :=
  forall currentAbs p,
    p ∈ paths currentAbs <->
    exists dirs name, Found entries dirs name /\ p = entry_path currentAbs dirs name.

Lemma found_spec_list entries :
  Forall (fun e => found_spec (fun cur => found_under cur e) [e]) entries ->
  found_spec (fun cur => flat_map (found_under cur) entries) entries.
Proof.
  induction 1 as [|e entries He _ IH]; intros cur p; simpl.
  - split; [intros H; by apply elem_of_nil in H|].
    intros (dirs & name & HF & _). by apply Found_nil in HF.
  - rewrite elem_of_app, (He cur p), (IH cur p). split.
    + intros [(dirs & name & HF & ->)|(dirs & name & HF & ->)]; exists dirs, name;
        (split; [|done]); apply Found_cons; [by left|by right].
    + intros (dirs & name & HF & ->). apply Found_cons in HF as [HF|HF];
        [left|right]; by exists dirs, name.
Qed.

Lemma found_spec_entry e : found_spec (fun cur => found_under cur e) [e].
Proof.
  induction e as [n|d children IH|n|n] using Entry_rect_nested; intros cur p; simpl.
  - destruct (endsWith ".bru" n) eqn:Hb.
    + rewrite list_elem_of_singleton. split.
      * intros ->. exists [], n. split; [|done]. by apply Found_file_iff.
      * intros (dirs & name & HF & ->). by apply Found_file_iff in HF as (-> & -> & _).
    + split; [intros H; by apply elem_of_nil in H|].
      intros (dirs & name & HF & _). apply Found_file_iff in HF as (_ & _ & Hb'). congruence.
  - destruct (decide (toLowerCase d = "environments")) as [Henv|Henv].
    + split; [intros H; by apply elem_of_nil in H|].
      intros (dirs & name & HF & _). by apply Found_dir_iff in HF as [Hne _].
    + rewrite (found_spec_list children IH (Path.join cur d) p). split.
      * intros (ds & name & HF & ->). exists (d :: ds), name. split; [|done].
        apply Found_dir_iff. split; [done|]. by exists ds.
      * intros (dirs & name & HF & ->). apply Found_dir_iff in HF as (_ & ds & -> & HF).
        by exists ds, name.
  - split; [intros H; by apply elem_of_nil in H|].
    intros (dirs & name & HF & _). by apply Found_symlink in HF.
  - split; [intros H; by apply elem_of_nil in H|].
    intros (dirs & name & HF & _). by apply Found_other in HF.
Qed.

(** The paths the walk meets are those of the eligible files. *)
Lemma found_under_Found entries :
  found_spec (fun cur => flat_map (found_under cur) entries) entries.
Proof. apply found_spec_list. apply Forall_forall. intros e _. apply found_spec_entry. Qed.

(** C1, as amended.  On every file tree, a sequence returned by
    discoverBruFiles is sorted by the POSIX-style relative path under the
    collation of the host ([localeCompare] under the default locale of
    the process: an order that depends on the locale, not the comparison
    of code units).  Its members are exactly the canonical paths of the
    eligible files: regular files with the suffix [.bru] reached from the
    root through directories only, none of them named [environments] in
    any letter case; a symbolic link is neither followed nor reported.
    Every member is a proper descendant of the canonical root.  If the
    canonical path of an eligible file is not one, the call fails with the
    discovery error; it fails in no other way, and returns a sequence
    whenever every eligible file passes the containment check. *)
Theorem discovery_is_sorted_and_contained (h : Host) (fs : FileSystem) (rootAbs : string) :
  Collation (localeCompare h) ->
  (forall results, discoverBruFiles h fs rootAbs = Ok results ->
     StronglySorted
       (fun a b => (localeCompare h (rel_posix h (realpath fs rootAbs) a)
                                    (rel_posix h (realpath fs rootAbs) b) <= 0)%Z) results
     /\ (forall r, r ∈ results <->
           exists dirs name, Found (root_entries fs) dirs name
             /\ r = realpath fs (entry_path (realpath fs rootAbs) dirs name))
     /\ (forall r, r ∈ results -> descendant (cwd h) (realpath fs rootAbs) r))
  /\ (forall dirs name, Found (root_entries fs) dirs name ->
       Forall (fun d => toLowerCase d <> "environments") dirs
       /\ endsWith ".bru" name = true)
  /\ (forall dirs name, Found (root_entries fs) dirs name ->
       ~ descendant (cwd h) (realpath fs rootAbs)
           (realpath fs (entry_path (realpath fs rootAbs) dirs name)) ->
       exists file, discoverBruFiles h fs rootAbs =
                    Throw (AppError E_DISCOVERY
                             ("Path traversal blocked for discovered file: " +:+ file)))
  /\ (forall e, discoverBruFiles h fs rootAbs = Throw e ->
       exists file, e = AppError E_DISCOVERY
                          ("Path traversal blocked for discovered file: " +:+ file))
  /\ ((forall dirs name, Found (root_entries fs) dirs name ->
        escapes (Path.relative (cwd h) (realpath fs rootAbs)
                   (realpath fs (entry_path (realpath fs rootAbs) dirs name))) = false) ->
      exists results, discoverBruFiles h fs rootAbs = Ok results).
Proof.
  intros Hcoll. set (root := realpath fs rootAbs).
  pose proof (walk_spec h fs root (root_entries fs) root []) as Hwalk.
  pose proof (found_under_Found (root_entries fs) root) as Hfound.
  unfold discoverBruFiles. fold root.
  destruct (walk h fs root root [] (root_entries fs)) as [err|res]; simpl.
  - destruct Hwalk as (p & Hp & Hc & ->).
    split; [discriminate|]. split; [apply Found_policy|]. split; [|split].
    + intros _ _ _ _. by exists p.
    + intros e [= <-]. by exists p.
    + intros Hall. apply Hfound in Hp as (dirs & name & HF & ->).
      unfold contained in Hc. rewrite (Hall dirs name HF) in Hc. discriminate.
  - destruct Hwalk as [-> Hall]. simpl.
    split; [|split; [apply Found_policy|split; [|split; [discriminate|by eexists]]]].
    + intros results [= <-].
      assert (forall r,
                r ∈ map (realpath fs) (flat_map (found_under root) (root_entries fs)) <->
                exists dirs name, Found (root_entries fs) dirs name
                  /\ r = realpath fs (entry_path root dirs name)) as Hmem.
      { intros r. rewrite list_elem_of_In, in_map_iff. split.
        - intros (p & <- & Hp). apply list_elem_of_In, Hfound in Hp as (dirs & name & HF & ->).
          by exists dirs, name.
        - intros (dirs & name & HF & ->). exists (entry_path root dirs name).
          split; [done|]. apply list_elem_of_In, Hfound. by exists dirs, name. }
      split; [by apply (SortFacts.sort_by_key_sorted (localeCompare h) (rel_posix h root))|].
      split.
      * intros r. by rewrite SortFacts.sort_by_elem.
      * intros r Hr. apply SortFacts.sort_by_elem in Hr.
        rewrite list_elem_of_In, in_map_iff in Hr. destruct Hr as (p & <- & Hp).
        rewrite Forall_forall in Hall. apply list_elem_of_In in Hp.
        specialize (Hall p Hp). unfold contained in Hall. apply negb_true_iff in Hall.
        by apply not_escapes_descendant.
    + intros dirs name HF Hout. exfalso. apply Hout.
      assert (entry_path root dirs name ∈ flat_map (found_under root) (root_entries fs)) as Hp
        by (apply Hfound; by exists dirs, name).
      rewrite Forall_forall in Hall. specialize (Hall _ Hp).
      unfold contained in Hall. apply negb_true_iff in Hall.
      by apply not_escapes_descendant.
Qed.

End DiscoverFacts.

(* ------------------------------------------------------------------ *)
(** ** The reference host                                               *)
(* ------------------------------------------------------------------ *)

Module ReferenceFacts.

Import Reference.

Definition before (a b : string) : Prop :=
  (Js.toLowerCase a = Js.toLowerCase b /\ String.le b a)
  \/ (Js.toLowerCase a <> Js.toLowerCase b /\ String.le (Js.toLowerCase a) (Js.toLowerCase b)).

Lemma collate_before a b : (collate a b <= 0)%Z <-> before a b.
Proof.
  unfold collate, before, String.le.
  destruct (decide (Js.toLowerCase a = Js.toLowerCase b)) as [E|E].
  - destruct (decide (a = b)) as [->|Hne].
    + split; [|lia]. intros _. left. split; [done|].
      apply Is_true_true. destruct (String.leb_total b b); done.
    + destruct (String.leb b a) eqn:L.
      * split; [|lia]. intros _. left. split; [done|]. by apply Is_true_true.
      * split; [lia|]. intros [[_ H]|[H _]]; [|done]. apply Is_true_true in H. congruence.
  - destruct (String.leb (Js.toLowerCase a) (Js.toLowerCase b)) eqn:L.
    + split; [|lia]. intros _. right. split; [done|]. by apply Is_true_true.
    + split; [lia|]. intros [[H _]|[_ H]]; [done|]. apply Is_true_true in H. congruence.
Qed.

Lemma collate_is_collation : Collation collate.
Proof.
  split.
  - intros a b. rewrite !collate_before. unfold before.
    destruct (decide (Js.toLowerCase a = Js.toLowerCase b)) as [E|E].
    + destruct (String.le_total b a) as [H|H]; [left|right]; left; done.
    + destruct (String.le_total (Js.toLowerCase a) (Js.toLowerCase b)) as [H|H];
        [left|right]; right; split; try done; congruence.
  - intros a b c. rewrite !collate_before. unfold before.
    intros [[E1 H1]|[E1 H1]] [[E2 H2]|[E2 H2]].
    + left. split; [congruence|]. by etrans.
    + right. rewrite E1. done.
    + right. rewrite <- E2. done.
    + right. split; [|by etrans].
      intros E3. apply E1. apply (anti_symm String.le); [done|]. by rewrite E3.
Qed.

End ReferenceFacts.

(* ------------------------------------------------------------------ *)
(** ** Prefixes and names                                               *)
(* ------------------------------------------------------------------ *)

Module PrefixFacts.

Import Js StringFacts Naming SanitizeFacts NamingFacts.

(** [[A-Za-z0-9]]. *)
Definition is_alnum (c : ascii) : bool := is_lower c || is_upper c || is_digit c.

(** The text holds a letter or a digit of ASCII. *)
Definition has_alnum (s : string) : bool :=
  negb (all_chars (fun c => negb (is_alnum c)) s).

(** The text is ASCII: on it the case conversions of this file are those
    of ECMAScript. *)
Definition is_ascii (s : string) : bool :=
  all_chars (fun c => (code c <? 128)%nat) s.

Lemma all_chars_ext (p q : ascii -> bool) s :
  (forall c, p c = q c) -> all_chars p s = all_chars q s.
Proof. intros H. induction s as [|c s IH]; simpl; [done|]. by rewrite H, IH. Qed.

Lemma all_chars_map_chars (q : ascii -> bool) f s :
  all_chars q (map_chars f s) = all_chars (fun c => q (f c)) s.
Proof. induction s as [|c s IH]; simpl; [done|]. by rewrite IH. Qed.

Lemma all_chars_app p a b : all_chars p (a +:+ b) = all_chars p a && all_chars p b.
Proof.
  induction a as [|c a IH]; [done|].
  rewrite app_cons. simpl. by rewrite IH, andb_assoc.
Qed.

Lemma drop_trailing_empty p s : drop_trailing p s = "" <-> all_chars p s = true.
Proof.
  induction s as [|c s IH]; simpl; [done|].
  destruct (drop_trailing p s) as [|d t] eqn:E.
  - destruct (p c); simpl.
    + split; [intros _; by apply IH|done].
    + split; discriminate.
  - split; [discriminate|]. intros H. apply andb_true_iff in H as [_ H].
    apply IH in H. discriminate.
Qed.

Lemma drop_leading_all_iff p s :
  all_chars p (drop_leading p s) = all_chars p s.
Proof.
  induction s as [|c s IH]; simpl; [done|].
  destruct (p c) eqn:E; simpl; [done|]. by rewrite E.
Qed.

Lemma strip_runs_empty p s : strip_runs p s = "" <-> all_chars p s = true.
Proof. unfold strip_runs. by rewrite drop_trailing_empty, drop_leading_all_iff. Qed.

Lemma replace_runs_go_underscores b s :
  all_chars is_underscore (replace_runs_go not_lower_alnum "_" b s)
  = all_chars not_lower_alnum s.
Proof.
  revert b. induction s as [|c s IH]; intros b; simpl; [done|].
  destruct (not_lower_alnum c) eqn:E.
  - destruct b; [by rewrite IH|].
    change ("_" +:+ replace_runs_go not_lower_alnum "_" true s)
      with (String underscore (replace_runs_go not_lower_alnum "_" true s)).
    simpl. by rewrite IH.
  - simpl. unfold not_lower_alnum in E. apply negb_false_iff in E.
    by rewrite (lower_alnum_not_underscore c E).
Qed.

Lemma lower_char_alnum c : not_lower_alnum (lower_char c) = negb (is_alnum c).
Proof.
  destruct c as [b0 b1 b2 b3 b4 b5 b6 b7].
  destruct b0, b1, b2, b3, b4, b5, b6, b7; reflexivity.
Qed.

(** The sanitized text is empty exactly when the input holds no letter
    and no digit. *)
Lemma sanitizeSegment_empty s : sanitizeSegment s = "" <-> has_alnum s = false.
Proof.
  change (sanitizeSegment s) with (sanitize_with toLowerCase s).
  rewrite sanitize_with_unfold, strip_runs_empty.
  unfold replace_runs. rewrite replace_runs_go_underscores.
  unfold toLowerCase. rewrite all_chars_map_chars.
  rewrite (all_chars_ext _ (fun c => negb (is_alnum c))) by apply lower_char_alnum.
  unfold has_alnum. by rewrite negb_false_iff.
Qed.

Lemma length_pos s : (0 <? String.length s)%nat = truthy s.
Proof. by destruct s. Qed.

Lemma truthy_false s : truthy s = false <-> s = "".
Proof. by destruct s. Qed.

Lemma Clean_pattern s : Clean s -> s <> "" -> TOOL_NAME_PATTERN s = true.
Proof.
  intros [Hc _ _ _] Hne. unfold TOOL_NAME_PATTERN. rewrite Hc.
  destruct s; [done|done].
Qed.

Definition prefix_is_empty : Error :=
  AppError E_ARGS
    "Prefix is empty after sanitization. Provide at least one alphanumeric character.".

Lemma sanitizePrefix_cases input :
  (sanitizeSegment input <> "" /\ sanitizePrefix input = Ok (sanitizeSegment input))
  \/ (sanitizeSegment input = "" /\ sanitizePrefix input = Throw prefix_is_empty).
Proof.
  unfold sanitizePrefix. rewrite length_pos.
  destruct (sanitizeSegment input) eqn:E; [right|left]; done.
Qed.

(** X1.  A prefix is accepted when the input holds a letter or a digit of
    ASCII, and it is then the sanitized input, a name matching
    [/^[a-z0-9_]+$/]; an ASCII input that holds none is refused with the
    code E_ARGS. *)
Theorem sanitizePrefix_needs_an_alphanumeric (input : string) :
  (has_alnum input = true ->
     sanitizePrefix input = Ok (sanitizeSegment input)
     /\ sanitizeSegment input <> ""
     /\ TOOL_NAME_PATTERN (sanitizeSegment input) = true)
  /\ (is_ascii input = true -> has_alnum input = false ->
     sanitizePrefix input = Throw prefix_is_empty).
Proof.
  split.
  - intros H. destruct (sanitizePrefix_cases input) as [[Hne ->]|[He _]].
    + split; [done|]. split; [done|]. apply Clean_pattern; [apply sanitizeSegment_clean|done].
    + apply sanitizeSegment_empty in He. congruence.
  - intros _ H. destruct (sanitizePrefix_cases input) as [[Hne _]|[_ ->]]; [|done].
    apply sanitizeSegment_empty in H. done.
Qed.

Lemma sanitizePrefix_ok input v :
  sanitizePrefix input = Ok v -> v = sanitizeSegment input /\ v <> "".
Proof.
  destruct (sanitizePrefix_cases input) as [[Hne ->]|[_ ->]]; [|discriminate].
  intros [= <-]. done.
Qed.

(** The text derivePrefix sanitizes: the argument when it is given and
    not empty, the base name of the collection root otherwise. *)
Definition prefix_source (prefixArg : option string) (collectionRootAbs : string) : string :=
  match prefixArg with
  | Some p => if truthy p then p else Path.basename collectionRootAbs
  | None => Path.basename collectionRootAbs
  end.

Lemma derivePrefix_source prefixArg root :
  derivePrefix prefixArg root = sanitizePrefix (prefix_source prefixArg root).
Proof. unfold derivePrefix, prefix_source. destruct prefixArg as [p|]; [by destruct (truthy p)|done]. Qed.

Lemma derivePrefix_ok prefixArg root v :
  derivePrefix prefixArg root = Ok v -> Clean v /\ TOOL_NAME_PATTERN v = true.
Proof.
  rewrite derivePrefix_source. intros H. apply sanitizePrefix_ok in H as [-> Hne].
  split; [apply sanitizeSegment_clean|].
  apply Clean_pattern; [apply sanitizeSegment_clean|done].
Qed.

(** X2.  A prefix derivePrefix returns is the sanitized form of its source,
    the explicit argument when there is one and it is not empty and the base
    name of the root otherwise (an empty argument counts as none); it is a
    valid tool name by itself; sanitizing it again changes nothing; and the
    only failure is the error of an empty prefix. *)
Theorem derivePrefix_yields_a_valid_name (prefixArg : option string) (root : string) :
  (forall v, derivePrefix prefixArg root = Ok v ->
     v = sanitizeSegment (prefix_source prefixArg root)
     /\ validateToolName v = Ok v
     /\ sanitizePrefix v = Ok v)
  /\ (forall e, derivePrefix prefixArg root = Throw e -> e = prefix_is_empty)
  /\ derivePrefix (Some "") root = derivePrefix None root.
Proof.
  split; [|split; [|done]].
  - intros v Hv. pose proof (derivePrefix_ok _ _ _ Hv) as [Hclean Hpat].
    rewrite derivePrefix_source in Hv. apply sanitizePrefix_ok in Hv as [-> Hne].
    split; [done|]. split.
    + unfold validateToolName. rewrite length_pos, Hpat.
      destruct (sanitizeSegment (prefix_source prefixArg root)); done.
    + destruct (sanitizePrefix_cases (sanitizeSegment (prefix_source prefixArg root)))
        as [[_ ->]|[He _]].
      * by rewrite (sanitizeSegment_fixes _ Hclean).
      * by rewrite (sanitizeSegment_fixes _ Hclean) in He.
  - intros e. rewrite derivePrefix_source.
    destruct (sanitizePrefix_cases (prefix_source prefixArg root)) as [[_ ->]|[_ ->]];
      [discriminate|]. by intros [= <-].
Qed.

(** *** Names built from a relative path *)

Lemma all_chars_join p sep xs :
  all_chars p sep = true -> Forall (fun x => all_chars p x = true) xs ->
  all_chars p (join sep xs) = true.
Proof.
  intros Hsep. induction 1 as [|x xs Hx _ IH]; [done|].
  destruct xs as [|y ys]; [done|].
  change (join sep (x :: y :: ys)) with (x +:+ sep +:+ join sep (y :: ys)).
  by rewrite !all_chars_app, Hx, Hsep, IH.
Qed.

Lemma assert_segments_cases rel segs :
  (Forall (fun s => s <> "") segs /\ assert_segments rel segs = Ok tt)
  \/ (Exists (fun s => s = "") segs
      /\ assert_segments rel segs = Throw (AppError E_NAMING ("Invalid path segment in " +:+ rel))).
Proof.
  induction segs as [|s segs IH]; [left; done|].
  simpl. rewrite length_pos. destruct s as [|c s]; simpl.
  - right. split; [by left|done].
  - destruct IH as [[H ->]|[H ->]]; [left|right]; split; try done.
    + by constructor.
    + by right.
Qed.

Lemma path_segments_clean rel : Forall Clean (path_segments rel).
Proof.
  unfold path_segments. apply Forall_forall. intros s Hs.
  apply list_elem_of_In, in_map_iff in Hs as (x & <- & _). apply sanitizeSegment_clean.
Qed.

Definition invalid_segment (rel : string) : Error :=
  AppError E_NAMING ("Invalid path segment in " +:+ rel).

Lemma buildToolName_cases prefix rel :
  TOOL_NAME_PATTERN prefix = true ->
  (Forall (fun s => s <> "") (path_segments rel)
   /\ buildToolNameFromRelativePath prefix rel
      = Ok (prefix +:+ "_" +:+ join "_" (path_segments rel)))
  \/ (Exists (fun s => s = "") (path_segments rel)
      /\ buildToolNameFromRelativePath prefix rel = Throw (invalid_segment rel)).
Proof.
  intros Hp.
  assert (validateToolName (prefix +:+ "_" +:+ join "_" (path_segments rel))
          = Ok (prefix +:+ "_" +:+ join "_" (path_segments rel))) as Hvalid.
  { unfold validateToolName, TOOL_NAME_PATTERN in *.
    apply andb_true_iff in Hp as [Hne Hall].
    rewrite length_pos.
    assert (truthy (prefix +:+ "_" +:+ join "_" (path_segments rel)) = true) as ->
      by (destruct prefix; done).
    simpl. rewrite !all_chars_app, Hall. simpl.
    rewrite all_chars_join; [done|done|].
    eapply Forall_impl; [apply path_segments_clean|]. by intros s [Hc _ _ _]. }
  unfold buildToolNameFromRelativePath.
  destruct (assert_segments_cases rel (path_segments rel)) as [[Hall ->]|[Hex ->]]; simpl.
  - left. by rewrite Hvalid.
  - by right.
Qed.

(** X3.  Under a prefix that is a valid name, the name of a relative path is
    the prefix, an underscore and the sanitized segments joined by
    underscores, whenever every segment holds a letter or a digit; when one
    does not, the call fails with the code E_NAMING. The validation of the
    resulting name never fails. *)
Theorem tool_name_under_a_valid_prefix (prefix rel : string) :
  TOOL_NAME_PATTERN prefix = true ->
  (Forall (fun s => s <> "") (path_segments rel) ->
     buildToolNameFromRelativePath prefix rel
     = Ok (prefix +:+ "_" +:+ join "_" (path_segments rel)))
  /\ (Exists (fun s => s = "") (path_segments rel) ->
     buildToolNameFromRelativePath prefix rel = Throw (invalid_segment rel))
  /\ (forall e, buildToolNameFromRelativePath prefix rel = Throw e -> e = invalid_segment rel).
Proof.
  intros Hp. destruct (buildToolName_cases prefix rel Hp) as [[Hall ->]|[Hex ->]].
  - split; [done|]. split; [|discriminate].
    intros Hex. apply Exists_exists in Hex as (s & Hs & ->).
    rewrite Forall_forall in Hall. by specialize (Hall _ Hs).
  - split; [|split; [done|by intros e [= <-]]].
    intros Hall. apply Exists_exists in Hex as (s & Hs & ->).
    rewrite Forall_forall in Hall. by specialize (Hall _ Hs).
Qed.

End PrefixFacts.

(* ------------------------------------------------------------------ *)
(** ** Template variables                                               *)
(* ------------------------------------------------------------------ *)

Module TemplateFacts.

Import Js StringFacts Naming SanitizeFacts PrefixFacts.

(** *** Prefixes of a string *)

Lemma startsWith_app p s : startsWith p (p +:+ s) = true.
Proof.
  induction p as [|c p IH]; [done|]. rewrite app_cons. simpl.
  destruct (decide (c = c)); done.
Qed.

Lemma startsWith_inv p s : startsWith p s = true -> exists t, s = p +:+ t.
Proof.
  revert s. induction p as [|c p IH]; intros s H; [by exists s|].
  destruct s as [|d s]; [done|]. simpl in H.
  destruct (decide (c = d)) as [->|]; [|done].
  apply IH in H as [t ->]. by exists t.
Qed.

Lemma substring_all s : String.substring 0 (String.length s) s = s.
Proof. induction s as [|c s IH]; [done|]. simpl. by rewrite IH. Qed.

Lemma substring_skip n a s :
  String.substring (String.length a) n (a +:+ s) = String.substring 0 n s.
Proof. induction a as [|c a IH]; [done|]. rewrite app_cons. simpl. apply IH. Qed.

(** [s.slice(k)] of a string that begins with [a] of length [k]. *)
Lemma substring_rest a s :
  String.substring (String.length a) (String.length (a +:+ s) - String.length a) (a +:+ s) = s.
Proof.
  rewrite substring_skip, length_app.
  replace (String.length a + String.length s - String.length a)%nat
    with (String.length s) by lia.
  apply substring_all.
Qed.

Lemma take_drop p s : s = take_while p s +:+ drop_leading p s.
Proof.
  induction s as [|c s IH]; [done|]. simpl.
  destruct (p c); [|done]. rewrite app_cons. by rewrite <- IH.
Qed.

Lemma take_while_all p s : all_chars p (take_while p s) = true.
Proof. induction s as [|c s IH]; [done|]. simpl. destruct (p c) eqn:E; [|done]. simpl. by rewrite E. Qed.

Lemma take_while_app p a b :
  all_chars p a = true -> first_is p b = false -> take_while p (a +:+ b) = a.
Proof.
  intros Ha Hb. induction a as [|c a IH].
  - rewrite app_nil_l. destruct b as [|d b]; [done|]. simpl in *. by rewrite Hb.
  - rewrite app_cons. simpl in *. apply andb_true_iff in Ha as [-> Ha]. by rewrite IH.
Qed.

Lemma drop_leading_app p a b :
  all_chars p a = true -> first_is p b = false -> drop_leading p (a +:+ b) = b.
Proof.
  intros Ha Hb. induction a as [|c a IH].
  - rewrite app_nil_l. by apply drop_leading_id.
  - rewrite app_cons. simpl in *. apply andb_true_iff in Ha as [-> Ha]. by apply IH.
Qed.

Lemma first_is_app_nonempty p a b : a <> "" -> first_is p (a +:+ b) = first_is p a.
Proof. destruct a; [done|]. intros _. by rewrite app_cons. Qed.

(** *** The shape of a placeholder *)

(** [{{], optional white space, a name over [[a-zA-Z0-9_.-]], optional
    white space, [}}]. *)
Definition placeholder (ws1 name ws2 : string) : string :=
  "{{" +:+ ws1 +:+ name +:+ ws2 +:+ "}}".

Record Shape (ws1 name ws2 : string) : Prop := {
  shape_before : all_chars is_space ws1 = true;
  shape_name : all_chars is_var_char name = true;
  shape_named : name <> "";
  shape_after : all_chars is_space ws2 = true
}.

(** The text holds a placeholder for [name]. *)
Definition Occurs (name content : string) : Prop :=
  exists pre ws1 ws2 post,
    Shape ws1 name ws2 /\ content = pre +:+ placeholder ws1 name ws2 +:+ post.

(** The three classes of the pattern and the two braces are disjoint. *)
Lemma var_char_not_space c : is_var_char c = true -> is_space c = false.
Proof.
  destruct c as [b0 b1 b2 b3 b4 b5 b6 b7].
  destruct b0, b1, b2, b3, b4, b5, b6, b7; (reflexivity || discriminate).
Qed.

Definition open_brace : ascii := "{"%char.
Definition close_brace : ascii := "}"%char.

Definition is_inner (c : ascii) : bool := negb (is_char open_brace c).

Lemma space_inner c : is_space c = true -> is_inner c = true.
Proof.
  destruct c as [b0 b1 b2 b3 b4 b5 b6 b7].
  destruct b0, b1, b2, b3, b4, b5, b6, b7; (reflexivity || discriminate).
Qed.

Lemma var_char_inner c : is_var_char c = true -> is_inner c = true.
Proof.
  destruct c as [b0 b1 b2 b3 b4 b5 b6 b7].
  destruct b0, b1, b2, b3, b4, b5, b6, b7; (reflexivity || discriminate).
Qed.

Lemma first_var_not_space name t :
  all_chars is_var_char name = true -> name <> "" -> first_is is_space (name +:+ t) = false.
Proof.
  intros Hall Hne. rewrite first_is_app_nonempty by done.
  destruct name as [|c name]; [done|]. simpl in *.
  apply andb_true_iff in Hall as [Hc _]. by apply var_char_not_space.
Qed.

Lemma first_after_name ws2 t :
  all_chars is_space ws2 = true -> first_is is_var_char (ws2 +:+ "}}" +:+ t) = false.
Proof.
  intros Hall. destruct ws2 as [|c ws2]; [done|].
  rewrite app_cons. simpl in *. apply andb_true_iff in Hall as [Hc _].
  destruct (is_var_char c) eqn:E; [|done]. apply var_char_not_space in E. congruence.
Qed.

Lemma placeholder_length ws1 name ws2 :
  String.length (placeholder ws1 name ws2)
  = (4 + String.length ws1 + String.length name + String.length ws2)%nat.
Proof. unfold placeholder. rewrite !length_app. simpl. lia. Qed.

(** The pattern matches at the start of a text exactly when the text
    begins with a placeholder, and then in one way only. *)
Lemma match_placeholder_complete ws1 name ws2 rest :
  Shape ws1 name ws2 ->
  match_placeholder (placeholder ws1 name ws2 +:+ rest)
  = Some (name, String.length (placeholder ws1 name ws2)).
Proof.
  intros [H1 Hn Hne H2]. unfold match_placeholder. cbv zeta.
  set (body := ws1 +:+ name +:+ ws2 +:+ "}}" +:+ rest).
  assert (placeholder ws1 name ws2 +:+ rest = "{{" +:+ body) as Hs
    by (unfold placeholder, body; by rewrite !app_assoc).
  rewrite Hs, startsWith_app.
  rewrite (substring_rest "{{" body
             : String.substring 2 (String.length ("{{" +:+ body) - 2) _ = _).
  unfold body.
  rewrite (drop_leading_app is_space ws1) by (done || by apply first_var_not_space).
  rewrite (take_while_app is_var_char name) by (done || by apply first_after_name).
  rewrite (drop_leading_app is_var_char name) by (done || by apply first_after_name).
  rewrite (drop_leading_app is_space ws2) by done.
  rewrite startsWith_app.
  assert (truthy name = true) as -> by (by destruct name).
  simpl andb. cbv iota. f_equal. f_equal.
  rewrite placeholder_length. rewrite !length_app. simpl. lia.
Qed.

Lemma match_placeholder_sound s name len :
  match_placeholder s = Some (name, len) ->
  exists ws1 ws2 rest,
    Shape ws1 name ws2 /\ s = placeholder ws1 name ws2 +:+ rest
    /\ len = String.length (placeholder ws1 name ws2).
Proof.
  unfold match_placeholder. cbv zeta. destruct (startsWith "{{" s) eqn:Hopen; [|done].
  apply startsWith_inv in Hopen as [s1 ->].
  rewrite (substring_rest "{{" s1
             : String.substring 2 (String.length ("{{" +:+ s1) - 2) _ = _).
  set (ws1 := take_while is_space s1).
  set (s2 := drop_leading is_space s1).
  set (nm := take_while is_var_char s2).
  set (s3 := drop_leading is_var_char s2).
  set (ws2 := take_while is_space s3).
  set (s4 := drop_leading is_space s3).
  destruct (truthy nm) eqn:Hnm; [|done]. cbn [andb].
  destruct (startsWith "}}" s4) eqn:Hclose; [|done].
  apply startsWith_inv in Hclose as [rest Hrest].
  intros [= <- <-]. exists ws1, ws2, rest.
  assert (s1 = ws1 +:+ nm +:+ ws2 +:+ "}}" +:+ rest) as Hs1.
  { rewrite <- Hrest. unfold ws1, nm, ws2, s4, s3, s2.
    rewrite <- !take_drop. done. }
  split; [|split].
  - split; try apply take_while_all. by destruct nm.
  - unfold placeholder. rewrite Hs1. by rewrite !app_assoc.
  - rewrite placeholder_length, Hrest, Hs1, !length_app. simpl. lia.
Qed.

(** No placeholder begins inside another one. *)
Lemma inner_before_brace body rest pre tail_ :
  all_chars is_inner body = true ->
  body +:+ rest = pre +:+ String open_brace tail_ ->
  (String.length body <= String.length pre)%nat.
Proof.
  revert pre. induction body as [|b body IH]; intros pre Hall E; [simpl; lia|].
  simpl in Hall. apply andb_true_iff in Hall as [Hb Hall].
  destruct pre as [|c pre].
  - rewrite app_nil_l, app_cons in E. injection E as -> _. done.
  - rewrite !app_cons in E. injection E as _ E. simpl. apply IH in E; [lia|done].
Qed.

Lemma placeholders_apart ws1 name ws2 rest pre tail_ :
  Shape ws1 name ws2 -> pre <> "" ->
  placeholder ws1 name ws2 +:+ rest = pre +:+ "{{" +:+ tail_ ->
  (String.length (placeholder ws1 name ws2) <= String.length pre)%nat.
Proof.
  intros [H1 Hn Hne H2] Hpre E.
  set (body := ws1 +:+ name +:+ ws2).
  assert (all_chars is_inner body = true) as Hbody.
  { unfold body. rewrite !all_chars_app.
    rewrite (all_chars_impl _ _ _ space_inner H1), (all_chars_impl _ _ _ var_char_inner Hn).
    by rewrite (all_chars_impl _ _ _ space_inner H2). }
  assert (body <> "") as Hbne.
  { unfold body. destruct ws1; [|done]. rewrite app_nil_l. by destruct name. }
  assert (placeholder ws1 name ws2 +:+ rest
          = String open_brace (String open_brace (body +:+ "}}" +:+ rest))) as Hs
    by (unfold placeholder, body; by rewrite !app_assoc).
  assert (String.length (placeholder ws1 name ws2) = (2 + String.length body + 2)%nat) as Hlen
    by (rewrite placeholder_length; unfold body; rewrite !length_app; lia).
  rewrite Hs in E. rewrite Hlen.
  destruct pre as [|c pre]; [done|]. rewrite app_cons in E. injection E as _ E.
  destruct pre as [|c' pre].
  - rewrite app_nil_l in E. change ("{{" +:+ tail_) with (String open_brace (String open_brace tail_)) in E.
    injection E as E. destruct body as [|b body]; [done|].
    rewrite app_cons in E. injection E as -> _. done.
  - rewrite app_cons in E. injection E as _ E.
    assert (all_chars is_inner (body +:+ "}}") = true) as Hall
      by (rewrite all_chars_app, Hbody; done).
    change ("{{" +:+ tail_) with (String open_brace (String open_brace tail_)) in E.
    assert ((body +:+ "}}") +:+ rest = pre +:+ String open_brace (String open_brace tail_))
      as E' by (rewrite app_assoc; exact E).
    apply (inner_before_brace _ _ _ _ Hall) in E'. rewrite length_app in E'. simpl in *. lia.
Qed.

(** *** The scan *)

Lemma scan_keeps s : forall skip found x,
  x ∈ found -> x ∈ scan_placeholders skip found s.
Proof.
  induction s as [|c s IH]; intros skip found x Hx; [done|]. simpl.
  destruct skip as [|k]; [|by apply IH].
  destruct (match_placeholder (String c s)) as [[v len]|]; [|by apply IH].
  apply IH. destruct (decide (v ∈ found)); [done|]. apply elem_of_app. by left.
Qed.

Lemma scan_complete pre : forall skip found name ws1 ws2 post,
  Shape ws1 name ws2 -> (skip <= String.length pre)%nat ->
  name ∈ scan_placeholders skip found (pre +:+ placeholder ws1 name ws2 +:+ post).
Proof.
  induction pre as [|c pre IH]; intros skip found name ws1 ws2 post Hshape Hskip.
  - rewrite app_nil_l. simpl in Hskip. assert (skip = 0%nat) as -> by lia.
    pose proof (match_placeholder_complete ws1 name ws2 post Hshape) as Hm.
    destruct (placeholder ws1 name ws2 +:+ post) as [|d s] eqn:Es.
    { unfold placeholder in Es. rewrite !app_assoc in Es. done. }
    simpl scan_placeholders. rewrite Hm.
    apply scan_keeps. destruct (decide (name ∈ found)); [done|].
    apply elem_of_app. right. apply list_elem_of_singleton. done.
  - rewrite app_cons. simpl scan_placeholders. simpl in Hskip.
    destruct skip as [|k]; [|apply IH; [done|lia]].
    destruct (match_placeholder (String c (pre +:+ placeholder ws1 name ws2 +:+ post)))
      as [[v len]|] eqn:Hm; [|apply IH; [done|lia]].
    apply IH; [done|].
    apply match_placeholder_sound in Hm as (w1 & w2 & rest & Hsh & E & ->).
    assert (String.length (placeholder w1 v w2) <= String.length (String c pre))%nat as Hle.
    { apply (placeholders_apart w1 v w2 rest (String c pre)
               (ws1 +:+ name +:+ ws2 +:+ "}}" +:+ post) Hsh); [done|].
      rewrite <- E. rewrite app_cons. unfold placeholder. by rewrite !app_assoc. }
    change (String.length (String c pre)) with (S (String.length pre)) in Hle. lia.
Qed.

Lemma scan_sound s : forall pre skip found content x,
  content = pre +:+ s ->
  x ∈ scan_placeholders skip found s -> x ∈ found \/ Occurs x content.
Proof.
  induction s as [|c s IH]; intros pre skip found content x Hc Hx; [by left|].
  assert (content = (pre +:+ String c "") +:+ s) as Hc'
    by (by rewrite Hc, app_assoc).
  simpl in Hx. destruct skip as [|k]; [|by apply (IH _ _ _ _ _ Hc' Hx)].
  destruct (match_placeholder (String c s)) as [[v len]|] eqn:Hm;
    [|by apply (IH _ _ _ _ _ Hc' Hx)].
  apply (IH _ _ _ _ _ Hc') in Hx as [Hx|Hx]; [|by right].
  destruct (decide (v ∈ found)); [by left|].
  apply elem_of_app in Hx as [Hx|Hx]; [by left|].
  apply list_elem_of_singleton in Hx as ->. right.
  apply match_placeholder_sound in Hm as (w1 & w2 & rest & Hsh & E & _).
  exists pre, w1, w2, rest. split; [done|]. by rewrite Hc, E.
Qed.

Lemma scan_NoDup s : forall skip found,
  NoDup found -> NoDup (scan_placeholders skip found s).
Proof.
  induction s as [|c s IH]; intros skip found Hnd; [done|]. simpl.
  destruct skip as [|k]; [|by apply IH].
  destruct (match_placeholder (String c s)) as [[v len]|]; [|by apply IH].
  apply IH. destruct (decide (v ∈ found)) as [|Hv]; [done|].
  apply NoDup_app. split; [done|]. split; [|apply NoDup_singleton].
  intros x Hx Hx'. apply list_elem_of_singleton in Hx' as ->. done.
Qed.

(** X4.  For an ASCII content (outside ASCII the class [\s] of ECMAScript
    has more characters than the white space of this file): the template
    variables are exactly the names for which the content holds a
    placeholder, two braces, optional white space, the name, optional white
    space and two braces, wherever it stands. *)
Theorem template_variables_are_the_placeholders (h : Host) (content name : string) :
  is_ascii content = true ->
  (name ∈ template_variables_of h content <-> Occurs name content).
Proof.
  intros _. unfold template_variables_of. rewrite SortFacts.sort_by_elem. split.
  - intros H. apply (scan_sound content "" 0 [] content name) in H as [H|H]; [|done|done].
    by apply elem_of_nil in H.
  - intros (pre & ws1 & ws2 & post & Hshape & ->).
    apply scan_complete; [done|lia].
Qed.

(** X5.  The list of template variables holds no name twice; every name is
    not empty and made of [[a-zA-Z0-9_.-]]; and under a collation the list
    is sorted by it. *)
Theorem template_variables_are_sorted_names (h : Host) (content : string) :
  Collation (localeCompare h) ->
  NoDup (template_variables_of h content)
  /\ Forall (fun v => v <> "" /\ all_chars is_var_char v = true) (template_variables_of h content)
  /\ StronglySorted (fun a b => (localeCompare h a b <= 0)%Z) (template_variables_of h content).
Proof.
  intros Hcoll. unfold template_variables_of. split; [|split].
  - rewrite (SortFacts.sort_by_perm (localeCompare h) (scan_placeholders 0 [] content)).
    apply scan_NoDup. constructor.
  - apply SortFacts.sort_by_Forall. apply Forall_forall. intros v Hv.
    apply (scan_sound content "" 0 [] content v) in Hv as [Hv|Hv]; [| |done].
    + by apply elem_of_nil in Hv.
    + destruct Hv as (_ & ws1 & ws2 & _ & [_ Hn Hne _] & _). done.
  - apply (SortFacts.sort_by_key_sorted (localeCompare h) (fun a => a)). done.
Qed.

End TemplateFacts.

(* ------------------------------------------------------------------ *)
(** ** What a registry records                                          *)
(* ------------------------------------------------------------------ *)

Module RegistryFacts.

Import Js StringFacts Naming SanitizeFacts NamingFacts PrefixFacts TemplateFacts.

(** The collection metadata file, which the loop passes over. *)
Definition is_metadata (h : Host) (root file : string) : bool :=
  if decide (toLowerCase (Path.basename (Path.relative (cwd h) root file)) = "collection.bru")
  then true else false.

(** What the loop records for a request file. *)
Record Registered (h : Host) (root prefix : string) (e : string * ToolTarget) : Prop := {
  reg_key : e.1 = toolName e.2;
  reg_root : collectionRootAbs e.2 = root;
  reg_inside : escapes (Path.relative (cwd h) root (bruFileAbs e.2)) = false;
  reg_request : is_metadata h root (bruFileAbs e.2) = false;
  reg_name :
    buildToolNameFromRelativePath prefix (Path.relative (cwd h) root (bruFileAbs e.2))
    = Ok (toolName e.2);
  reg_path :
    requestPathNoExt e.2 = to_posix (strip_bru (Path.relative (cwd h) root (bruFileAbs e.2)));
  reg_read :
    exists content,
      readFile h (bruFileAbs e.2) = Some content
      /\ templateVars e.2 = template_variables_of h content
      /\ docs e.2 = extractDocsFromBruContent content;
  reg_env : requiresEnv e.2 = is_nonempty (templateVars e.2)
}.

Lemma read_vars_and_docs_ok h file vd :
  read_vars_and_docs h file = Ok vd ->
  exists content, readFile h file = Some content
    /\ vd = (template_variables_of h content, extractDocsFromBruContent content).
Proof.
  unfold read_vars_and_docs, extractTemplateVariables, extractDocsFromBruFile.
  destruct (readFile h file) as [content|]; [|discriminate]. simpl.
  intros [= <-]. by exists content.
Qed.

Lemma map_has_false m k : map_has m k = false <-> k ∉ map fst m.
Proof.
  unfold map_has. induction m as [|[k' t] m IH]; simpl.
  - split; [intros _; apply not_elem_of_nil|done].
  - rewrite not_elem_of_cons. destruct (decide (k' = k)) as [->|Hne]; simpl.
    + split; [done|]. intros [H _]. done.
    + rewrite IH. split; [intros H; split; [congruence|done]|by intros [_ H]].
Qed.

(** The loop appends one entry for every request file of the list, in
    the order of the list, under keys that are new. *)
Lemma collect_spec h root prefix files : forall m m',
  collect h root prefix m files = Ok m' ->
  exists new,
    m' = m ++ new
    /\ Forall (Registered h root prefix) new
    /\ map (fun e => bruFileAbs e.2) new = filter (fun f => is_metadata h root f = false) files
    /\ Forall (fun f => escapes (Path.relative (cwd h) root f) = false) files
    /\ NoDup (map fst new)
    /\ (forall k, k ∈ map fst new -> k ∉ map fst m).
Proof.
  induction files as [|f files IH]; intros m m' H; simpl in H.
  - injection H as <-. exists []. rewrite List.app_nil_r.
    repeat split; try done; try constructor. intros k Hk. by apply elem_of_nil in Hk.
  - destruct (escapes (Path.relative (cwd h) root f)) eqn:Hesc; [discriminate|].
    destruct (decide (toLowerCase (Path.basename (Path.relative (cwd h) root f))
                      = "collection.bru")) as [Hmeta|Hmeta].
    + apply IH in H as (new & -> & Hreg & Hfiles & Hin & Hnd & Hfresh).
      exists new. repeat split; try done; [|by constructor].
      rewrite filter_cons_False; [done|]. unfold is_metadata.
      destruct (decide _); done.
    + destruct (buildToolNameFromRelativePath prefix (Path.relative (cwd h) root f))
        as [e|n] eqn:Hname; [discriminate|]. simpl in H.
      destruct (map_has m n) eqn:Hhas; [discriminate|].
      destruct (read_vars_and_docs h f) as [e|vd] eqn:Hread; [discriminate|]. simpl in H.
      apply read_vars_and_docs_ok in Hread as (content & Hcontent & ->).
      apply IH in H as (new & -> & Hreg & Hfiles & Hin & Hnd & Hfresh).
      eexists (_ :: new). split; [by rewrite <- List.app_assoc|].
      assert (is_metadata h root f = false) as Hf
        by (unfold is_metadata; destruct (decide _); done).
      split; [|split; [|split; [|split]]].
      * constructor; [|done]. split; simpl; try done. by exists content.
      * simpl. rewrite filter_cons_True by done. by rewrite Hfiles.
      * by constructor.
      * simpl. constructor; [|done]. intros Hn. apply Hfresh in Hn.
        apply Hn. rewrite map_app. apply elem_of_app. right. simpl. apply list_elem_of_here.
      * intros k Hk. simpl in Hk. apply elem_of_cons in Hk as [->|Hk].
        -- by apply map_has_false.
        -- apply Hfresh in Hk. rewrite map_app in Hk. intros Hm. apply Hk.
           apply elem_of_app. by left.
Qed.

(** A registry in terms of the list it was built from. *)
Lemma buildCollectionToolMap_spec h files root prefix m :
  buildCollectionToolMap h files root prefix = Ok m ->
  exists new,
    m ≡ₚ new
    /\ Forall (Registered h root prefix) new
    /\ map (fun e => bruFileAbs e.2) new = filter (fun f => is_metadata h root f = false) files
    /\ Forall (fun f => escapes (Path.relative (cwd h) root f) = false) files
    /\ NoDup (map fst new).
Proof.
  unfold buildCollectionToolMap.
  destruct (collect h root prefix [] files) as [e|m0] eqn:Hc; [discriminate|]. simpl.
  intros [= <-]. apply collect_spec in Hc as (new & -> & Hreg & Hfiles & Hin & Hnd & _).
  exists new. split; [apply SortFacts.sort_by_perm|done].
Qed.

(** X6.  The keys of a registry built from a collection are pairwise
    distinct, and under a collation its entries are in the order of their
    keys: the order in which the tools are listed. *)
Theorem registry_keys_are_distinct_and_sorted (h : Host) (files : list string)
  (root prefix : string) (m : ToolMap) :
  Collation (localeCompare h) ->
  buildCollectionToolMap h files root prefix = Ok m ->
  NoDup (map fst m)
  /\ StronglySorted (fun a b => (localeCompare h a.1 b.1 <= 0)%Z) m
  /\ map Mcp.name (Mcp.listTools m) = map fst m.
Proof.
  intros Hcoll Hm.
  pose proof (buildCollectionToolMap_spec _ _ _ _ _ Hm) as (new & Hperm & Hreg & _ & _ & Hnd).
  split; [|split].
  - change (map fst m) with (fst <$> m). rewrite Hperm. done.
  - unfold buildCollectionToolMap in Hm.
    destruct (collect h root prefix [] files) as [e|m0]; [discriminate|].
    injection Hm as <-.
    apply (SortFacts.sort_by_key_sorted (localeCompare h) (fun a : string * ToolTarget => a.1)).
    done.
  - unfold Mcp.listTools. rewrite map_map. simpl.
    assert (Forall (Registered h root prefix) m) as Hall by (by rewrite Hperm).
    clear -Hall. induction Hall as [|e m He _ IH]; [done|].
    simpl. rewrite IH. f_equal. symmetry. apply He.
Qed.

(** X7.  Every request file of the list becomes exactly one tool and nothing
    else is registered: the files of the targets are, up to order, the
    listed files without the collection metadata files.  Every listed file
    lies below the root. *)
Theorem every_request_file_becomes_one_tool (h : Host) (files : list string)
  (root prefix : string) (m : ToolMap) :
  buildCollectionToolMap h files root prefix = Ok m ->
  map (fun e => bruFileAbs e.2) m ≡ₚ filter (fun f => is_metadata h root f = false) files
  /\ length m = length (filter (fun f => is_metadata h root f = false) files)
  /\ Forall (fun f => escapes (Path.relative (cwd h) root f) = false) files.
Proof.
  intros Hm.
  pose proof (buildCollectionToolMap_spec _ _ _ _ _ Hm) as (new & Hperm & _ & Hfiles & Hin & _).
  assert (map (fun e : string * ToolTarget => bruFileAbs e.2) m
          ≡ₚ filter (fun f => is_metadata h root f = false) files) as H.
  { rewrite <- Hfiles.
    change (map (fun e : string * ToolTarget => bruFileAbs e.2) m)
      with ((fun e : string * ToolTarget => bruFileAbs e.2) <$> m).
    by rewrite Hperm. }
  split; [done|]. split; [|done].
  apply Permutation_length in H. by rewrite length_map in H.
Qed.

(** X8.  A target of a registry built from a collection describes its file:
    the file is one of the list, it can be read, the template variables and
    the documentation are those of its content, and the target requires an
    environment exactly when its content holds a placeholder. *)
Theorem registry_targets_describe_their_files (h : Host) (files : list string)
  (root prefix : string) (m : ToolMap) (k : string) (t : ToolTarget) :
  buildCollectionToolMap h files root prefix = Ok m ->
  (k, t) ∈ m ->
  bruFileAbs t ∈ files
  /\ collectionRootAbs t = root
  /\ exists content,
       readFile h (bruFileAbs t) = Some content
       /\ templateVars t = template_variables_of h content
       /\ docs t = extractDocsFromBruContent content
       /\ (requiresEnv t = true <-> exists name, name ∈ template_variables_of h content).
Proof.
  intros Hm Hk.
  pose proof (buildCollectionToolMap_spec _ _ _ _ _ Hm) as (new & Hperm & Hreg & Hfiles & _ & _).
  rewrite Hperm in Hk.
  rewrite Forall_forall in Hreg. pose proof (Hreg _ Hk) as [_ Hroot _ _ _ _ Hread Henv].
  simpl in *. split; [|split; [done|]].
  - assert (bruFileAbs t ∈ map (fun e : string * ToolTarget => bruFileAbs e.2) new) as Hin.
    { apply list_elem_of_In, in_map_iff. exists (k, t). split; [done|].
      by apply list_elem_of_In. }
    rewrite Hfiles in Hin. apply list_elem_of_filter in Hin as [_ Hin]. done.
  - destruct Hread as (content & Hc & Hv & Hd). exists content.
    split; [done|]. split; [done|]. split; [done|].
    rewrite Henv, Hv. destruct (template_variables_of h content) as [|v vs]; simpl.
    + split; [done|]. intros [name Hn]. by apply elem_of_nil in Hn.
    + split; [|done]. intros _. exists v. apply list_elem_of_here.
Qed.

(** *** A single request *)

Definition invalid_file_name (file : string) : Error :=
  AppError E_NAMING ("Invalid single request file name: " +:+ file).

(** X9.  The registry of a single request has one entry.  Its name is the
    override when one is given and not empty, taken as it is, and the
    prefix, an underscore and the sanitized stem of the file otherwise.  A
    file whose stem holds no letter and no digit is refused with the code
    E_NAMING whether or not an override is given. *)
Theorem single_request_registry (h : Host) (file root prefix : string)
  (nameOverride : option string) :
  (forall m, buildSingleToolMap h file root prefix nameOverride = Ok m ->
     exists t,
       m = [(toolName t, t)]
       /\ bruFileAbs t = file /\ collectionRootAbs t = root
       /\ escapes (Path.relative (cwd h) root file) = false
       /\ toolName t =
          match nameOverride with
          | Some n => if truthy n then n
                      else prefix +:+ "_" +:+ sanitizeSegment (Path.basename_ext file ".bru")
          | None => prefix +:+ "_" +:+ sanitizeSegment (Path.basename_ext file ".bru")
          end
       /\ requiresEnv t = is_nonempty (templateVars t))
  /\ (sanitizeSegment (Path.basename_ext file ".bru") = "" ->
      buildSingleToolMap h file root prefix nameOverride = Throw (invalid_file_name file)).
Proof.
  unfold buildSingleToolMap. rewrite length_pos. split.
  - intros m. destruct (sanitizeSegment (Path.basename_ext file ".bru")) as [|c stem] eqn:Hstem;
      [discriminate|]. simpl.
    set (named := match nameOverride with
                  | Some n => if truthy n then validateToolName n
                              else validateToolName (prefix +:+ "_" +:+ String c stem)
                  | None => validateToolName (prefix +:+ "_" +:+ String c stem)
                  end).
    destruct named as [e|n] eqn:Hn; [discriminate|]. simpl.
    destruct (read_vars_and_docs h file) as [e|vd]; [discriminate|]. simpl.
    destruct (escapes (Path.relative (cwd h) root file)) eqn:Hesc; [discriminate|].
    intros [= <-].
    exists {| toolName := n; bruFileAbs := file; collectionRootAbs := root;
              requestPathNoExt := to_posix (strip_bru (Path.relative (cwd h) root file));
              requiresEnv := is_nonempty vd.1; templateVars := vd.1; docs := vd.2 |}.
    simpl. repeat split; try done.
    unfold named in Hn. destruct nameOverride as [o|].
    + destruct (truthy o); by apply validateToolName_ok in Hn as [-> _].
    + by apply validateToolName_ok in Hn as [-> _].
  - intros ->. done.
Qed.

End RegistryFacts.

(* ------------------------------------------------------------------ *)
(** ** The names of the environment variables                           *)
(* ------------------------------------------------------------------ *)

Module EnvNameFacts.

Import Js StringFacts Naming Runner SanitizeFacts RunnerFacts PrefixFacts.

(** [[A-Z0-9_]]. *)
Definition is_env_char (c : ascii) : bool := is_upper_alnum c || is_underscore c.

(** What sanitizeEnvVarName produces: characters of [[A-Z0-9_]] only,
    every underscore single, none first and none last. *)
Record CleanEnv (s : string) : Prop := {
  env_chars : all_chars is_env_char s = true;
  env_single : no_double is_underscore false s = true;
  env_first : first_is is_underscore s = false;
  env_last : last_is is_underscore s = false
}.

Lemma upper_alnum_not_underscore c : is_upper_alnum c = true -> is_underscore c = false.
Proof.
  destruct c as [b0 b1 b2 b3 b4 b5 b6 b7].
  destruct b0, b1, b2, b3, b4, b5, b6, b7; (reflexivity || discriminate).
Qed.

Lemma env_char_cases c : is_env_char c = true -> not_upper_alnum c = is_underscore c.
Proof.
  unfold is_env_char, not_upper_alnum. intros H.
  destruct (is_upper_alnum c) eqn:E; simpl in *.
  - symmetry. by apply upper_alnum_not_underscore.
  - by rewrite H.
Qed.

Lemma env_char_upper c : is_env_char c = true -> upper_char c = c.
Proof.
  destruct c as [b0 b1 b2 b3 b4 b5 b6 b7].
  destruct b0, b1, b2, b3, b4, b5, b6, b7; (reflexivity || discriminate).
Qed.

Lemma underscore_runs_single (s : string) :
  no_double is_underscore false (replace_runs not_upper_alnum "_" s) = true.
Proof.
  apply (no_double_mono not_upper_alnum).
  - intros c Hc. unfold not_upper_alnum.
    destruct (is_upper_alnum c) eqn:E; [|done].
    apply upper_alnum_not_underscore in E. congruence.
  - apply (replace_runs_go_no_double not_upper_alnum underscore). reflexivity.
Qed.

(** The third replacement finds nothing left to collapse. *)
Lemma sanitizeEnvVarName_unfold x :
  sanitizeEnvVarName x =
  strip_runs is_underscore (replace_runs not_upper_alnum "_" (toUpperCase x)).
Proof.
  unfold sanitizeEnvVarName, replace_runs at 1.
  apply (replace_runs_go_id is_underscore underscore).
  - intros c. apply is_underscore_true.
  - unfold strip_runs. apply drop_trailing_no_double.
    apply (drop_leading_no_double _ _ false). apply underscore_runs_single.
Qed.

Lemma sanitizeEnvVarName_clean x : CleanEnv (sanitizeEnvVarName x).
Proof.
  rewrite sanitizeEnvVarName_unfold. unfold strip_runs.
  set (R := replace_runs not_upper_alnum "_" (toUpperCase x)).
  assert (HR1 : all_chars is_env_char R = true).
  { apply (replace_runs_go_all not_upper_alnum underscore); [reflexivity|].
    intros c Hc. unfold is_env_char, not_upper_alnum in *.
    apply negb_false_iff in Hc. by rewrite Hc. }
  pose proof (underscore_runs_single (toUpperCase x)) as HR2. fold R in HR2.
  split.
  - by apply drop_trailing_all, drop_leading_all.
  - apply drop_trailing_no_double. by apply (drop_leading_no_double _ _ false).
  - apply drop_trailing_first, drop_leading_first.
  - apply drop_trailing_last.
Qed.

Lemma sanitizeEnvVarName_fixes s : CleanEnv s -> sanitizeEnvVarName s = s.
Proof.
  intros [H1 H2 H3 H4]. rewrite sanitizeEnvVarName_unfold.
  unfold toUpperCase. rewrite (map_chars_id upper_char is_env_char s env_char_upper H1).
  unfold replace_runs.
  rewrite (replace_runs_go_ext not_upper_alnum is_underscore is_env_char "_" false s
             env_char_cases H1).
  change "_" with (String underscore "").
  rewrite (replace_runs_go_id is_underscore underscore false s);
    [|apply is_underscore_true|exact H2].
  unfold strip_runs. rewrite (drop_leading_id _ _ H3). by apply drop_trailing_id.
Qed.

(** X10.  For every key, the sanitized name consists of characters of
    [[A-Z0-9_]] only, neither begins nor ends with an underscore and holds
    no two underscores in a row; sanitizing it again changes nothing. *)
Theorem sanitizeEnvVarName_idempotent_pattern (x : string) :
  sanitizeEnvVarName (sanitizeEnvVarName x) = sanitizeEnvVarName x
  /\ all_chars is_env_char (sanitizeEnvVarName x) = true
  /\ (forall t, sanitizeEnvVarName x <> "_" +:+ t)
  /\ (forall t, sanitizeEnvVarName x <> t +:+ "_")
  /\ (forall u v, sanitizeEnvVarName x <> u +:+ "__" +:+ v).
Proof.
  pose proof (sanitizeEnvVarName_clean x) as HC. destruct HC as [H1 H2 H3 H4].
  split; [apply sanitizeEnvVarName_fixes; by split|].
  split; [exact H1|]. split; [|split].
  - intros t E. rewrite E in H3. discriminate.
  - intros t E. rewrite E in H4. change "_" with (String underscore "") in H4.
    rewrite (last_is_app is_underscore underscore t) in H4; [discriminate|reflexivity].
  - intros u v E. rewrite E in H2.
    change "__" with (String underscore (String underscore "")) in H2.
    rewrite (no_double_app is_underscore underscore u v false) in H2; [discriminate|reflexivity].
Qed.

(** *** The environment map *)

Lemma vars_loop_lookup entries : forall em seen args pt name v,
  vars_loop em seen args entries = Ok pt ->
  envMap pt !! name = Some v ->
  em !! name = Some v \/ exists e, e ∈ entries /\ name = env_key e.1 /\ v = e.2.
Proof.
  induction entries as [|[k v0] rest IH]; intros em seen args pt name v.
  - simpl. intros [= <-]. simpl. by left.
  - destruct (vars_loop_cases em seen args k v0 rest)
      as [[_ [msg ->]]|[(_ & _ & ->)|(Hk & Hs & ->)]]; [discriminate..|].
    intros Hrec Hget. destruct (IH _ _ _ _ _ _ Hrec Hget) as [Hin|(e & He & -> & ->)].
    + destruct (decide (name = env_key k)) as [->|Hne].
      * rewrite lookup_insert_eq in Hin. injection Hin as <-.
        right. exists (k, v0). split; [apply list_elem_of_here|done].
      * rewrite lookup_insert_ne in Hin by done. by left.
    + right. exists e. split; [by apply list_elem_of_further|done].
Qed.

(** X11.  When the variables are accepted, the environment map holds exactly
    one variable for every entry: a name is bound to a value exactly when
    some entry has that value and the name is [MCP_VAR_] followed by the
    sanitized key; the names of the entries are pairwise distinct; every
    name is [MCP_VAR_] followed by a non-empty text of [[A-Z0-9_]]; and
    there are two arguments for every entry. *)
Theorem accepted_vars_name_the_environment (entries : list (string * string))
  (pt : VarsPassThrough) :
  buildVarsPassThrough (Some entries) = Ok pt ->
  (forall name v, envMap pt !! name = Some v <->
                  exists e, e ∈ entries /\ name = "MCP_VAR_" +:+ sanitizeEnvVarName e.1 /\ v = e.2)
  /\ NoDup (map (fun e => "MCP_VAR_" +:+ sanitizeEnvVarName e.1) entries)
  /\ Forall (fun e => sanitizeEnvVarName e.1 <> ""
                      /\ all_chars is_env_char (sanitizeEnvVarName e.1) = true) entries
  /\ length (envVarArgs pt) = (2 * length entries)%nat.
Proof.
  simpl. intros H.
  pose proof (vars_loop_ok entries ∅ ∅ [] pt H) as (Ha & Hf & Hn & _ & Hget & _).
  split; [|split; [|split]].
  - intros name v. split.
    + intros Hv. destruct (vars_loop_lookup _ _ _ _ _ _ _ H Hv) as [Hin|He]; [|done].
      by rewrite lookup_empty in Hin.
    + intros (e & He & -> & ->). by apply Hget.
  - exact Hn.
  - eapply Forall_impl; [exact Hf|]. intros e He. simpl in He. unfold key_ok in He.
    apply andb_true_iff in He as [_ He]. rewrite length_pos in He.
    split; [by destruct (sanitizeEnvVarName e.1)|].
    apply sanitizeEnvVarName_clean.
  - rewrite Ha. simpl. clear. induction entries as [|e entries IH]; [done|].
    simpl. rewrite IH. lia.
Qed.

(** *** The subprocess *)

(** The entries of the variables of a call: none when no map is given. *)
Definition var_entries (options : RunnerOptions) : list (string * string) :=
  default [] (vars options).

Lemma buildVarsPassThrough_lookup options pt name v :
  buildVarsPassThrough (vars options) = Ok pt ->
  envMap pt !! name = Some v ->
  exists e, e ∈ var_entries options /\ name = env_key e.1 /\ v = e.2.
Proof.
  unfold var_entries. destruct (vars options) as [entries|]; simpl.
  - intros H Hv. destruct (vars_loop_lookup _ _ _ _ _ _ _ H Hv) as [Hin|He]; [|done].
    by rewrite lookup_empty in Hin.
  - intros [= <-]. simpl. by rewrite lookup_empty.
Qed.

(** X12.  The one process a call may start is [bru], run in the root of the
    collection; its arguments are [run], the request file, the environment
    option when a name is given, the overrides, and the output options
    naming a file in the temporary directory.  Its environment is that of
    the server with the variables of the call added: a name that is not the
    name of an entry has the value it has in the server, if any. *)
Theorem the_subprocess_is_bru (w : World) (target : ToolTarget) (options : RunnerOptions)
  (cmd : string) (args : list string) (dir : string) (env : gmap string string) :
  In (Spawn cmd args dir env) (runBrunoTool w target options).1 ->
  cmd = "bru" /\ dir = collectionRootAbs target
  /\ (exists overrides reportPath,
        args = ["run"; requestPathNoExt target +:+ ".bru"]
               ++ (if no_env options then [] else ["--env"; default "" (envName options)])
               ++ overrides ++ ["--output"; reportPath; "--format"; "json"]
        /\ overrides = flat_map override_args (var_entries options))
  /\ (forall name,
        (forall e, e ∈ var_entries options -> name <> "MCP_VAR_" +:+ sanitizeEnvVarName e.1) ->
        env !! name = process_env w !! name)
  /\ (forall e, e ∈ var_entries options ->
        env !! ("MCP_VAR_" +:+ sanitizeEnvVarName e.1) = Some e.2).
Proof.
  intros Hin. apply runBrunoTool_spawn in Hin as (pt & tmpDir & Hpt & _ & -> & -> & -> & ->).
  split; [done|]. split; [done|]. split; [|split].
  - eexists _, _. split; [reflexivity|].
    unfold var_entries. destruct (vars options) as [entries|]; simpl in *.
    + by destruct (vars_loop_ok entries ∅ ∅ [] pt Hpt) as (-> & _).
    + by injection Hpt as <-.
  - intros name Hname. rewrite lookup_union.
    destruct (envMap pt !! name) as [v|] eqn:Hv.
    + apply (buildVarsPassThrough_lookup options) in Hv as (e & He & -> & _); [|done].
      by apply Hname in He.
    + by destruct (process_env w !! name).
  - intros e He. unfold var_entries in He.
    destruct (vars options) as [entries|]; simpl in *; [|by apply elem_of_nil in He].
    destruct (vars_loop_ok entries ∅ ∅ [] pt Hpt) as (_ & _ & _ & _ & Hget & _).
    apply lookup_union_Some_raw. left. by apply Hget.
Qed.

(** *** The environment requirement *)

Lemma buildVarsPassThrough_throws vars_ e :
  buildVarsPassThrough vars_ = Throw e -> exists msg, e = AppError E_VARS msg.
Proof. destruct vars_ as [entries|]; [apply vars_loop_throws|discriminate]. Qed.

(** The promise of the child is rejected by the ['error'] event only. *)
Lemma settled_error events e :
  st_settled (run_child events) = Some (inl e) -> exists msg, e = AppError E_RUNNER msg.
Proof.
  unfold run_child.
  assert (forall st,
            (forall e, st_settled st = Some (inl e) -> exists msg, e = AppError E_RUNNER msg) ->
            forall e, st_settled (foldl child_step st events) = Some (inl e) ->
                      exists msg, e = AppError E_RUNNER msg) as H.
  { induction events as [|ev events IH]; intros st Hst; [done|]. simpl. apply IH.
    intros e'. destruct ev as [chunk|msg|[|]|c]; simpl.
    - apply Hst.
    - unfold settle. destruct (st_settled st) as [[e0|r0]|] eqn:Es.
      + intros [= <-]. by apply Hst.
      + discriminate.
      + intros [= <-]. by eexists.
    - destruct (st_timeoutArmed st); apply Hst.
    - destruct (st_graceArmed st); apply Hst.
    - unfold settle. destruct (st_settled st) as [[e0|r0]|] eqn:Es.
      + intros [= <-]. by apply Hst.
      + discriminate.
      + discriminate. }
  apply H. discriminate.
Qed.

Lemma extractReportView_throws rt report e :
  extractReportView rt report = Throw e ->
  (exists msg, e = AppError E_REPORT msg) \/ e = not_primitive.
Proof.
  intros H. apply OutputFacts.extractReportView_cases in H as [H|H]; rewrite H; [left|right]; [|done].
  by eexists.
Qed.

(** The failures of the statements after the child has closed. *)
Lemma after_child_code w options reportPath runResult c msg :
  (after_child w options reportPath runResult).2 = Throw (AppError c msg) ->
  c = E_TIMEOUT \/ c = E_BRU_EXIT \/ c = E_REPORT.
Proof.
  unfold after_child. destruct (timedOut runResult); simpl.
  { intros [= <- _]. by left. }
  destruct (negb _); simpl.
  { intros [= <- _]. right. by left. }
  destruct (read_report w reportPath) as [m|raw].
  { intros [= <- _]. right. by right. }
  destruct (parse (runtime w) raw) as [m|report].
  { intros [= <- _]. right. by right. }
  destruct (extractReportView (runtime w) report) as [e|view] eqn:Hv; simpl; [|discriminate].
  apply extractReportView_throws in Hv as [[m Hm]|Hm]; rewrite Hm; [|discriminate].
  intros [= <- _]. right. by right.
Qed.

(** X13.  The environment-required error is raised exactly when the target
    requires an environment, no environment name is given and a template
    variable is missing from the variables of the call; no other failure of
    a call carries its code. *)
Theorem env_required_exactly_when_missing (w : World) (target : ToolTarget)
  (options : RunnerOptions) :
  (exists msg, (runBrunoTool w target options).2
               = Some (Throw (AppError E_ENV_REQUIRED msg)))
  <-> (requiresEnv target = true /\ no_env options = true
       /\ exists name, name ∈ templateVars target /\ name ∉ provided_vars options).
Proof.
  split.
  - intros [msg H]. unfold runBrunoTool in H.
    destruct (requiresEnv target && no_env options) eqn:Hreq.
    + apply andb_true_iff in Hreq as [-> ->]. split; [done|]. split; [done|].
      destruct (missing_vars target options) as [|name rest] eqn:Hm.
      * exfalso. simpl in H.
        destruct (mkdtemp w _) as [m|tmpDir]; [discriminate|].
        destruct (buildVarsPassThrough (vars options)) as [e|pt] eqn:Hv.
        { simpl in H. apply buildVarsPassThrough_throws in Hv as [m' ->]. discriminate. }
        destruct (st_settled (run_child (child_events w))) as [[e|rr]|] eqn:Hs;
          [|destruct (after_child w options _ rr) as [more outcome] eqn:Ha|discriminate].
        -- simpl in H. apply settled_error in Hs as [m' ->]. discriminate.
        -- simpl in H. injection H as ->.
           apply (f_equal snd) in Ha. simpl in Ha.
           apply after_child_code in Ha as [|[|]]; discriminate.
      * exists name. apply missing_vars_spec. rewrite Hm. apply list_elem_of_here.
    + exfalso. simpl in H.
      destruct (mkdtemp w _) as [m|tmpDir]; [discriminate|].
      destruct (buildVarsPassThrough (vars options)) as [e|pt] eqn:Hv.
      { simpl in H. apply buildVarsPassThrough_throws in Hv as [m' ->]. discriminate. }
      destruct (st_settled (run_child (child_events w))) as [[e|rr]|] eqn:Hs;
        [|destruct (after_child w options _ rr) as [more outcome] eqn:Ha|discriminate].
      * simpl in H. apply settled_error in Hs as [m' ->]. discriminate.
      * simpl in H. injection H as ->.
        apply (f_equal snd) in Ha. simpl in Ha.
        apply after_child_code in Ha as [|[|]]; discriminate.
  - intros (Hreq & Hno & name & Hin & Hout). unfold runBrunoTool. rewrite Hreq, Hno. simpl.
    assert (name ∈ missing_vars target options) as Hm by (by apply missing_vars_spec).
    rewrite (is_nonempty_elem _ _ Hm). by eexists.
Qed.

End EnvNameFacts.

(* ------------------------------------------------------------------ *)
(** ** The runner: how a call ends                                      *)
(* ------------------------------------------------------------------ *)

Module ChildFacts.

Import Js Naming Runner RunnerFacts TimeoutFacts.

(** The text the ['data'] callbacks have gathered from the events. *)
Definition stderr_text (out : string) (events : list ChildEvent) : string :=
  foldl (fun acc ev => match ev with StderrData chunk => acc +:+ chunk | _ => acc end)
        out events.

Lemma run_from_early_text events : forall out,
  Forall early_event events -> run_from (fresh out) events = fresh (stderr_text out events).
Proof.
  induction events as [|ev events IH]; intros out Hf; [done|].
  apply Forall_cons in Hf as [Hev Hf].
  destruct ev as [chunk|msg|[|]|c]; try done; simpl.
  - apply (IH (out +:+ chunk) Hf).
  - apply (IH out Hf).
Qed.

(** No timer is armed. *)
Definition disarmed (st : ChildState) : Prop :=
  st_timeoutArmed st = false /\ st_graceArmed st = false.

Definition not_kill (eff : Effect) : Prop :=
  match eff with Kill _ => False | _ => True end.

Lemma child_step_disarmed st ev :
  disarmed st -> Forall not_kill (st_effects st) ->
  disarmed (child_step st ev) /\ Forall not_kill (st_effects (child_step st ev)).
Proof.
  intros [Ht Hg] Hk. destruct ev as [chunk|msg|[|]|c]; simpl.
  - done.
  - done.
  - by rewrite Ht.
  - by rewrite Hg.
  - split; [done|]. apply Forall_app. split; [done|]. repeat constructor.
Qed.

Lemma run_from_disarmed events : forall st,
  disarmed st -> Forall not_kill (st_effects st) ->
  Forall not_kill (st_effects (run_from st events)).
Proof.
  induction events as [|ev events IH]; intros st Hd Hk; [done|].
  simpl. destruct (child_step_disarmed st ev Hd Hk) as [Hd' Hk']. by apply IH.
Qed.

Definition not_read (eff : Effect) : Prop :=
  match eff with ReadFile _ => False | _ => True end.

Lemma callback_not_read eff : callback_effect eff -> not_read eff.
Proof. by destruct eff. Qed.

Lemma env_is_met w target options :
  ReachesSpawn w target options ->
  is_nonempty (if requiresEnv target && no_env options
               then missing_vars target options else []) = false.
Proof.
  intros [Henv _ _]. destruct Henv as [-> | [-> | ->]]; [done| |].
  - by rewrite andb_false_r.
  - by destruct (requiresEnv target && no_env options).
Qed.

(** The state after a ['close'] event that finds the promise pending and
    the timeout timer still armed, and after the events that follow. *)
Lemma closed_in_time pre post code_ :
  Forall early_event pre ->
  let st := run_child (pre ++ ChildClose code_ :: post) in
  st_settled st
  = Some (Ok {| code := code_; stderr := stderr_text "" pre; timedOut := false |})
  /\ Forall not_kill (st_effects st)
  /\ Forall callback_effect (st_effects st)
  /\ ClearTimeout TimeoutTimer ∈ st_effects st.
Proof.
  intros Hpre. cbv zeta. unfold run_child. fold (run_from child_init).
  rewrite run_from_app. change child_init with (fresh "").
  rewrite (run_from_early_text pre "" Hpre).
  set (S1 := child_step (fresh (stderr_text "" pre)) (ChildClose code_)).
  change (run_from (fresh (stderr_text "" pre)) (ChildClose code_ :: post))
    with (run_from S1 post).
  split; [by apply run_from_settled|]. split; [|split].
  - apply run_from_disarmed; [done|]. repeat constructor.
  - destruct (run_from_effects post S1) as (more & -> & Hmore).
    apply Forall_app. split; [|done]. repeat constructor.
  - destruct (run_from_effects post S1) as (more & -> & _).
    apply elem_of_app. left. apply list_elem_of_here.
Qed.

(** The last lines of the output on stderr that the failure quotes. *)
Definition stderr_tail (out : string) : list string :=
  last_n 10 (split_on "010" (trim out)).

(** X14.  A child that closes with another exit code than 0 while the
    timeout timer is still armed, having written the ASCII text [out] on
    stderr (outside ASCII [trim] removes more characters than the white
    space of this file): the call fails with the code E_BRU_EXIT and a
    message that names the exit code ([null] for a child ended by a signal)
    and quotes the last lines of [out], ten at most, or says that there is
    none.  The report is not read and no signal is sent, whatever events
    follow. *)
Theorem failed_exit_is_reported (w : World) (target : ToolTarget) (options : RunnerOptions)
  (pre post : list ChildEvent) (code_ : option Z) :
  ReachesSpawn w target options ->
  child_events w = pre ++ ChildClose code_ :: post ->
  Forall early_event pre ->
  PrefixFacts.is_ascii (stderr_text "" pre) = true ->
  code_ <> Some 0%Z ->
  (runBrunoTool w target options).2
  = Some (Throw (AppError E_BRU_EXIT
       ("Bruno CLI exited with code " +:+ code_text code_ +:+ ". "
        +:+ (if Js.truthy (join (String "010" "") (stderr_tail (stderr_text "" pre)))
             then join (String "010" "") (stderr_tail (stderr_text "" pre))
             else "No stderr output."))))
  /\ (length (stderr_tail (stderr_text "" pre)) <= 10)%nat
  /\ Forall not_read (runBrunoTool w target options).1
  /\ Forall not_kill (runBrunoTool w target options).1.
Proof.
  intros Hreach Hev Hpre _ Hcode.
  pose proof (env_is_met _ _ _ Hreach) as Hno.
  destruct Hreach as [_ [tmpDir Htmp] [pt Hpt]].
  destruct (closed_in_time pre post code_ Hpre) as (Hs & Hk & Hcb & _).
  rewrite <- Hev in Hs, Hk, Hcb.
  unfold runBrunoTool. rewrite Hno, Htmp, Hpt, Hs.
  unfold after_child. simpl.
  destruct (decide (code_ = Some 0%Z)) as [|_]; [done|]. simpl.
  split; [done|]. split; [|split].
  - unfold stderr_tail, last_n. rewrite length_drop. lia.
  - rewrite List.app_nil_r. repeat constructor.
    eapply Forall_impl; [exact Hcb|]. apply callback_not_read.
  - rewrite List.app_nil_r. repeat constructor. exact Hk.
Qed.

(** What the statements after a clean exit return: the formatted view of
    the report, or the reason why there is none. *)
Definition report_outcome (w : World) (options : RunnerOptions) (reportPath : string)
  : Result string :=
  match read_report w reportPath with
  | inl message =>
      Throw (AppError E_REPORT
               ("Bruno JSON report not found at " +:+ reportPath +:+ ": " +:+ message))
  | inr reportRaw =>
      match parse (runtime w) reportRaw with
      | inl message => Throw (AppError E_REPORT ("Bruno JSON report is invalid: " +:+ message))
      | inr report =>
          let* view := extractReportView (runtime w) report in
          Ok (formatToolOutput (runtime w) view (bodyLimitBytes options))
      end
  end.

(** X15.  A child that closes with the exit code 0 while the timeout timer
    is still armed: the timer is cleared and no signal is ever sent; the
    last thing the call does is to read the report, from the very file the
    subprocess was told to write; and the call returns the formatted view of
    that report.  When it fails instead, it is with the code E_REPORT (the
    file cannot be read, is not JSON or holds no finite status) or with the
    [TypeError] that [Number] or [String] throws on an object of the report
    that has a [toString] of its own. *)
Theorem clean_exit_returns_the_report (w : World) (target : ToolTarget)
  (options : RunnerOptions) (pre post : list ChildEvent) :
  ReachesSpawn w target options ->
  child_events w = pre ++ ChildClose (Some 0%Z) :: post ->
  Forall early_event pre ->
  exists reportPath cmd dir env before callbacks,
    (runBrunoTool w target options).1
    = [Mkdtemp (Path.join (os_tmpdir w) "bruno-mcp-");
       Spawn cmd (before ++ ["--output"; reportPath; "--format"; "json"]) dir env;
       SetTimeout TimeoutTimer (timeoutMs options)]
      ++ callbacks ++ [ReadFile reportPath]
    /\ Forall not_kill callbacks
    /\ ClearTimeout TimeoutTimer ∈ callbacks
    /\ (runBrunoTool w target options).2 = Some (report_outcome w options reportPath)
    /\ (forall e, report_outcome w options reportPath = Throw e ->
                  (exists msg, e = AppError E_REPORT msg) \/ e = not_primitive).
Proof.
  intros Hreach Hev Hpre.
  pose proof (env_is_met _ _ _ Hreach) as Hno.
  destruct Hreach as [_ [tmpDir Htmp] [pt Hpt]].
  destruct (closed_in_time pre post (Some 0%Z) Hpre) as (Hs & Hk & _ & Hclear).
  rewrite <- Hev in Hs, Hk, Hclear.
  exists (Path.join tmpDir (randomUUID w +:+ ".json")), "bru".
  exists (collectionRootAbs target), (envMap pt ∪ process_env w).
  exists (["run"; requestPathNoExt target +:+ ".bru"]
            ++ (if no_env options then [] else ["--env"; default "" (envName options)])
            ++ envVarArgs pt).
  exists (st_effects (run_child (child_events w))).
  unfold runBrunoTool. rewrite Hno, Htmp, Hpt, Hs.
  unfold after_child, report_outcome. simpl.
  split; [|split; [done|split; [done|split; [done|]]]].
  - by rewrite <- List.app_assoc.
  - intros e.
    destruct (read_report w _) as [m|raw]; [intros [= <-]; left; by eexists|].
    destruct (parse (runtime w) raw) as [m|report]; [intros [= <-]; left; by eexists|].
    destruct (extractReportView (runtime w) report) as [e'|view] eqn:Hv; simpl; [|discriminate].
    intros [= <-]. by apply EnvNameFacts.extractReportView_throws in Hv.
Qed.

(** X16.  An ['error'] event that finds the promise pending, whatever output
    and whatever timer came before it: the call fails with the code E_RUNNER
    and the message of the event; the report is not read, whatever events
    follow, a ['close'] among them. *)
Theorem spawn_error_is_reported (w : World) (target : ToolTarget) (options : RunnerOptions)
  (pre post : list ChildEvent) (message : string) :
  ReachesSpawn w target options ->
  child_events w = pre ++ ChildError message :: post ->
  Forall pending_event pre ->
  (runBrunoTool w target options).2
  = Some (Throw (AppError E_RUNNER ("Failed to spawn Bruno CLI: " +:+ message)))
  /\ Forall not_read (runBrunoTool w target options).1.
Proof.
  intros Hreach Hev Hpre.
  pose proof (env_is_met _ _ _ Hreach) as Hno.
  destruct Hreach as [_ [tmpDir Htmp] [pt Hpt]].
  assert (st_settled (run_child (child_events w))
          = Some (Throw (AppError E_RUNNER ("Failed to spawn Bruno CLI: " +:+ message)))) as Hs.
  { unfold run_child. rewrite Hev. fold (run_from child_init). rewrite run_from_app.
    simpl. apply run_from_settled. simpl. unfold settle.
    destruct (run_from_pending pre child_init Hpre) as [-> _]. done. }
  destruct (run_from_effects (child_events w) child_init) as (more & Hmore & Hcb).
  change (run_from child_init (child_events w)) with (run_child (child_events w)) in Hmore.
  unfold runBrunoTool. rewrite Hno, Htmp, Hpt, Hs. simpl. split; [done|].
  rewrite Hmore. repeat constructor.
  eapply Forall_impl; [exact Hcb|]. apply callback_not_read.
Qed.

(** The world of a call with other events of the child. *)
Definition with_events (w : World) (events : list ChildEvent) : World :=
  {| runtime := runtime w;
     process_env := process_env w;
     os_tmpdir := os_tmpdir w;
     mkdtemp := mkdtemp w;
     randomUUID := randomUUID w;
     child_events := events;
     read_report := read_report w |}.

(** X17.  The promise of the child settles once: the outcome of a call is
    decided by the events up to the first ['error'] or ['close'], and no
    event after it changes it. *)
Theorem the_first_settlement_decides (w : World) (target : ToolTarget)
  (options : RunnerOptions) (pre post : list ChildEvent) (ev : ChildEvent) :
  child_events w = pre ++ ev :: post ->
  ~ pending_event ev ->
  (runBrunoTool w target options).2
  = (runBrunoTool (with_events w (pre ++ [ev])) target options).2
  /\ exists outcome, (runBrunoTool w target options).2 = Some outcome.
Proof.
  intros Hev Hsettles.
  assert (exists r, st_settled (run_child (pre ++ [ev])) = Some r) as [r Hr].
  { unfold run_child. rewrite foldl_app. simpl.
    destruct ev as [chunk|msg|[|]|c]; simpl in *; try (exfalso; by apply Hsettles).
    - unfold settle. destruct (st_settled (foldl child_step child_init pre)); by eexists.
    - unfold settle. destruct (st_settled (foldl child_step child_init pre)); by eexists. }
  assert (st_settled (run_child (child_events w)) = Some r) as Hs.
  { rewrite Hev. change (pre ++ ev :: post) with (pre ++ [ev] ++ post).
    rewrite List.app_assoc. unfold run_child. fold (run_from child_init).
    rewrite run_from_app. by apply run_from_settled. }
  unfold runBrunoTool. simpl. rewrite Hs, Hr.
  destruct (is_nonempty _); [split; [done|by eexists]|].
  destruct (mkdtemp w _) as [m|tmpDir]; [split; [done|by eexists]|].
  destruct (buildVarsPassThrough (vars options)) as [e|pt]; [split; [done|by eexists]|].
  destruct r as [e|rr]; [split; [done|by eexists]|].
  change (after_child (with_events w (pre ++ [ev])) options)
    with (after_child w options).
  destruct (after_child w options _ rr) as [more outcome]. split; [done|by eexists].
Qed.

End ChildFacts.

(* ------------------------------------------------------------------ *)
(** ** The output: the size of the body section                         *)
(* ------------------------------------------------------------------ *)

Module BodyFacts.

Import Js StringFacts Runner OutputFacts.

Lemma WellFormed_app a b : WellFormed a -> WellFormed b -> WellFormed (a +:+ b).
Proof.
  intros Ha Hb. induction Ha.
  - by rewrite app_nil_l.
  - rewrite app_cons. by constructor.
  - rewrite !app_cons. by constructor.
  - rewrite !app_cons. by constructor.
  - rewrite !app_cons. by constructor.
Qed.

Lemma WellFormed_replacement : WellFormed REPLACEMENT.
Proof. apply wf_three; [done|done|done|constructor]. Qed.

Lemma Incomplete_length part : Incomplete part -> (1 <= String.length part)%nat.
Proof. destruct 1; simpl; lia. Qed.

(** The text kept from a well-formed body cut after [cap] bytes. *)
Lemma cut_text body cap :
  WellFormed body -> (cap <= String.length body)%nat ->
  WellFormed (utf8_toString (subarray cap body))
  /\ (String.length (utf8_toString (subarray cap body)) <= cap + 2)%nat.
Proof.
  intros Hwf Hcap.
  destruct (subarray_well_formed body Hwf cap) as (good & part & E & Hgood & Hpart).
  pose proof (subarray_length cap body Hcap) as Hlen. rewrite E, length_app in Hlen.
  rewrite E. destruct Hpart as [->|Hpart].
  - rewrite app_nil_r, (toString_well_formed good Hgood). simpl in Hlen. split; [done|lia].
  - rewrite (toString_cut good part Hgood Hpart). split.
    + apply WellFormed_app; [done|apply WellFormed_replacement].
    + rewrite length_app. apply Incomplete_length in Hpart.
      change (String.length REPLACEMENT) with 3%nat. lia.
Qed.

(** X18.  A body of at most [cap] bytes, exactly [cap] among them, is passed
    on as it is.  A longer body that is well-formed UTF-8 leaves, before the
    marker, a text that is well-formed UTF-8 again and has at most two bytes
    more than the cap: the replacement character takes three bytes where the
    cut has left one. *)
Theorem body_section_within_the_cap (rt : Runtime) (view : BrunoReportView) (cap : nat) :
  ((byteLength (bodyText view) <= cap)%nat ->
     formatToolOutput rt view cap =
       "Status: " +:+ NumberToString rt (statusCode view) +:+ nl +:+ nl
       +:+ "Headers:" +:+ nl +:+ stringify rt (headers_json (headers view)) +:+ nl +:+ nl
       +:+ "Body:" +:+ nl +:+ bodyText view)
  /\ ((cap < byteLength (bodyText view))%nat -> WellFormed (bodyText view) ->
     limit_body (bodyText view) cap
     = utf8_toString (subarray cap (bodyText view)) +:+ truncation_marker cap
     /\ WellFormed (utf8_toString (subarray cap (bodyText view)))
     /\ (byteLength (utf8_toString (subarray cap (bodyText view))) <= cap + 2)%nat).
Proof.
  split.
  - intros Hle. unfold formatToolOutput, limit_body.
    destruct (cap <? byteLength (bodyText view))%nat eqn:E; [|done].
    apply Nat.ltb_lt in E. lia.
  - intros Hlt Hwf. unfold limit_body.
    destruct (cap <? byteLength (bodyText view))%nat eqn:E;
      [|apply Nat.ltb_ge in E; lia].
    split; [done|]. apply cut_text; [done|]. unfold byteLength in Hlt. lia.
Qed.

End BodyFacts.

(* ------------------------------------------------------------------ *)
(** ** The server: names, input and calls                               *)
(* ------------------------------------------------------------------ *)

Module ServerFacts.

Import Js Naming Runner Mcp Server NamingFacts RunnerFacts RegistryFacts.

(** *** Lookup *)

Lemma map_get_None m k : map_get m k = None <-> k ∉ map fst m.
Proof.
  unfold map_get. induction m as [|[k' t] m IH]; simpl.
  - split; [intros _; apply not_elem_of_nil|done].
  - rewrite not_elem_of_cons. destruct (decide (k' = k)) as [->|Hne]; simpl.
    + split; [discriminate|]. by intros [H _].
    + rewrite IH. split; [intros H; split; [congruence|done]|by intros [_ H]].
Qed.

Lemma map_get_Some m k t :
  NoDup (map fst m) -> (k, t) ∈ m -> map_get m k = Some t.
Proof.
  unfold map_get. induction m as [|[k' t'] m IH]; intros Hnd Hin.
  - by apply elem_of_nil in Hin.
  - simpl in *. apply NoDup_cons in Hnd as [Hk' Hnd].
    apply elem_of_cons in Hin as [[= <- <-]|Hin].
    + destruct (decide (k = k)); done.
    + destruct (decide (k' = k)) as [->|Hne]; [|by apply IH].
      exfalso. apply Hk'. apply list_elem_of_In, in_map_iff. exists (k, t).
      split; [done|]. by apply list_elem_of_In.
Qed.

(** The keys of a registry are distinct and each is the name of its
    target. *)
Definition well_keyed (m : ToolMap) : Prop :=
  NoDup (map fst m) /\ Forall (fun e => e.1 = toolName e.2) m.

Lemma collection_well_keyed h files root prefix m :
  buildCollectionToolMap h files root prefix = Ok m -> well_keyed m.
Proof.
  intros Hm.
  pose proof (buildCollectionToolMap_spec _ _ _ _ _ Hm) as (new & Hperm & Hreg & _ & _ & Hnd).
  split.
  - change (map fst m) with (fst <$> m). by rewrite Hperm.
  - rewrite Hperm. eapply Forall_impl; [exact Hreg|]. by intros e [? _ _ _ _ _ _ _].
Qed.

Lemma single_well_keyed h file root prefix nameOverride m :
  buildSingleToolMap h file root prefix nameOverride = Ok m -> well_keyed m.
Proof.
  unfold buildSingleToolMap.
  destruct (assert _ _ _); [discriminate|]. simpl.
  destruct (match nameOverride with Some _ => _ | None => _ end); [discriminate|]. simpl.
  destruct (read_vars_and_docs h file); [discriminate|]. simpl.
  destruct (escapes _); [discriminate|]. intros [= <-]. split.
  - simpl. apply NoDup_singleton.
  - by repeat constructor.
Qed.

Lemma resolve_listed m :
  well_keyed m ->
  (forall d, d ∈ listTools m ->
     exists t, resolveToolTarget m (name d) = Ok t
               /\ (name d, t) ∈ m /\ toolName t = name d
               /\ description d = "Execute Bruno request: " +:+ requestPathNoExt t)
  /\ (forall n, n ∉ map name (listTools m) ->
        resolveToolTarget m n = Throw (AppError E_TOOL_NOT_FOUND ("Unknown tool: " +:+ n))).
Proof.
  intros [Hnd Hkey]. split.
  - intros d Hd. unfold listTools in Hd.
    apply list_elem_of_In, in_map_iff in Hd as ([k t] & <- & Hin). simpl.
    apply list_elem_of_In in Hin. rewrite Forall_forall in Hkey.
    pose proof (Hkey _ Hin) as Hk. simpl in Hk. subst k.
    exists t. unfold resolveToolTarget. by rewrite (map_get_Some m _ t Hnd Hin).
  - intros n Hn. unfold resolveToolTarget.
    assert (map name (listTools m) = map fst m) as Hnames.
    { unfold listTools. rewrite map_map. simpl. clear -Hkey.
      induction Hkey as [|e m He _ IH]; [done|]. simpl. by rewrite IH, He. }
    rewrite Hnames in Hn. apply map_get_None in Hn. by rewrite Hn.
Qed.

(** X19.  In a registry returned by either constructor, every tool of the
    list resolves by its name to the target it was listed for, and a name
    that is not in the list is refused with the code E_TOOL_NOT_FOUND. *)
Theorem listed_tools_resolve (h : Host) (file root prefix : string)
  (nameOverride : option string) (files : list string) (m : ToolMap) :
  buildCollectionToolMap h files root prefix = Ok m
  \/ buildSingleToolMap h file root prefix nameOverride = Ok m ->
  (forall d, d ∈ listTools m ->
     exists t, resolveToolTarget m (name d) = Ok t
               /\ (name d, t) ∈ m /\ toolName t = name d
               /\ description d = "Execute Bruno request: " +:+ requestPathNoExt t)
  /\ (forall n, n ∉ map name (listTools m) ->
        resolveToolTarget m n = Throw (AppError E_TOOL_NOT_FOUND ("Unknown tool: " +:+ n))).
Proof.
  intros [Hm|Hm]; apply resolve_listed.
  - by apply (collection_well_keyed h files root prefix).
  - by apply (single_well_keyed h file root prefix nameOverride).
Qed.

(** *** The input of a call *)

(** [v == null]. *)
Definition nullish (v : Value) : bool :=
  match v with None | Some JNull => true | _ => false end.

(** The entries of an object of strings, if it is one. *)
Fixpoint strings_of (entries : list (string * Json)) : option (list (string * string)) :=
  match entries with
  | [] => Some []
  | (k, JStr s) :: rest => (fun l => (k, s) :: l) <$> strings_of rest
  | _ => None
  end.

Lemma check_keys_ok keys : check_keys keys = Ok tt <-> Forall (fun k => k = "vars") keys.
Proof.
  induction keys as [|k keys IH]; simpl; [done|].
  destruct (decide (k = "vars")) as [->|Hne].
  - rewrite IH. split; [by constructor|]. by intros [_ H]%Forall_cons.
  - split; [discriminate|]. by intros [H _]%Forall_cons.
Qed.

Lemma check_keys_throws keys e :
  check_keys keys = Throw e -> exists msg, e = AppError E_INPUT msg.
Proof.
  induction keys as [|k keys IH]; simpl; [discriminate|].
  destruct (decide (k = "vars")); [done|]. intros [= <-]. by eexists.
Qed.

(** **** The object the loop builds *)

(** The order of the own keys of an object: whatever stands before an
    array index is a smaller array index. *)
Definition ObjectOrder (keys : list string) : Prop :=
  forall i j ki kj nj,
    (i < j)%nat -> keys !! i = Some ki -> keys !! j = Some kj ->
    array_index kj = Some nj ->
    exists ni, array_index ki = Some ni /\ (ni < nj)%N.

(** [vars] after the assignments [vars[key] = value] for the entries of
    [strings], in their order. *)
Definition assigned (strings : list (string * string)) : list (string * string) :=
  foldl (fun out e => obj_set e.1 e.2 out) [] strings.

Lemma has_key_false {A} k (out : list (string * A)) :
  k ∉ map fst out -> has_key k out = false.
Proof.
  induction out as [|[k' v'] out IH]; [done|]. simpl. intros Hk.
  apply not_elem_of_cons in Hk as [Hne Hk].
  destruct (decide (k' = k)); [congruence|]. by apply IH.
Qed.

Lemma obj_insert_index_last n k v out :
  Forall (fun e => exists n', array_index e.1 = Some n' /\ (n' < n)%N) out ->
  obj_insert_index n k v out = out ++ [(k, v)].
Proof.
  intros H. induction H as [|[k' v'] out (n' & Hn' & Hlt) _ IH]; [done|]. simpl in *.
  rewrite Hn'. apply N.ltb_lt in Hlt. rewrite Hlt. by rewrite IH.
Qed.

(** An assignment to a new key that is not [__proto__] and that no key
    of the object has to follow adds the property at the end. *)
Lemma obj_set_append k v out :
  k <> "__proto__" -> k ∉ map fst out ->
  (forall n, array_index k = Some n ->
             Forall (fun e => exists n', array_index e.1 = Some n' /\ (n' < n)%N) out) ->
  obj_set k v out = out ++ [(k, v)].
Proof.
  intros Hproto Hfresh Hindex. unfold obj_set.
  destruct (decide (k = "__proto__")) as [Heq|_]; [done|].
  rewrite (has_key_false k out Hfresh).
  destruct (array_index k) as [n|]; [|done].
  by apply obj_insert_index_last, Hindex.
Qed.

Lemma obj_replace_keys k v out : map fst (obj_replace k v out) = map fst out.
Proof.
  induction out as [|[k' v'] out IH]; [done|]. simpl.
  destruct (decide (k' = k)) as [->|]; [done|]. simpl. by rewrite IH.
Qed.

Lemma obj_insert_index_keys n k v out x :
  x ∈ map fst (obj_insert_index n k v out) -> x = k \/ x ∈ map fst out.
Proof.
  induction out as [|[k' v'] out IH]; simpl.
  - intros H. apply list_elem_of_singleton in H. by left.
  - destruct (array_index k') as [n'|]; [destruct (n' <? n)%N|]; simpl.
    + intros H. apply elem_of_cons in H as [->|H]; [right; apply list_elem_of_here|].
      destruct (IH H) as [->|Hx]; [by left|right; by apply list_elem_of_further].
    + intros H. apply elem_of_cons in H as [->|H]; [by left|by right].
    + intros H. apply elem_of_cons in H as [->|H]; [by left|by right].
Qed.

(** No assignment creates a property [__proto__]. *)
Lemma obj_set_no_proto k v out :
  "__proto__" ∉ map fst out -> "__proto__" ∉ map fst (obj_set k v out).
Proof.
  intros Hout. unfold obj_set.
  destruct (decide (k = "__proto__")) as [->|Hk]; [done|].
  destruct (has_key k out); [by rewrite obj_replace_keys|].
  destruct (array_index k) as [n|].
  - intros H. apply obj_insert_index_keys in H as [H|H]; [congruence|done].
  - rewrite map_app. simpl. intros H. apply elem_of_app in H as [H|H]; [done|].
    apply list_elem_of_singleton in H. congruence.
Qed.

Lemma assigned_no_proto strings : "__proto__" ∉ map fst (assigned strings).
Proof.
  unfold assigned.
  assert (forall acc, "__proto__" ∉ map fst acc ->
            "__proto__" ∉ map fst (foldl (fun out e => obj_set e.1 e.2 out) acc strings)) as H.
  { induction strings as [|e strings IH]; intros acc Hacc; [done|].
    simpl. apply IH. by apply obj_set_no_proto. }
  apply H. apply not_elem_of_nil.
Qed.

Lemma ObjectOrder_prefix keys key : ObjectOrder (keys ++ [key]) -> ObjectOrder keys.
Proof.
  intros H i j ki kj nj Hij Hi Hj. apply (H i j ki kj nj Hij).
  - by apply lookup_app_l_Some.
  - by apply lookup_app_l_Some.
Qed.

(** The entries of an object, assigned in their order to an empty
    object, give the same entries without [__proto__]. *)
Lemma assigned_filter strings :
  NoDup (map fst strings) -> ObjectOrder (map fst strings) ->
  assigned strings = filter (fun e => e.1 <> "__proto__") strings.
Proof.
  induction strings as [|[k v] strings IH] using rev_ind; [done|].
  rewrite map_app. simpl. intros Hnd Horder.
  unfold assigned. rewrite foldl_app. simpl. fold (assigned strings).
  rewrite filter_app.
  apply NoDup_app in Hnd as (Hnd & Hdisj & _).
  rewrite (IH Hnd (ObjectOrder_prefix _ _ Horder)).
  destruct (decide (k = "__proto__")) as [->|Hk].
  - unfold obj_set. rewrite decide_True by done.
    rewrite filter_cons_False by (simpl; by intros H). rewrite filter_nil.
    by rewrite List.app_nil_r.
  - rewrite filter_cons_True by done. rewrite filter_nil.
    apply obj_set_append; [done| |].
    + intros Hin. apply list_elem_of_In, in_map_iff in Hin as ([k' v'] & Hk' & Hin).
      apply list_elem_of_In, list_elem_of_filter in Hin as [_ Hin]. simpl in Hk'. subst k'.
      apply (Hdisj k); [|apply list_elem_of_here].
      apply list_elem_of_In, in_map_iff. exists (k, v'). split; [done|].
      by apply list_elem_of_In.
    + intros n Hn. apply Forall_forall. intros [k' v'] Hin.
      apply list_elem_of_filter in Hin as [_ Hin].
      apply list_elem_of_lookup in Hin as [i Hi]. simpl.
      assert (i < length strings)%nat as Hlt by (by eapply lookup_lt_Some).
      apply (Horder i (length (map fst strings)) k' k n).
      * by rewrite length_map.
      * apply lookup_app_l_Some.
        change (map fst strings) with (fst <$> strings).
        by rewrite list_lookup_fmap, Hi.
      * rewrite lookup_app_r by lia. by rewrite Nat.sub_diag.
      * exact Hn.
Qed.

Lemma strings_of_keys entries strings :
  strings_of entries = Some strings -> map fst strings = map fst entries.
Proof.
  revert strings. induction entries as [|[k v] entries IH]; intros strings; simpl.
  - by intros [= <-].
  - destruct v as [| | |s| |]; try discriminate.
    destruct (strings_of entries) as [l|]; [|discriminate]. simpl.
    intros [= <-]. simpl. by rewrite (IH l).
Qed.

Lemma vars_entries_throws entries : forall acc e,
  vars_entries acc entries = Throw e -> exists msg, e = AppError E_INPUT msg.
Proof.
  induction entries as [|[k v] entries IH]; intros acc e; simpl; [discriminate|].
  destruct v; try (intros [= <-]; by eexists). apply IH.
Qed.

Lemma vars_entries_ok entries : forall acc vars_,
  vars_entries acc entries = Ok vars_ ->
  exists strings,
    strings_of entries = Some strings
    /\ vars_ = foldl (fun out e => obj_set e.1 e.2 out) acc strings.
Proof.
  induction entries as [|[k v] entries IH]; intros acc vars_; simpl.
  - intros [= <-]. by exists [].
  - destruct v as [| | |s| |]; try discriminate. intros H.
    apply IH in H as (strings & -> & ->). eexists. split; reflexivity.
Qed.

(** X20.  The input of a call is accepted in two forms only.  It yields no
    variables when it is [null] or [undefined], or an object with no other
    key than [vars] whose [vars] is [null] or [undefined].  It yields
    variables when it is an object with no other key than [vars] whose
    [vars] is an object of strings, and the variables are then the object
    that the assignment of these entries, one after the other, builds
    from an empty object: it never has a property [__proto__], and for
    entries as an object lists them (every key once, the array indices
    first) it consists of these entries, in their order, without the one
    for [__proto__].  Every other input is refused, with the code
    E_INPUT. *)
Theorem validateVars_accepts_string_maps (input : Value) :
  (validateVars input = Ok None <->
     nullish input = true
     \/ exists obj, input = Some (JObj obj)
          /\ Forall (fun k => k = "vars") (map fst obj)
          /\ nullish (lookup_field "vars" obj) = true)
  /\ (forall vars_, validateVars input = Ok (Some vars_) ->
        exists obj entries strings,
          input = Some (JObj obj)
          /\ Forall (fun k => k = "vars") (map fst obj)
          /\ lookup_field "vars" obj = Some (JObj entries)
          /\ strings_of entries = Some strings
          /\ vars_ = assigned strings
          /\ ("__proto__" ∉ map fst vars_)
          /\ (NoDup (map fst entries) -> ObjectOrder (map fst entries) ->
              vars_ = filter (fun e => e.1 <> "__proto__") strings))
  /\ (forall e, validateVars input = Throw e -> exists msg, e = AppError E_INPUT msg).
Proof.
  split; [|split].
  - split.
    + destruct input as [[| | | | |obj]|]; simpl; try discriminate; try (by left).
      destruct (check_keys (map fst obj)) as [e|[]] eqn:Hk; [discriminate|]. simpl.
      apply check_keys_ok in Hk. intros H. right. exists obj. split; [done|]. split; [done|].
      destruct (lookup_field "vars" obj) as [[| | | | |entries]|]; try done.
      simpl in H. destruct (vars_entries [] entries); discriminate.
    + intros [H|(obj & -> & Hk & Hv)].
      * by destruct input as [[| | | | |obj]|].
      * simpl. apply check_keys_ok in Hk. rewrite Hk. simpl.
        by destruct (lookup_field "vars" obj) as [[| | | | |entries]|].
  - intros vars_. destruct input as [[| | | | |obj]|]; simpl; try discriminate.
    destruct (check_keys (map fst obj)) as [e|[]] eqn:Hk; [discriminate|]. simpl.
    apply check_keys_ok in Hk.
    destruct (lookup_field "vars" obj) as [[| | | | |entries]|] eqn:Hv; try discriminate.
    destruct (vars_entries [] entries) as [e|vs] eqn:He; [discriminate|]. simpl.
    intros [= <-]. apply vars_entries_ok in He as (strings & Hs & ->).
    exists obj, entries, strings. fold (assigned strings).
    split; [done|]. split; [done|]. split; [done|]. split; [done|]. split; [done|].
    split; [apply assigned_no_proto|].
    intros Hnd Horder. rewrite <- (strings_of_keys _ _ Hs) in Hnd, Horder.
    by apply assigned_filter.
  - intros e. destruct input as [[| | | | |obj]|]; simpl; try discriminate;
      try (intros [= <-]; by eexists).
    destruct (check_keys (map fst obj)) as [e'|[]] eqn:Hk; simpl.
    { intros [= <-]. by apply check_keys_throws in Hk. }
    destruct (lookup_field "vars" obj) as [[| | | | |entries]|]; try discriminate;
      try (intros [= <-]; by eexists).
    destruct (vars_entries [] entries) as [e'|vs] eqn:He; simpl; [|discriminate].
    intros [= <-]. by apply vars_entries_throws in He.
Qed.

(** *** A call *)

(** The options a call runs its target with. *)
Definition run_options (params : ServerParams) (vars_ : option (list (string * string)))
  : RunnerOptions :=
  {| envName := server_envName params;
     timeoutMs := server_timeoutMs params;
     bodyLimitBytes := server_bodyLimitBytes params;
     vars := vars_ |}.

Lemma callTool_runs w params name_ arguments target vars_ :
  map_get (tools params) name_ = Some target ->
  validateVars arguments = Ok vars_ ->
  callTool w params name_ arguments
  = ((runBrunoTool w target (run_options params vars_)).1,
     match (runBrunoTool w target (run_options params vars_)).2 with
     | None => None
     | Some (inl e) => Some (failure e)
     | Some (inr text_) => Some {| isError := false; text := text_ |}
     end).
Proof.
  intros Ht Hv. unfold callTool, resolveToolTarget. rewrite Ht, Hv.
  unfold Ok. cbv beta iota zeta.
  change {| envName := server_envName params; timeoutMs := server_timeoutMs params;
            bodyLimitBytes := server_bodyLimitBytes params; vars := vars_ |}
    with (run_options params vars_).
  by destruct (runBrunoTool w target (run_options params vars_)) as [effects outcome].
Qed.

(** X21.  The handler of a call never throws: what is thrown on the way is
    returned as an error result whose text is the message of the error.  A
    name that is not registered is refused before the input is looked at,
    and an input that is not accepted before anything is done: the call has
    no effect then.  A subprocess is spawned only for a registered target
    and an accepted input; and a result that is not an error carries the
    text the run of the target has returned. *)
Theorem a_call_runs_registered_tools_only (w : World) (params : ServerParams)
  (name_ : string) (arguments : Value) :
  (map_get (tools params) name_ = None ->
     callTool w params name_ arguments
     = ([], Some {| isError := true;
                    text := "[E_TOOL_NOT_FOUND] Unknown tool: " +:+ name_ |}))
  /\ (forall target e,
        resolveToolTarget (tools params) name_ = Ok target ->
        validateVars arguments = Throw e ->
        callTool w params name_ arguments
        = ([], Some {| isError := true; text := error_message e |}))
  /\ (forall cmd args dir env,
        In (Spawn cmd args dir env) (callTool w params name_ arguments).1 ->
        exists target vars_,
          map_get (tools params) name_ = Some target
          /\ validateVars arguments = Ok vars_
          /\ cmd = "bru" /\ dir = collectionRootAbs target)
  /\ (forall r,
        (callTool w params name_ arguments).2 = Some r ->
        if isError r
        then exists e, text r = error_message e
        else exists target vars_,
               map_get (tools params) name_ = Some target
               /\ validateVars arguments = Ok vars_
               /\ (runBrunoTool w target (run_options params vars_)).2 = Some (Ok (text r))).
Proof.
  split; [|split; [|split]].
  - intros H. unfold callTool, resolveToolTarget. by rewrite H.
  - intros target e Ht Hv. unfold callTool. rewrite Ht, Hv. done.
  - intros cmd args dir env. unfold resolveToolTarget.
    destruct (map_get (tools params) name_) as [target|] eqn:Ht;
      [|unfold callTool, resolveToolTarget; rewrite Ht; intros []].
    destruct (validateVars arguments) as [e|vars_] eqn:Hv;
      [unfold callTool, resolveToolTarget; rewrite Ht, Hv; intros []|].
    rewrite (callTool_runs w params name_ arguments target vars_ Ht Hv). simpl.
    intros Hin. exists target, vars_. split; [done|]. split; [done|].
    by apply runBrunoTool_spawn in Hin as (_ & _ & _ & _ & -> & -> & _).
  - intros r.
    destruct (map_get (tools params) name_) as [target|] eqn:Ht.
    2:{ unfold callTool, resolveToolTarget. rewrite Ht. intros [= <-].
        by exists (AppError E_TOOL_NOT_FOUND ("Unknown tool: " +:+ name_)). }
    destruct (validateVars arguments) as [e|vars_] eqn:Hv.
    { unfold callTool, resolveToolTarget. rewrite Ht, Hv. intros [= <-]. by exists e. }
    rewrite (callTool_runs w params name_ arguments target vars_ Ht Hv). simpl.
    destruct (runBrunoTool w target (run_options params vars_)).2 as [[e|text_]|] eqn:Hrun;
      [| |discriminate].
    + intros [= <-]. by exists e.
    + intros [= <-]. by exists target, vars_.
Qed.

End ServerFacts.

(* ------------------------------------------------------------------ *)
(** ** The documentation of a request                                   *)
(* ------------------------------------------------------------------ *)

Module DocsFacts.

Import Js StringFacts Naming SanitizeFacts PrefixFacts TemplateFacts.

Definition LF : string := String "010" "".

(** *** What is returned is trimmed *)

Lemma trim_first s : first_is is_space (trim s) = false.
Proof. apply drop_trailing_first, drop_leading_first. Qed.

Lemma trim_last s : last_is is_space (trim s) = false.
Proof. apply drop_trailing_last. Qed.

Lemma trim_trimmed s : trim (trim s) = trim s.
Proof.
  unfold trim at 1, strip_runs.
  rewrite (drop_leading_id _ _ (trim_first s)). apply drop_trailing_id, trim_last.
Qed.

(** A text that is not empty and neither begins nor ends with white space. *)
Definition Trimmed (out : string) : Prop :=
  out <> "" /\ first_is is_space out = false /\ last_is is_space out = false
  /\ trim out = out.

Lemma finish_docs_some contentLines out :
  finish_docs contentLines = Some out ->
  out = trim (join LF contentLines) /\ Trimmed out.
Proof.
  unfold finish_docs. fold LF.
  destruct (truthy (trim (join LF contentLines))) eqn:E; [|discriminate].
  intros [= <-]. split; [done|]. split; [by destruct (trim (join LF contentLines))|].
  split; [apply trim_first|]. split; [apply trim_last|apply trim_trimmed].
Qed.

Lemma docs_body_some lines : forall contentLines out,
  docs_body contentLines lines = Some out -> Trimmed out.
Proof.
  induction lines as [|l lines IH]; intros cl out; simpl.
  - intros H. by apply finish_docs_some in H as [_ H].
  - destruct (is_close_line l); [|apply IH].
    intros H. by apply finish_docs_some in H as [_ H].
Qed.

Lemma docs_scan_some lines out : docs_scan lines = Some out -> Trimmed out.
Proof.
  induction lines as [|l lines IH]; simpl; [discriminate|].
  destruct (after_docs_open l) as [t|]; [|exact IH].
  destruct (truthy _ && negb _).
  - destruct (endsWith "}" _).
    + intros H. by apply finish_docs_some in H as [_ H].
    + apply docs_body_some.
  - apply docs_body_some.
Qed.

(** *** Lines *)

(** A line of ASCII text (outside ASCII the white space of ECMAScript
    has more characters than that of this file) that holds neither a
    line feed nor a carriage return. *)
Definition is_line_char (c : ascii) : bool :=
  (code c <? 128)%nat && negb (is_char "010" c) && negb (is_char "013" c).

Definition plain_line (l : string) : Prop := all_chars is_line_char l = true.

Lemma split_on_plain sep x :
  all_chars (fun c => negb (is_char sep c)) x = true -> split_on sep x = [x].
Proof.
  induction x as [|c x IH]; [done|]. simpl. intros H.
  apply andb_true_iff in H as [Hc H]. unfold is_char in Hc.
  destruct (decide (c = sep)); [done|]. by rewrite IH.
Qed.

Lemma split_on_app_sep sep x rest :
  all_chars (fun c => negb (is_char sep c)) x = true ->
  split_on sep (x +:+ String sep rest) = x :: split_on sep rest.
Proof.
  induction x as [|c x IH]; intros H.
  - rewrite app_nil_l. simpl. destruct (decide (sep = sep)); done.
  - rewrite app_cons. simpl in *. apply andb_true_iff in H as [Hc H]. unfold is_char in Hc.
    destruct (decide (c = sep)); [done|]. by rewrite IH.
Qed.

(** Splitting at the separator undoes the joining of texts that do not
    hold it. *)
Lemma split_on_join sep xs :
  xs <> [] -> Forall (fun x => all_chars (fun c => negb (is_char sep c)) x = true) xs ->
  split_on sep (join (String sep "") xs) = xs.
Proof.
  intros Hne Hall. induction Hall as [|x xs Hx Hxs IH]; [done|].
  destruct xs as [|y ys]; [by apply split_on_plain|].
  change (join (String sep "") (x :: y :: ys))
    with (x +:+ String sep "" +:+ join (String sep "") (y :: ys)).
  change (String sep "" +:+ join (String sep "") (y :: ys))
    with (String sep (join (String sep "") (y :: ys))).
  rewrite split_on_app_sep by done. by rewrite IH.
Qed.

Lemma all_chars_rev_app p s : forall acc,
  all_chars p s = true -> all_chars p acc = true -> all_chars p (String.rev_app s acc) = true.
Proof.
  induction s as [|c s IH]; intros acc Hs Hacc; [done|]. simpl in *.
  apply andb_true_iff in Hs as [Hc Hs]. apply IH; [done|]. simpl. by rewrite Hc.
Qed.

Lemma all_chars_rev p s : all_chars p s = true -> all_chars p (String.rev s) = true.
Proof. intros H. by apply all_chars_rev_app. Qed.

Lemma drop_last_cr_plain l : plain_line l -> drop_last_cr l = l.
Proof.
  intros H. unfold drop_last_cr, endsWith.
  apply all_chars_rev in H. change (String.rev (String "013" "")) with (String "013" "").
  destruct (String.rev l) as [|c r]; [done|]. simpl in *.
  apply andb_true_iff in H as [Hc _]. unfold is_line_char, is_char in Hc.
  destruct (decide ("013"%char = c)) as [<-|]; [|done]. done.
Qed.

Lemma strip_cr_plain ls : Forall plain_line ls -> strip_cr_but_last ls = ls.
Proof.
  induction 1 as [|l ls Hl Hls IH]; [done|]. simpl.
  destruct ls as [|l' ls']; [done|]. by rewrite drop_last_cr_plain, IH.
Qed.

Lemma split_lines_join ls :
  ls <> [] -> Forall plain_line ls -> split_lines (join LF ls) = ls.
Proof.
  intros Hne Hall. unfold split_lines, LF. rewrite split_on_join; [by apply strip_cr_plain|done|].
  eapply Forall_impl; [exact Hall|]. intros l Hl. eapply all_chars_impl; [|exact Hl].
  intros c Hc. unfold is_line_char in Hc. by destruct (negb (is_char "010" c)), (code c <? 128)%nat.
Qed.

(** *** The scan *)

Lemma docs_scan_skip pre rest :
  Forall (fun l => after_docs_open l = None) pre -> docs_scan (pre ++ rest) = docs_scan rest.
Proof. induction 1 as [|l pre Hl _ IH]; [done|]. simpl. by rewrite Hl. Qed.

Lemma docs_body_block body : forall contentLines post,
  Forall (fun l => is_close_line l = false) body ->
  docs_body contentLines (body ++ "}" :: post) = finish_docs (contentLines ++ body).
Proof.
  induction body as [|l body IH]; intros cl post Hb.
  - simpl. by rewrite List.app_nil_r.
  - apply Forall_cons in Hb as [Hl Hb]. simpl. rewrite Hl, IH by done.
    by rewrite <- List.app_assoc.
Qed.

(** X22.  The documentation extracted from a content is never empty and
    carries no white space at its ends: trimming it changes nothing. *)
Theorem extracted_docs_are_trimmed (content out : string) :
  extractDocsFromBruContent content = Some out ->
  out <> "" /\ first_is is_space out = false /\ last_is is_space out = false
  /\ trim out = out.
Proof. unfold extractDocsFromBruContent. apply docs_scan_some. Qed.

(** X23.  A content of plain lines in which the first line that opens a
    [docs] block is [docs {], followed by lines none of which closes the
    block and then by a line [}]: the documentation is the text of the lines
    in between, joined by line feeds and trimmed at its two ends only, and
    there is none when that text is empty; what follows the closing line is
    not read. *)
Theorem docs_block_is_returned (pre body post : list string) :
  Forall plain_line (pre ++ body ++ post) ->
  Forall (fun l => after_docs_open l = None) pre ->
  Forall (fun l => is_close_line l = false) body ->
  extractDocsFromBruContent (join LF (pre ++ ["docs {"] ++ body ++ ["}"] ++ post))
  = (if truthy (trim (join LF body)) then Some (trim (join LF body)) else None).
Proof.
  intros Hplain Hpre Hbody. unfold extractDocsFromBruContent.
  rewrite split_lines_join.
  - rewrite (docs_scan_skip pre _ Hpre).
    change (docs_scan (["docs {"] ++ body ++ ["}"] ++ post))
      with (docs_body [] (body ++ "}" :: post)).
    by rewrite (docs_body_block body [] post Hbody).
  - by destruct pre.
  - apply Forall_app in Hplain as [H1 H2]. apply Forall_app in H2 as [H2 H3].
    apply Forall_app. split; [done|]. apply Forall_cons. split; [done|].
    apply Forall_app. split; [done|]. apply Forall_cons. split; [done|]. done.
Qed.

End DocsFacts.

(* ------------------------------------------------------------------ *)
(** ** The arguments of the server                                      *)
(* ------------------------------------------------------------------ *)

Module ArgsFacts.

Import Js StringFacts NamingFacts PrefixFacts Args.

(** *** parseRawArgs *)

Definition is_flag (arg : string) : bool :=
  if decide (arg ∈ ["--bru"; "--collection"; "--env"; "--prefix"; "--name"])
  then true else false.

(** The assignment a flag makes. *)
Definition assign (raw : RawArgs) (p : string * string) : RawArgs :=
  if decide (p.1 = "--bru") then set_bru p.2 raw
  else if decide (p.1 = "--collection") then set_collection p.2 raw
  else if decide (p.1 = "--env") then set_env p.2 raw
  else if decide (p.1 = "--prefix") then set_prefix p.2 raw
  else if decide (p.1 = "--name") then set_name p.2 raw
  else raw.

(** A flag followed by a value that is not empty. *)
Definition valid_pair (p : string * string) : Prop :=
  is_flag p.1 = true /\ p.2 <> "".

(** The arguments that a list of pairs stands for. *)
Definition flatten (pairs : list (string * string)) : list string :=
  flat_map (fun p => [p.1; p.2]) pairs.

(** The value of the last pair with the flag [flag], if any. *)
Definition last_value (flag : string) (pairs : list (string * string)) : option string :=
  last (map snd (filter (fun p => p.1 = flag) pairs)).

Lemma is_flag_cases arg :
  is_flag arg = true ->
  arg = "--bru" \/ arg = "--collection" \/ arg = "--env" \/ arg = "--prefix" \/ arg = "--name".
Proof.
  unfold is_flag. destruct (decide _) as [H|]; [|discriminate]. intros _.
  repeat (apply elem_of_cons in H as [H|H]; [tauto|]). by apply elem_of_nil in H.
Qed.

Lemma is_flag_false arg :
  is_flag arg = false ->
  arg <> "--bru" /\ arg <> "--collection" /\ arg <> "--env" /\ arg <> "--prefix"
  /\ arg <> "--name".
Proof.
  unfold is_flag. destruct (decide _) as [|H]; [discriminate|]. intros _.
  repeat split; intros ->; apply H; repeat constructor.
Qed.

(** One step of the loop on a flag and its value. *)
Lemma parse_from_pair raw flag value rest :
  is_flag flag = true -> value <> "" ->
  parse_from raw (flag :: value :: rest) = parse_from (assign raw (flag, value)) rest.
Proof.
  intros Hf Hv. assert (truthy value = true) as Ht by (by destruct value).
  unfold assign. simpl.
  apply is_flag_cases in Hf as [->|[->|[->|[->| ->]]]]; simpl; by rewrite Ht.
Qed.

Lemma parse_from_missing raw flag rest :
  is_flag flag = true -> rest = [] \/ (exists rest', rest = "" :: rest') ->
  parse_from raw (flag :: rest) = Throw (AppError E_ARGS ("Missing value for " +:+ flag)).
Proof.
  intros Hf Hrest.
  apply is_flag_cases in Hf as [->|[->|[->|[->| ->]]]];
    destruct Hrest as [->|[rest' ->]]; reflexivity.
Qed.

Lemma parse_from_unknown raw arg rest :
  is_flag arg = false ->
  parse_from raw (arg :: rest) = Throw (AppError E_ARGS ("Unknown argument: " +:+ arg)).
Proof.
  intros Hf. apply is_flag_false in Hf as (H1 & H2 & H3 & H4 & H5). simpl.
  repeat (destruct (decide _); [done|]). done.
Qed.

Lemma parse_from_pairs pairs : forall raw rest,
  Forall valid_pair pairs ->
  parse_from raw (flatten pairs ++ rest) = parse_from (foldl assign raw pairs) rest.
Proof.
  induction pairs as [|[flag value] pairs IH]; intros raw rest Hall; [done|].
  apply Forall_cons in Hall as [[Hf Hv] Hall].
  change (flatten ((flag, value) :: pairs) ++ rest)
    with (flag :: value :: (flatten pairs ++ rest)).
  rewrite parse_from_pair by done. by apply IH.
Qed.

(** What is left of the arguments when the loop stops. *)
Lemma parse_from_inv argv :
  (forall raw, exists pairs,
     Forall valid_pair pairs
     /\ ((argv = flatten pairs /\ parse_from raw argv = Ok (foldl assign raw pairs))
         \/ (exists arg rest e,
               argv = flatten pairs ++ arg :: rest
               /\ parse_from raw argv = Throw (AppError E_ARGS e))))
  /\ (forall a raw, exists pairs,
     Forall valid_pair pairs
     /\ ((a :: argv = flatten pairs
          /\ parse_from raw (a :: argv) = Ok (foldl assign raw pairs))
         \/ (exists arg rest e,
               a :: argv = flatten pairs ++ arg :: rest
               /\ parse_from raw (a :: argv) = Throw (AppError E_ARGS e)))).
Proof.
  induction argv as [|b argv [IH1 IH2]].
  - split.
    + intros raw. exists []. split; [constructor|]. by left.
    + intros a raw. exists []. split; [constructor|]. right. exists a, [].
      destruct (is_flag a) eqn:Hf.
      * eexists. split; [done|]. apply parse_from_missing; [done|by left].
      * eexists. split; [done|]. by apply parse_from_unknown.
  - split; [intros raw; apply IH2|].
    intros a raw. destruct (is_flag a) eqn:Hf.
    + destruct (decide (b = "")) as [->|Hb].
      * exists []. split; [constructor|]. right. exists a, ("" :: argv). eexists.
        split; [done|]. apply parse_from_missing; [done|]. right. by eexists.
      * destruct (IH1 (assign raw (a, b))) as (pairs & Hall & H).
        exists ((a, b) :: pairs). split; [by constructor|].
        rewrite parse_from_pair by done.
        destruct H as [[-> ->]|(arg & rest & e & -> & ->)]; [by left|].
        right. by exists arg, rest, e.
    + exists []. split; [constructor|]. right. exists a, (b :: argv). eexists.
      split; [done|]. by apply parse_from_unknown.
Qed.

Lemma flatten_inj p q : flatten p = flatten q -> p = q.
Proof.
  revert q. induction p as [|[a b] p IH]; intros [|[c d] q]; simpl; try done.
  intros [= -> -> H]. by rewrite (IH q H).
Qed.

(** The fields after the assignments of a list of pairs. *)
Lemma last_value_snoc flag pairs p :
  last_value flag (pairs ++ [p])
  = if decide (p.1 = flag) then Some p.2 else last_value flag pairs.
Proof.
  unfold last_value. rewrite filter_app, map_app. simpl.
  rewrite filter_cons. destruct (decide (p.1 = flag)); simpl.
  - by rewrite last_snoc.
  - by rewrite List.app_nil_r.
Qed.

Definition field_after (old : option string) (flag : string)
  (pairs : list (string * string)) : option string :=
  match last_value flag pairs with Some v => Some v | None => old end.

Lemma foldl_assign_fields pairs : forall raw,
  Forall valid_pair pairs ->
  bru (foldl assign raw pairs) = field_after (bru raw) "--bru" pairs
  /\ collection (foldl assign raw pairs) = field_after (collection raw) "--collection" pairs
  /\ env (foldl assign raw pairs) = field_after (env raw) "--env" pairs
  /\ prefix (foldl assign raw pairs) = field_after (prefix raw) "--prefix" pairs
  /\ name (foldl assign raw pairs) = field_after (name raw) "--name" pairs.
Proof.
  induction pairs as [|p pairs IH] using rev_ind; intros raw Hall; [done|].
  apply Forall_app in Hall as [Hall Hp]. apply Forall_cons in Hp as [[Hf _] _].
  rewrite foldl_app. simpl. destruct (IH raw Hall) as (H1 & H2 & H3 & H4 & H5).
  unfold field_after. rewrite !last_value_snoc. unfold assign.
  apply is_flag_cases in Hf as [E|[E|[E|[E|E]]]]; rewrite E; simpl;
    rewrite ?H1, ?H2, ?H3, ?H4, ?H5; done.
Qed.

(** X24.  The arguments are accepted exactly when they are a sequence of
    flags, each followed by a value that is not empty; a value is taken as
    it stands, also when it reads like a flag.  Every field of the result
    then holds the value of the last occurrence of its flag, and nothing
    when the flag does not occur. *)
Theorem parseRawArgs_reads_flag_value_pairs (argv : list string) (raw : RawArgs) :
  parseRawArgs argv = Ok raw <->
  exists pairs,
    argv = flatten pairs /\ Forall valid_pair pairs
    /\ bru raw = last_value "--bru" pairs
    /\ collection raw = last_value "--collection" pairs
    /\ env raw = last_value "--env" pairs
    /\ prefix raw = last_value "--prefix" pairs
    /\ name raw = last_value "--name" pairs.
Proof.
  unfold parseRawArgs. split.
  - intros H. destruct (proj1 (parse_from_inv argv) no_args) as (pairs & Hall & Hcase).
    destruct Hcase as [[-> Hok]|(arg & rest & e & _ & Hthrow)];
      [|rewrite Hthrow in H; discriminate].
    exists pairs. split; [done|]. split; [done|].
    rewrite Hok in H. injection H as <-.
    destruct (foldl_assign_fields pairs no_args Hall) as (H1 & H2 & H3 & H4 & H5).
    rewrite H1, H2, H3, H4, H5. unfold field_after. simpl.
    repeat split; by destruct (last_value _ pairs).
  - intros (pairs & -> & Hall & H1 & H2 & H3 & H4 & H5).
    pose proof (parse_from_pairs pairs no_args [] Hall) as Hp.
    rewrite List.app_nil_r in Hp. rewrite Hp. simpl. f_equal.
    destruct (foldl_assign_fields pairs no_args Hall) as (G1 & G2 & G3 & G4 & G5).
    unfold field_after in *. simpl in *.
    destruct raw as [r1 r2 r3 r4 r5], (foldl assign no_args pairs) as [f1 f2 f3 f4 f5].
    simpl in *. subst.
    by destruct (last_value "--bru" pairs), (last_value "--collection" pairs),
      (last_value "--env" pairs), (last_value "--prefix" pairs), (last_value "--name" pairs).
Qed.

Lemma parseRawArgs_errors argv e :
  parseRawArgs argv = Throw e -> exists msg, e = AppError E_ARGS msg.
Proof.
  unfold parseRawArgs. intros H.
  destruct (proj1 (parse_from_inv argv) no_args) as (ps & _ & Hcase).
  destruct Hcase as [[_ Hok]|(a & r & msg & _ & Hthrow)];
    [rewrite Hok in H; discriminate|].
  rewrite Hthrow in H. injection H as <-. by eexists.
Qed.

(** X25.  After any number of flags with their values, an argument that is
    not a flag is refused as unknown, and a flag with no value after it, or
    with the empty string after it, as lacking its value; the arguments that
    follow are not looked at.  Every refusal carries the code E_ARGS. *)
Theorem parseRawArgs_refusals (pairs : list (string * string)) (arg : string)
  (rest : list string) :
  Forall valid_pair pairs ->
  (is_flag arg = false ->
     parseRawArgs (flatten pairs ++ arg :: rest)
     = Throw (AppError E_ARGS ("Unknown argument: " +:+ arg)))
  /\ (is_flag arg = true -> rest = [] \/ (exists rest', rest = "" :: rest') ->
     parseRawArgs (flatten pairs ++ arg :: rest)
     = Throw (AppError E_ARGS ("Missing value for " +:+ arg)))
  /\ (forall argv e, parseRawArgs argv = Throw e -> exists msg, e = AppError E_ARGS msg).
Proof.
  intros Hall. unfold parseRawArgs. split; [|split].
  - intros Hf. rewrite parse_from_pairs by done. by apply parse_from_unknown.
  - intros Hf Hrest. rewrite parse_from_pairs by done. by apply parse_from_missing.
  - apply parseRawArgs_errors.
Qed.

(** *** resolveReadablePath *)

Definition kind_expected (expected : Expected) (k : Kind) : bool :=
  match expected with
  | ExpectFile => isFile k
  | ExpectDir => isDirectory k
  end.

(** A path that has [..] as one of its segments, the segments being
    what stands between slashes and backslashes, is refused whatever
    the file system holds.  A path that is accepted is resolved against
    the working directory and made canonical; the canonical path is of
    the expected kind and can be read, and it is what is returned.  Every
    refusal carries the code E_ARGS. *)
Theorem resolveReadablePath_checks (h : Host) (fs : Fs) (inputPath : string)
  (expected : Expected) :
  (".." ∈ raw_segments inputPath ->
     resolveReadablePath h fs inputPath expected
     = Throw (AppError E_ARGS
                ("Path traversal tokens are not allowed in input path: " +:+ inputPath)))
  /\ (forall real, resolveReadablePath h fs inputPath expected = Ok real ->
        (".." ∉ raw_segments inputPath)
        /\ realpath fs (PathString.resolve (cwd h) inputPath) = inr real
        /\ (exists k, stat fs real = inr k /\ kind_expected expected k = true)
        /\ access fs real = None)
  /\ (forall e, resolveReadablePath h fs inputPath expected = Throw e ->
        exists msg, e = AppError E_ARGS msg).
Proof.
  unfold resolveReadablePath.
  destruct (decide (".." ∈ raw_segments inputPath)) as [Hin|Hout]; simpl.
  { split; [done|]. split; [discriminate|]. intros e [= <-]. by eexists. }
  split; [done|].
  destruct (realpath fs (PathString.resolve (cwd h) inputPath)) as [m|real].
  { split; [discriminate|]. intros e [= <-]. by eexists. }
  destruct (stat fs real) as [m|k] eqn:Hstat.
  { split; [discriminate|]. intros e [= <-]. by eexists. }
  destruct expected, k; simpl;
    try (split; [discriminate|]; intros e [= <-]; by eexists);
    (destruct (access fs real) as [m|] eqn:Hacc;
     [split; [discriminate|]; intros e [= <-]; by eexists|]);
    (split; [|discriminate]); intros r [= <-]; rewrite Hstat, Hacc;
    (split; [done|]); (split; [done|]); (split; [|done]); by eexists.
Qed.

(** *** resolveCollectionRoot *)

Import PathString.

(** The directory [n] levels above a path. *)
Fixpoint ancestor (n : nat) (p : string) : string :=
  match n with
  | O => p
  | S k => ancestor k (dirname p)
  end.

Lemma dirname_scan_bound p : forall i m e,
  dirname_scan p i m = Some e -> (1 <= e <= i)%nat.
Proof.
  induction i as [|i IH]; intros m e; simpl; [discriminate|].
  destruct (String.get (S i) p) as [c|].
  - destruct (decide (c = Path.sep)).
    + destruct (negb m).
      * intros [= <-]. lia.
      * intros H. apply IH in H. lia.
    + intros H. apply IH in H. lia.
  - intros H. apply IH in H. lia.
Qed.

Lemma length_substring_0 n s :
  (n <= String.length s)%nat -> String.length (String.substring 0 n s) = n.
Proof.
  revert s. induction n as [|n IH]; intros s Hn.
  - by destruct s.
  - destruct s as [|c s]; simpl in *; [lia|]. rewrite IH; [done|lia].
Qed.

(** A step upwards ends in one of the three fixed directories or
    shortens the path. *)
Lemma dirname_cases p :
  dirname p = "/" \/ dirname p = "." \/ dirname p = "//"
  \/ (String.length (dirname p) < String.length p)%nat.
Proof.
  unfold dirname. destruct (decide (p = "")); [tauto|].
  destruct (dirname_scan p (String.length p - 1) true) as [e|] eqn:He.
  - destruct (Path.isAbsolute p && (e =? 1)%nat); [tauto|].
    apply dirname_scan_bound in He. right. right. right.
    rewrite length_substring_0; lia.
  - destruct (Path.isAbsolute p); tauto.
Qed.

(** The search ends: the fuel given to the loop is never used up. *)
Lemma root_loop_total fs startAbs : forall fuel current,
  (String.length current + 3 <= fuel)%nat ->
  exists r, root_loop fs startAbs fuel current = Some r.
Proof.
  assert (forall fuel c, (1 <= fuel)%nat -> dirname c = c ->
            exists r, root_loop fs startAbs fuel c = Some r) as Hfix.
  { intros [|fuel] c Hf Hc; [lia|]. simpl. rewrite Hc.
    destruct (marker_readable fs c); [by eexists|].
    destruct (decide (c = c)); [by eexists|done]. }
  induction fuel as [|fuel IH]; intros current Hf; [lia|].
  simpl. destruct (marker_readable fs current); [by eexists|].
  destruct (decide (dirname current = current)); [by eexists|].
  destruct (dirname_cases current) as [->|[->|[->|Hlt]]].
  - apply Hfix; [lia|done].
  - apply Hfix; [lia|done].
  - destruct fuel as [|fuel]; [lia|]. simpl.
    destruct (marker_readable fs "//"); [by eexists|].
    change (dirname "//") with "/". destruct (decide ("/" = "//")); [done|].
    apply Hfix; [lia|done].
  - apply IH. lia.
Qed.

Lemma ancestor_fixed n p : dirname p = p -> ancestor n p = p.
Proof. intros H. induction n as [|n IH]; [done|]. simpl. by rewrite H. Qed.

Lemma root_loop_spec fs startAbs : forall fuel current r,
  root_loop fs startAbs fuel current = Some r ->
  match r with
  | inr root =>
      exists n, root = ancestor n current /\ marker_readable fs root = true
                /\ forall k, (k < n)%nat -> marker_readable fs (ancestor k current) = false
  | inl e =>
      e = root_not_found startAbs
      /\ forall k, marker_readable fs (ancestor k current) = false
  end.
Proof.
  induction fuel as [|fuel IH]; intros current r; simpl; [discriminate|].
  destruct (marker_readable fs current) eqn:Hm.
  - intros [= <-]. exists 0%nat. split; [done|]. split; [done|]. intros k Hk. lia.
  - destruct (decide (dirname current = current)) as [Hfix|Hne].
    + intros [= <-]. split; [done|]. intros k. by rewrite ancestor_fixed.
    + intros H. apply IH in H. destruct r as [e|root].
      * destruct H as [-> Hall]. split; [done|]. intros [|k]; [done|]. apply Hall.
      * destruct H as (n & -> & Hroot & Hall). exists (S n). split; [done|]. split; [done|].
        intros [|k] Hk; [done|]. apply Hall. lia.
Qed.

Lemma resolveCollectionRoot_settles fs startAbs :
  exists r,
    resolveCollectionRoot fs startAbs = Some r
    /\ match r with
       | inr root =>
           exists n, root = ancestor n startAbs /\ marker_readable fs root = true
                     /\ forall k, (k < n)%nat -> marker_readable fs (ancestor k startAbs) = false
       | inl e =>
           e = root_not_found startAbs
           /\ forall k, marker_readable fs (ancestor k startAbs) = false
       end.
Proof.
  unfold resolveCollectionRoot.
  destruct (root_loop_total fs startAbs (String.length startAbs + 3) startAbs) as [r Hr]; [lia|].
  exists r. split; [done|]. by apply (root_loop_spec fs startAbs _ _ _ Hr).
Qed.

(** X26.  The search for the collection root ends for every start directory.
    It returns the nearest directory, the start directory or one above it,
    that holds a regular file [bruno.json] that can be read; when there is
    none up to the root, it fails with the code E_ARGS. *)
Theorem resolveCollectionRoot_finds_the_nearest_marker (fs : Fs) (startAbs : string) :
  exists r,
    resolveCollectionRoot fs startAbs = Some r
    /\ match r with
       | inr root =>
           exists n, root = ancestor n startAbs /\ marker_readable fs root = true
                     /\ forall k, (k < n)%nat -> marker_readable fs (ancestor k startAbs) = false
       | inl e =>
           e = AppError E_ARGS
                 ("Collection root not found. Expected a readable bruno.json in "
                  +:+ startAbs +:+ " or its parents.")
           /\ forall k, marker_readable fs (ancestor k startAbs) = false
       end.
Proof. apply resolveCollectionRoot_settles. Qed.

(** *** parseAndValidateArgs *)

Lemma resolveCollectionRoot_some fs startAbs :
  (exists root, resolveCollectionRoot fs startAbs = Some (Ok root))
  \/ resolveCollectionRoot fs startAbs = Some (Throw (root_not_found startAbs)).
Proof.
  destruct (resolveCollectionRoot_settles fs startAbs) as ([e|root] & Hr & Hspec).
  - right. destruct Hspec as [-> _]. done.
  - left. by exists root.
Qed.

Lemma resolveReadablePath_throws h fs inputPath expected e :
  resolveReadablePath h fs inputPath expected = Throw e -> exists msg, e = AppError E_ARGS msg.
Proof.
  unfold resolveReadablePath.
  destruct (decide (".." ∈ raw_segments inputPath)); simpl; [intros [= <-]; by eexists|].
  destruct (realpath fs _) as [m|real]; [intros [= <-]; by eexists|].
  destruct (stat fs real) as [m|k]; [intros [= <-]; by eexists|].
  destruct expected, k; simpl; try (intros [= <-]; by eexists);
    (destruct (access fs real) as [m|]; [intros [= <-]; by eexists|discriminate]).
Qed.

Definition exactly_one : Error :=
  AppError E_ARGS "Provide exactly one of --bru <path> or --collection <path>.".

(** How a configuration comes from the arguments. *)
Definition configured (h : Host) (fs : Fs) (raw : RawArgs) (config : ServerConfig) : Prop :=
  (exists bruPath file root,
     bru raw = Some bruPath /\ given (collection raw) = false
     /\ endsWith ".bru" bruPath = true
     /\ resolveReadablePath h fs bruPath ExpectFile = Ok file
     /\ resolveCollectionRoot fs (dirname file) = Some (Ok root)
     /\ config = config_of raw Single (Some file) root)
  \/ (exists collectionPath dir root,
        collection raw = Some collectionPath /\ given (bru raw) = false
        /\ resolveReadablePath h fs collectionPath ExpectDir = Ok dir
        /\ resolveCollectionRoot fs dir = Some (Ok root)
        /\ config = config_of raw Collection None dir).

#[warnings="-abstract-large-number"]
Lemma parseAndValidateArgs_settles (h : Host) (fs : Fs) (argv : list string) :
  exists r,
    parseAndValidateArgs h fs argv = Some r
    /\ (forall e, r = Throw e -> exists msg, e = AppError E_ARGS msg)
    /\ (forall raw, parseRawArgs argv = Ok raw ->
          given (bru raw) = given (collection raw) -> r = Throw exactly_one)
    /\ (forall config, r = Ok config ->
          (exists raw, parseRawArgs argv = Ok raw /\ configured h fs raw config
             /\ envName config = env raw /\ prefixArg config = prefix raw
             /\ nameArg config = name raw)
          /\ timeoutMs config = 30000%nat
          /\ bodyLimitBytes config = 65536%nat).
Proof.
  unfold parseAndValidateArgs.
  destruct (parseRawArgs argv) as [e|raw] eqn:Hraw.
  { exists (Throw e). split; [done|]. split; [|split; [discriminate|discriminate]].
    intros e' [= <-].
    destruct (parseRawArgs_errors argv e Hraw) as [msg ->]. by eexists. }
  destruct (given (bru raw)) eqn:Hbru, (given (collection raw)) eqn:Hcol; cbn [xorb negb].
  - (* both *)
    exists (Throw exactly_one). split; [done|]. split; [intros e [= <-]; by eexists|].
    split; [done|discriminate].
  - (* --bru *)
    destruct (bru raw) as [bruPath|] eqn:Eb; [|discriminate].
    change (default "" (Some bruPath)) with bruPath. cbn [given] in Hbru.
    rewrite Hbru. cbn [negb].
    destruct (endsWith ".bru" bruPath) eqn:Hext; cbn [negb].
    2:{ eexists. split; [done|]. split; [intros e [= <-]; by eexists|].
        split; [intros r [= <-]; rewrite Eb; cbn [given]; congruence|discriminate]. }
    destruct (resolveReadablePath h fs bruPath ExpectFile) as [e|file] eqn:Hfile.
    { exists (Throw e). split; [done|].
      split; [intros e' [= <-]; by apply resolveReadablePath_throws in Hfile|].
      split; [intros r [= <-]; rewrite Eb; cbn [given]; congruence|discriminate]. }
    destruct (resolveCollectionRoot_some fs (dirname file)) as [[root Hroot]|Hroot];
      rewrite Hroot.
    + eexists. split; [done|]. split; [discriminate|].
      split; [intros r [= <-]; rewrite Eb; cbn [given]; congruence|].
      intros config [= <-]. split; [|done]. exists raw. split; [done|]. split; [|done].
      left. exists bruPath, file, root. done.
    + eexists. split; [done|]. split; [intros e [= <-]; by eexists|].
      split; [intros r [= <-]; rewrite Eb; cbn [given]; congruence|discriminate].
  - (* --collection *)
    destruct (collection raw) as [collectionPath|] eqn:Ec; [|discriminate].
    change (default "" (Some collectionPath)) with collectionPath. cbn [given] in Hcol.
    rewrite Hcol. cbn [negb].
    destruct (resolveReadablePath h fs collectionPath ExpectDir) as [e|dir] eqn:Hdir.
    { exists (Throw e). split; [done|].
      split; [intros e' [= <-]; by apply resolveReadablePath_throws in Hdir|].
      split; [intros r [= <-]; rewrite Ec; cbn [given]; congruence|discriminate]. }
    destruct (resolveCollectionRoot_some fs dir) as [[root Hroot]|Hroot]; rewrite Hroot.
    + eexists. split; [done|]. split; [discriminate|].
      split; [intros r [= <-]; rewrite Ec; cbn [given]; congruence|].
      intros config [= <-]. split; [|done]. exists raw. split; [done|]. split; [|done].
      right. exists collectionPath, dir, root. done.
    + eexists. split; [done|]. split; [intros e [= <-]; by eexists|].
      split; [intros r [= <-]; rewrite Ec; cbn [given]; congruence|discriminate].
  - (* neither *)
    exists (Throw exactly_one). split; [done|]. split; [intros e [= <-]; by eexists|].
    split; [done|discriminate].
Qed.

(** X27.  The validation of the arguments ends for all arguments, and every
    failure carries the code E_ARGS. With both of [--bru] and
    [--collection], or with neither, it fails whatever the file system
    holds.  A configuration comes in one of two ways.  In single mode the
    request file is the canonical path of the [--bru] argument, which ends
    with [.bru], and the collection root is the nearest directory with a
    [bruno.json] from the directory of the file upwards.  In collection mode
    the collection root is the canonical path of the [--collection] argument
    itself; a [bruno.json] must be found from it upwards, but the directory
    that holds it is not kept.  The time limit is 30000 ms and the body
    limit 65536 bytes in both. *)
#[warnings="-abstract-large-number"] Theorem parseAndValidateArgs_configures
  (h : Host) (fs : Fs) (argv : list string) :
  exists r,
    parseAndValidateArgs h fs argv = Some r
    /\ (forall e, r = Throw e -> exists msg, e = AppError E_ARGS msg)
    /\ (forall raw, parseRawArgs argv = Ok raw ->
          given (bru raw) = given (collection raw) -> r = Throw exactly_one)
    /\ (forall config, r = Ok config ->
          (exists raw, parseRawArgs argv = Ok raw /\ configured h fs raw config
             /\ envName config = env raw /\ prefixArg config = prefix raw
             /\ nameArg config = name raw)
          /\ timeoutMs config = 30000%nat
          /\ bodyLimitBytes config = 65536%nat).
Proof. apply parseAndValidateArgs_settles. Qed.

End ArgsFacts.

(* ------------------------------------------------------------------ *)
(** ** The start of the server                                          *)
(* ------------------------------------------------------------------ *)

Module StartupFacts.

Import Js Naming Discover Server Index.
Import NamingFacts PrefixFacts RegistryFacts DiscoverFacts ServerFacts ArgsFacts.

(** *** From discovery to the registry *)

(** Every file discovery returns has passed the containment check
    against the canonical root. *)
Lemma discovered_contained h fs rootAbs files :
  discoverBruFiles h fs rootAbs = Ok files ->
  Forall (fun f => escapes (Path.relative (cwd h) (realpath fs rootAbs) f) = false) files.
Proof.
  unfold discoverBruFiles. set (root := realpath fs rootAbs).
  pose proof (walk_spec h fs root (root_entries fs) root []) as Hwalk.
  destruct (walk h fs root root [] (root_entries fs)) as [err|res]; [discriminate|].
  destruct Hwalk as [-> Hall]. simpl. intros [= <-].
  apply SortFacts.sort_by_Forall. apply Forall_forall. intros f Hf.
  apply list_elem_of_In, in_map_iff in Hf as (p & <- & Hp).
  rewrite Forall_forall in Hall. apply list_elem_of_In in Hp. specialize (Hall p Hp).
  unfold contained in Hall. by apply negb_true_iff in Hall.
Qed.

Ltac in_codes :=
  simpl; repeat first [apply list_elem_of_here | apply list_elem_of_further].

(** A failure by its kind: an error of the application with its code,
    or an error of the runtime. *)
Definition has_code (codes : list Code) (e : Error) : Prop :=
  match e with
  | AppError c _ => c ∈ codes
  | NodeError _ => True
  end.

Lemma read_vars_and_docs_throws h file e :
  read_vars_and_docs h file = Throw e -> exists message, e = NodeError message.
Proof.
  unfold read_vars_and_docs, extractTemplateVariables, extractDocsFromBruFile.
  destruct (readFile h file); [discriminate|]. intros [= <-]. by eexists.
Qed.

Lemma collect_throws h root prefix files : forall m e,
  TOOL_NAME_PATTERN prefix = true ->
  Forall (fun f => escapes (Path.relative (cwd h) root f) = false) files ->
  collect h root prefix m files = Throw e -> has_code [E_NAMING] e.
Proof.
  induction files as [|f files IH]; intros m e Hp Hall; [discriminate|].
  apply Forall_cons in Hall as [Hf Hall]. simpl. rewrite Hf.
  destruct (decide _) as [Hmeta|Hmeta]; [by apply IH|].
  destruct (buildToolName_cases prefix (Path.relative (cwd h) root f) Hp) as [[_ ->]|[_ ->]];
    simpl.
  - destruct (map_has m _).
    + intros [= <-]. simpl. apply list_elem_of_here.
    + destruct (read_vars_and_docs h f) as [e'|vd] eqn:Hread; simpl.
      * intros [= <-]. by apply read_vars_and_docs_throws in Hread as [msg ->].
      * by apply IH.
  - intros [= <-]. simpl. apply list_elem_of_here.
Qed.

(** X28.  The files that discovery returns for a canonical root pass the
    containment check of the registry: built from them under a prefix that
    is a valid name, the registry fails only for a file without a valid
    name, for two files with the same name, or for a file that cannot be
    read, never with the code E_DISCOVERY. *)
Theorem discovered_files_pass_the_registry_check (h : Host) (fs : FileSystem)
  (root prefix : string) (files : list string) :
  realpath fs root = root ->
  TOOL_NAME_PATTERN prefix = true ->
  discoverBruFiles h fs root = Ok files ->
  Forall (fun f => escapes (Path.relative (cwd h) root f) = false) files
  /\ (forall e, buildCollectionToolMap h files root prefix = Throw e ->
        has_code [E_NAMING] e).
Proof.
  intros Hroot Hp Hfiles. apply discovered_contained in Hfiles. rewrite Hroot in Hfiles.
  split; [done|]. intros e. unfold buildCollectionToolMap.
  destruct (collect h root prefix [] files) as [e'|m] eqn:Hc; simpl; [|discriminate].
  intros [= <-]. by apply (collect_throws h root prefix files [] e' Hp Hfiles).
Qed.

(** *** Collection mode *)

Definition no_bru_files : Error :=
  AppError E_DISCOVERY "No .bru files were found in the collection path.".

Lemma collect_metadata h root prefix files m :
  Forall (fun f => escapes (Path.relative (cwd h) root f) = false
                   /\ is_metadata h root f = true) files ->
  collect h root prefix m files = Ok m.
Proof.
  induction 1 as [|f files [Hf Hm] _ IH]; [done|]. simpl. rewrite Hf.
  unfold is_metadata in Hm. by destruct (decide _).
Qed.

(** The configuration with another [--name] argument. *)
Definition with_name (config : Args.ServerConfig) (nameArg_ : option string)
  : Args.ServerConfig :=
  {| Args.mode := Args.mode config;
     Args.bruFileAbs := Args.bruFileAbs config;
     Args.collectionRootAbs := Args.collectionRootAbs config;
     Args.envName := Args.envName config;
     Args.prefixArg := Args.prefixArg config;
     Args.nameArg := nameArg_;
     Args.timeoutMs := Args.timeoutMs config;
     Args.bodyLimitBytes := Args.bodyLimitBytes config |}.

(** X29.  In collection mode, with a prefix that can be derived: when
    discovery returns no file the start fails with the code E_DISCOVERY; the
    check counts the collection metadata files, so that a collection that
    holds such files only starts a server with no tool; and the [--name]
    argument has no effect. *)
Theorem a_collection_needs_a_bru_file (h : Host) (fs : FileSystem)
  (config : Args.ServerConfig) (prefix : string) :
  Args.mode config = Args.Collection ->
  derivePrefix (Args.prefixArg config) (Args.collectionRootAbs config) = Ok prefix ->
  (discoverBruFiles h fs (Args.collectionRootAbs config) = Ok [] ->
     start h fs config = Throw no_bru_files)
  /\ (forall files,
        discoverBruFiles h fs (Args.collectionRootAbs config) = Ok files -> files <> [] ->
        Forall (fun f => escapes (Path.relative (cwd h) (Args.collectionRootAbs config) f) = false
                         /\ is_metadata h (Args.collectionRootAbs config) f = true) files ->
        start h fs config
        = Ok {| tools := [];
                server_envName := Args.envName config;
                server_timeoutMs := Args.timeoutMs config;
                server_bodyLimitBytes := Args.bodyLimitBytes config |})
  /\ (forall nameArg_, start h fs (with_name config nameArg_) = start h fs config).
Proof.
  intros Hmode Hprefix. unfold start. simpl. rewrite Hmode, Hprefix. simpl.
  split; [|split; [|done]].
  - intros ->. done.
  - intros files -> Hne Hall. simpl.
    destruct files as [|f files]; [done|]. simpl.
    unfold buildCollectionToolMap. by rewrite (collect_metadata _ _ _ _ [] Hall).
Qed.

(** *** main *)

Lemma buildSingleToolMap_throws h file root prefix nameOverride e :
  buildSingleToolMap h file root prefix nameOverride = Throw e ->
  has_code [E_ARGS; E_NAMING; E_DISCOVERY] e.
Proof.
  unfold buildSingleToolMap.
  destruct (assert_cases (0 <? String.length (sanitizeSegment (Path.basename_ext file ".bru")))%nat
              E_NAMING ("Invalid single request file name: " +:+ file)) as [[_ ->]|[_ ->]];
    simpl; [|intros [= <-]; in_codes].
  assert (forall n e', validateToolName n = Throw e' -> has_code [E_ARGS; E_NAMING; E_DISCOVERY] e')
    as Hvalid.
  { intros n e'. unfold validateToolName.
    destruct (assert_cases (0 <? String.length n)%nat E_ARGS "Tool name cannot be empty.")
      as [[_ ->]|[_ ->]]; simpl; [|intros [= <-]; in_codes].
    destruct (assert_cases (TOOL_NAME_PATTERN n) E_ARGS "Tool name must match /^[a-z0-9_]+$/")
      as [[_ ->]|[_ ->]]; simpl; [discriminate|intros [= <-]; in_codes]. }
  destruct (match nameOverride with Some _ => _ | None => _ end) as [e'|n] eqn:Hn; simpl.
  { intros [= <-]. destruct nameOverride as [o|]; [destruct (truthy o)|]; by apply Hvalid in Hn. }
  destruct (read_vars_and_docs h file) as [e'|vd] eqn:Hread; simpl.
  { intros [= <-]. by apply read_vars_and_docs_throws in Hread as [msg ->]. }
  destruct (escapes _); [|discriminate]. intros [= <-]. in_codes.
Qed.

Lemma collect_throws_any h root prefix files : forall m e,
  collect h root prefix m files = Throw e -> has_code [E_ARGS; E_NAMING; E_DISCOVERY] e.
Proof.
  induction files as [|f files IH]; intros m e; [discriminate|]. simpl.
  destruct (escapes _); [intros [= <-]; in_codes|].
  destruct (decide _) as [Hmeta|Hmeta]; [by apply IH|].
  destruct (buildToolNameFromRelativePath prefix _) as [e'|n] eqn:Hn; simpl.
  { intros [= <-]. unfold buildToolNameFromRelativePath in Hn.
    destruct (assert_segments_cases (Path.relative (cwd h) root f)
                (path_segments (Path.relative (cwd h) root f))) as [[_ Ha]|[_ Ha]];
      rewrite Ha in Hn; simpl in Hn; [|injection Hn as <-; in_codes].
    unfold validateToolName in Hn.
    destruct (assert_cases (0 <? String.length
                (prefix +:+ "_" +:+ join "_" (path_segments (Path.relative (cwd h) root f))))%nat
                E_ARGS "Tool name cannot be empty.") as [[_ Hb]|[_ Hb]];
      rewrite Hb in Hn; simpl in Hn; [|injection Hn as <-; in_codes].
    destruct (assert_cases (TOOL_NAME_PATTERN
                (prefix +:+ "_" +:+ join "_" (path_segments (Path.relative (cwd h) root f))))
                E_ARGS "Tool name must match /^[a-z0-9_]+$/") as [[_ Hc]|[_ Hc]];
      rewrite Hc in Hn; simpl in Hn; [discriminate|injection Hn as <-; in_codes]. }
  destruct (map_has m n); [intros [= <-]; in_codes|].
  destruct (read_vars_and_docs h f) as [e'|vd] eqn:Hread; simpl.
  { intros [= <-]. by apply read_vars_and_docs_throws in Hread as [msg ->]. }
  apply IH.
Qed.

Lemma discover_throws h fs root e :
  discoverBruFiles h fs root = Throw e -> has_code [E_ARGS; E_NAMING; E_DISCOVERY] e.
Proof.
  unfold discoverBruFiles.
  pose proof (walk_spec h fs (realpath fs root) (root_entries fs) (realpath fs root) []) as Hw.
  destruct (walk h fs (realpath fs root) (realpath fs root) [] (root_entries fs)) as [err|res];
    [|discriminate].
  destruct Hw as (p & _ & _ & ->). intros [= <-]. in_codes.
Qed.

Lemma start_throws h fs config e :
  start h fs config = Throw e -> has_code [E_ARGS; E_NAMING; E_DISCOVERY] e.
Proof.
  unfold start.
  destruct (derivePrefix _ _) as [e'|prefix] eqn:Hp; simpl.
  { intros [= <-]. rewrite derivePrefix_source in Hp.
    destruct (sanitizePrefix_cases (prefix_source (Args.prefixArg config)
                                      (Args.collectionRootAbs config))) as [[_ H]|[_ H]];
      rewrite H in Hp; [discriminate|]. injection Hp as <-. in_codes. }
  destruct (Args.mode config).
  - destruct (assert_cases (Args.given (Args.bruFileAbs config)) E_ARGS
                "Single mode requires a resolved --bru path.") as [[_ ->]|[_ ->]]; simpl;
      [|intros [= <-]; in_codes].
    destruct (buildSingleToolMap h _ _ prefix _) as [e'|m] eqn:Hm; simpl; [|discriminate].
    intros [= <-]. by apply buildSingleToolMap_throws in Hm.
  - destruct (discoverBruFiles h fs _) as [e'|files] eqn:Hd; simpl.
    { intros [= <-]. by apply discover_throws in Hd. }
    destruct (assert_cases (0 <? length files)%nat E_DISCOVERY
                "No .bru files were found in the collection path.") as [[_ ->]|[_ ->]]; simpl;
      [|intros [= <-]; in_codes].
    unfold buildCollectionToolMap.
    destruct (collect h _ prefix [] files) as [e'|m] eqn:Hm; simpl; [|discriminate].
    intros [= <-]. by apply collect_throws_any in Hm.
Qed.

Lemma start_ok h fs config params :
  start h fs config = Ok params ->
  server_envName params = Args.envName config
  /\ server_timeoutMs params = Args.timeoutMs config
  /\ server_bodyLimitBytes params = Args.bodyLimitBytes config
  /\ well_keyed (tools params)
  /\ Forall (fun e => TOOL_NAME_PATTERN e.1 = true) (tools params).
Proof.
  unfold start.
  destruct (derivePrefix _ _) as [e'|prefix] eqn:Hp; simpl; [discriminate|].
  destruct (Args.mode config).
  - destruct (assert _ _ _); simpl; [discriminate|].
    destruct (buildSingleToolMap h _ _ prefix _) as [e'|m] eqn:Hm; simpl; [discriminate|].
    intros [= <-]. simpl. repeat split; try done.
    + by apply single_well_keyed in Hm as [? ?].
    + by apply single_well_keyed in Hm as [? ?].
    + unfold buildSingleToolMap in Hm.
      destruct (assert _ _ _); simpl in Hm; [discriminate|].
      destruct (match Args.nameArg config with Some _ => _ | None => _ end) as [e'|n] eqn:Hn;
        simpl in Hm; [discriminate|].
      destruct (read_vars_and_docs h _); simpl in Hm; [discriminate|].
      destruct (escapes _); [discriminate|]. injection Hm as <-.
      repeat constructor. simpl.
      destruct (Args.nameArg config) as [o|]; [destruct (truthy o)|];
        by apply validateToolName_ok in Hn as [-> ?].
  - destruct (discoverBruFiles h fs _) as [e'|files]; simpl; [discriminate|].
    destruct (assert _ _ _); simpl; [discriminate|].
    destruct (buildCollectionToolMap h files _ prefix) as [e'|m] eqn:Hm; simpl; [discriminate|].
    intros [= <-]. simpl. repeat split; try done.
    + by apply collection_well_keyed in Hm as [? ?].
    + by apply collection_well_keyed in Hm as [? ?].
    + pose proof (buildCollectionToolMap_spec _ _ _ _ _ Hm) as (new & Hperm & Hreg & _).
      rewrite Hperm. eapply Forall_impl; [exact Hreg|].
      intros e [Hk _ _ _ Hname _ _ _]. rewrite Hk.
      by apply buildToolName_ok in Hname as [_ ?].
Qed.

(** X30.  The start of the server always comes to an end.  When it fails,
    the error is one of the runtime, reported with the code E_UNKNOWN, or
    carries one of the codes E_ARGS, E_NAMING and E_DISCOVERY, and the line
    written begins with the code in brackets.  When it succeeds, the server
    runs with the environment name of the arguments, the limits of 30000 ms
    and 65536 bytes, and a registry whose keys are distinct, match
    [/^[a-z0-9_]+$/] and are the names of their targets. *)
#[warnings="-abstract-large-number"] Theorem main_settles
  (h : Host) (afs : Args.Fs) (fs : FileSystem) (argv : list string) :
  exists r,
    main h afs fs argv = Some r
    /\ (forall e, r = Throw e ->
          has_code [E_ARGS; E_NAMING; E_DISCOVERY] e
          /\ exists code_ message, error_line e = "[" +:+ code_ +:+ "] " +:+ message)
    /\ (forall params, r = Ok params ->
          server_timeoutMs params = 30000%nat
          /\ server_bodyLimitBytes params = 65536%nat
          /\ (exists raw, Args.parseRawArgs argv = Ok raw
                          /\ server_envName params = Args.env raw)
          /\ NoDup (map fst (tools params))
          /\ Forall (fun e => e.1 = toolName e.2 /\ TOOL_NAME_PATTERN e.1 = true)
               (tools params)).
Proof.
  assert (forall e, has_code [E_ARGS; E_NAMING; E_DISCOVERY] e ->
            exists code_ message, error_line e = "[" +:+ code_ +:+ "] " +:+ message) as Hline.
  { intros [c m|m] _; simpl.
    - by exists (code_name c), m.
    - by exists "E_UNKNOWN", m. }
  unfold main.
  destruct (parseAndValidateArgs_settles h afs argv) as (r & -> & Hthrow & _ & Hconfig).
  destruct r as [e|config].
  - exists (Throw e). split; [done|]. split; [|discriminate].
    intros e' [= <-]. destruct (Hthrow e eq_refl) as [msg ->].
    split; [in_codes|]. by exists "E_ARGS", msg.
  - exists (start h fs config). split; [done|]. split.
    + intros e He. apply start_throws in He. split; [done|]. by apply Hline.
    + intros params Hparams. apply start_ok in Hparams as (He & Ht & Hb & [Hnd Hkey] & Hpat).
      destruct (Hconfig config eq_refl) as ((raw & Hraw & Hcfg & Henv & _) & Htime & Hbody).
      rewrite Ht, Hb, He, Henv. split; [done|]. split; [done|].
      split; [by exists raw|]. split; [done|].
      apply Forall_forall. intros e Hin. rewrite Forall_forall in Hkey, Hpat.
      split; [by apply Hkey|by apply Hpat].
Qed.

End StartupFacts.

(* ================================================================== *)
(** * Part III: the theorems at concrete inputs                         *)
(* ================================================================== *)

Module Examples.

Import Js Naming Discover Runner Mcp.
Import NamingFacts RunnerFacts TimeoutFacts OutputFacts DiscoverFacts.

(** ** Discovery *)

(** A tree with a nested directory, a symbolic link, an [Environments]
    directory and two files whose names differ in the case of the first
    letter. *)
Definition sample_fs : FileSystem :=
  {| realpath := fun p => p;
     root_entries :=
       [Dir "b" [File "z.bru"];
        Dir "a" [File "x.bru"; File "ignore.txt"];
        Symlink "linked.bru";
        Dir "Environments" [File "prod.bru"];
        File "B.bru";
        File "a.bru"] |}.

Definition sample_host : Host := Reference.host [].

Lemma discovery_sample_witness :
  discoverBruFiles sample_host sample_fs "/r"
    = Ok ["/r/a.bru"; "/r/a/x.bru"; "/r/B.bru"; "/r/b/z.bru"]
  /\ StronglySorted
       (fun a b => (localeCompare sample_host (rel_posix sample_host (realpath sample_fs "/r") a)
                      (rel_posix sample_host (realpath sample_fs "/r") b) <= 0)%Z)
       ["/r/a.bru"; "/r/a/x.bru"; "/r/B.bru"; "/r/b/z.bru"]
  /\ descendant (cwd sample_host) (realpath sample_fs "/r") "/r/a/x.bru".
Proof.
  assert (discoverBruFiles sample_host sample_fs "/r"
          = Ok ["/r/a.bru"; "/r/a/x.bru"; "/r/B.bru"; "/r/b/z.bru"]) as Hrun
    by (vm_compute; reflexivity).
  destruct (discovery_is_sorted_and_contained sample_host sample_fs "/r"
              ReferenceFacts.collate_is_collation) as [Hok _].
  destruct (Hok _ Hrun) as (Hsorted & _ & Hdesc).
  split; [exact Hrun|]. split; [exact Hsorted|].
  apply Hdesc. apply list_elem_of_further, list_elem_of_here.
Defined.

(** The sequence of the previous example is sorted under the collation of
    the host and not under the comparison of code units, for which
    [B.bru] comes before [a.bru]. *)
Lemma discovery_order_follows_the_locale :
  discoverBruFiles sample_host
    {| realpath := fun p => p; root_entries := [File "B.bru"; File "a.bru"] |} "/r"
    = Ok ["/r/a.bru"; "/r/B.bru"]
  /\ rel_posix sample_host "/r" "/r/a.bru" = "a.bru"
  /\ rel_posix sample_host "/r" "/r/B.bru" = "B.bru"
  /\ Reference.code_unit_compare "a.bru" "B.bru" = 1%Z
  /\ String.ltb "B.bru" "a.bru" = true.
Proof. repeat split; vm_compute; reflexivity. Qed.

(** The containment check reads the relative path as text: a regular file
    below the root whose name begins with two dots is refused as well. *)
Lemma dotted_name_is_refused :
  discoverBruFiles sample_host
    {| realpath := fun p => p; root_entries := [File "..draft.bru"] |} "/r"
  = Throw (AppError E_DISCOVERY "Path traversal blocked for discovered file: /r/..draft.bru").
Proof. vm_compute. reflexivity. Qed.

(** ** Naming *)

Definition login_files : list (string * string) :=
  [("/r/auth/login-1.bru", "meta {}"); ("/r/auth/login_1.bru", "meta {}");
   ("/r/login.bru", "meta {}")].

Lemma colliding_names_witness :
  exists n, buildCollectionToolMap (Reference.host login_files)
              ["/r/auth/login-1.bru"; "/r/auth/login_1.bru"] "/r" "billing"
            = Throw (name_collision n).
Proof.
  destruct (colliding_names_are_fatal (Reference.host login_files)
              ["/r/auth/login-1.bru"; "/r/auth/login_1.bru"] "/r" "billing"
              0 1 "/r/auth/login-1.bru" "/r/auth/login_1.bru" "billing_auth_login_1"
              ltac:(lia) eq_refl eq_refl
              ltac:(vm_compute; reflexivity) ltac:(vm_compute; reflexivity))
    as (k & fk & e & _ & _ & Hthrow & _ & _ & Hcollision).
  destruct Hcollision as [n' ->]; [repeat constructor|].
  exists n'. exact Hthrow.
Defined.

(** Two files of the list yield the same identifier, and the call fails
    with another error than the collision: a file listed between them lies
    outside the root, or the first of them cannot be read. *)
Lemma collision_is_not_always_the_error :
  yields (Reference.host login_files) "/r" "billing" "/r/auth/login-1.bru"
    = Some "billing_auth_login_1"
  /\ yields (Reference.host login_files) "/r" "billing" "/r/auth/login_1.bru"
    = Some "billing_auth_login_1"
  /\ buildCollectionToolMap (Reference.host login_files)
       ["/r/auth/login-1.bru"; "/x.bru"; "/r/auth/login_1.bru"] "/r" "billing"
     = Throw (AppError E_DISCOVERY "Path traversal blocked for discovered file: /x.bru")
  /\ buildCollectionToolMap (Reference.host [("/r/auth/login_1.bru", "meta {}")])
       ["/r/auth/login-1.bru"; "/r/auth/login_1.bru"] "/r" "billing"
     = Throw (NodeError "readFile failed: /r/auth/login-1.bru").
Proof. repeat split; vm_compute; reflexivity. Qed.

(** The first and the last file of the list yield the same identifier
    and a file between them lies outside the root, and the call fails
    with the collision error all the same: the second file collides with
    the first before the file outside the root is reached. *)
Lemma an_earlier_collision_wins :
  buildCollectionToolMap (Reference.host login_files)
    ["/r/auth/login-1.bru"; "/r/auth/login_1.bru"; "/x.bru"; "/r/auth/login 1.bru"]
    "/r" "billing"
  = Throw (name_collision "billing_auth_login_1")
  /\ yields (Reference.host login_files) "/r" "billing" "/r/auth/login 1.bru"
     = Some "billing_auth_login_1"
  /\ verdict (Reference.host login_files) "/r" "billing" ["/r/auth/login-1.bru"]
       "/r/auth/login_1.bru"
     = Some (name_collision "billing_auth_login_1")
  /\ verdict (Reference.host login_files) "/r" "billing" [] "/r/auth/login-1.bru" = None.
Proof. repeat split; vm_compute; reflexivity. Qed.

Definition login_target : ToolTarget :=
  {| toolName := "billing_login";
     bruFileAbs := "/r/login.bru";
     collectionRootAbs := "/r";
     requestPathNoExt := "login";
     requiresEnv := false;
     templateVars := [];
     docs := None |}.

Lemma registry_keys_witness :
  ("billing_login" = toolName login_target
   /\ TOOL_NAME_PATTERN (toolName login_target) = true)
  /\ ("billing_login" = toolName login_target
      /\ TOOL_NAME_PATTERN (toolName login_target) = true
      /\ exists rest, toolName login_target = "billing" +:+ "_" +:+ rest).
Proof.
  destruct (registry_keys_are_valid_names (Reference.host login_files) "/r/login.bru" "/r"
              "billing" None ["/r/login.bru"] [("billing_login", login_target)]
              "billing_login" login_target (or_introl eq_refl)) as [Hsingle Hcollection].
  split.
  - apply Hsingle. vm_compute. reflexivity.
  - apply Hcollection. vm_compute. reflexivity.
Defined.

(** ** The runner *)

Definition sample_world (events : list ChildEvent) (report : string + string) : World :=
  {| runtime := Reference.runtime [];
     process_env := {["PATH" := "/usr/bin"]};
     os_tmpdir := "/tmp";
     mkdtemp := fun prefix => inr (prefix +:+ "Ab12Cd");
     randomUUID := "2f1c3a9e";
     child_events := events;
     read_report := fun _ => report |}.

Definition query_target : ToolTarget :=
  {| toolName := "billing_auth_ok";
     bruFileAbs := "/r/auth/ok.bru";
     collectionRootAbs := "/r";
     requestPathNoExt := "auth/ok";
     requiresEnv := true;
     templateVars := ["query"];
     docs := None |}.

Definition options_with (vars_ : option (list (string * string))) : RunnerOptions :=
  {| envName := None; timeoutMs := 200; bodyLimitBytes := 100; vars := vars_ |}.

Lemma env_required_witness :
  runBrunoTool (sample_world [ChildClose (Some 0%Z)] (inl "ENOENT")) query_target
    (options_with None)
  = ([], Some (Throw (AppError E_ENV_REQUIRED
       "Request billing_auth_ok references template variables (query). Provide --env <name> or pass all missing values via vars."))).
Proof.
  destruct (env_required_before_any_effect
              (sample_world [ChildClose (Some 0%Z)] (inl "ENOENT")) query_target
              (options_with None) "query" eq_refl eq_refl
              (list_elem_of_here _ _) (not_elem_of_nil _)) as [H _].
  exact H.
Defined.

Definition sample_vars : list (string * string) := [("query", "air"); ("attach_image", "1")].

Lemma vars_reach_the_subprocess_witness :
  exists pt,
    buildVarsPassThrough (Some sample_vars) = Ok pt
    /\ envVarArgs pt = ["--env-var"; "query=air"; "--env-var"; "attach_image=1"]
    /\ envMap pt !! "MCP_VAR_QUERY" = Some "air"
    /\ envMap pt !! "MCP_VAR_ATTACH_IMAGE" = Some "1".
Proof.
  destruct (vars_reach_the_subprocess_or_fail
              (sample_world [ChildClose (Some 0%Z)] (inl "ENOENT")) query_target
              (options_with (Some sample_vars)) sample_vars eq_refl) as (_ & Hok & _).
  eexists. split; [reflexivity|].
  destruct (Hok _ eq_refl) as [Hargs Hget].
  split; [exact Hargs|]. split.
  - exact (Hget ("query", "air") (list_elem_of_here _ _)).
  - exact (Hget ("attach_image", "1") (list_elem_of_further _ _ _ (list_elem_of_here _ _))).
Defined.

(** Two keys that sanitize to the same name, and the call fails with
    another error than the collision: both sanitize to the empty string,
    or a key listed before them contains [=]. *)
Lemma collision_is_not_always_the_vars_error :
  sanitizeEnvVarName "!" = sanitizeEnvVarName "?"
  /\ buildVarsPassThrough (Some [("!", "1"); ("?", "2")])
     = Throw (AppError E_VARS "Invalid vars key: !")
  /\ sanitizeEnvVarName "a-b" = sanitizeEnvVarName "a_b"
  /\ buildVarsPassThrough (Some [("=", "0"); ("a-b", "1"); ("a_b", "2")])
     = Throw (AppError E_VARS "Invalid vars key (must not include '='): =")
  /\ buildVarsPassThrough (Some [("a-b", "1"); ("a_b", "2")])
     = Throw (AppError E_VARS "Vars key collision after normalization: a_b").
Proof. repeat split; vm_compute; reflexivity. Qed.

(** The first and the last key sanitize to the same name and a key
    between them contains [=], and the call fails with the collision
    error of the second key, which comes before that one. *)
Lemma an_earlier_key_collision_wins :
  buildVarsPassThrough (Some [("a-b", "1"); ("a_b", "2"); ("=", "0"); ("A B", "3")])
  = Throw (collision "a_b")
  /\ sanitizeEnvVarName "a-b" = sanitizeEnvVarName "A B"
  /\ key_verdict [("a-b", "1")] "a_b" = Some (collision "a_b")
  /\ key_verdict [] "a-b" = None.
Proof. repeat split; vm_compute; reflexivity. Qed.

(** The child has exited with code 0 and written a report, after the
    timer had expired. *)
Lemma timeout_witness :
  (runBrunoTool
     (sample_world [StderrData "slow"; TimerFired TimeoutTimer; TimerFired GraceTimer;
                    ChildClose (Some 0%Z)]
        (inr "{}"))
     login_target (options_with None)).2
  = Some (Throw (AppError E_TIMEOUT "Bruno request timed out after 200ms.")).
Proof.
  destruct (timeout_wins
              (sample_world [StderrData "slow"; TimerFired TimeoutTimer; TimerFired GraceTimer;
                             ChildClose (Some 0%Z)]
                 (inr "{}"))
              login_target (options_with None)
              [StderrData "slow"] [TimerFired GraceTimer] [] (Some 0%Z)) as [H _].
  - split; [by left|by eexists|by eexists].
  - reflexivity.
  - repeat constructor.
  - repeat constructor.
  - exact H.
Defined.

(** The timeout timer has expired and the signal could not be delivered,
    so that [kill] emits ['error'] on the child: the call fails with the
    error of a failed spawn, not with the timeout error, whatever comes
    later.  And a child that never closes leaves the call pending after
    both signals. *)
Lemma timeout_is_not_always_the_error :
  (runBrunoTool
     (sample_world [TimerFired TimeoutTimer; ChildError "kill EPERM"; ChildClose None]
        (inr "{}"))
     login_target (options_with None)).2
  = Some (Throw (AppError E_RUNNER "Failed to spawn Bruno CLI: kill EPERM"))
  /\ run_child [TimerFired TimeoutTimer; ChildError "kill EPERM"; ChildClose None]
     = {| st_stderr := ""; st_timedOut := true; st_timeoutArmed := false;
          st_graceArmed := true;
          st_settled :=
            Some (Throw (AppError E_RUNNER "Failed to spawn Bruno CLI: kill EPERM"));
          st_effects := [Kill SIGTERM; SetTimeout GraceTimer 1000;
                         ClearTimeout TimeoutTimer] |}
  /\ (runBrunoTool
        (sample_world [StderrData "slow"; TimerFired TimeoutTimer; TimerFired GraceTimer]
           (inr "{}"))
        login_target (options_with None)).2
     = None.
Proof. repeat split; vm_compute; reflexivity. Qed.

(** ** Output *)

(** The euro sign, three bytes in UTF-8. *)
Definition euro : string :=
  String (ascii_of_nat 226) (String (ascii_of_nat 130) (String (ascii_of_nat 172) "")).

Definition euro_view : BrunoReportView :=
  {| statusCode := 200%float; headers := []; bodyText := "a" +:+ euro +:+ "b" |}.

Lemma truncation_witness :
  formatToolOutput (Reference.runtime []) euro_view 2
  = "Status: 200" +:+ nl +:+ nl +:+ "Headers:" +:+ nl +:+ "{}" +:+ nl +:+ nl
    +:+ "Body:" +:+ nl +:+ "a" +:+ REPLACEMENT +:+ nl +:+ "[truncated to 2 bytes]".
Proof.
  destruct (truncated_body_is_decoded_prefix (Reference.runtime []) euro_view 2) as [H _].
  - vm_compute. lia.
  - rewrite H. vm_compute. reflexivity.
Defined.

(** A body of 500 bytes, 166 euro signs and two letters, under a cap of
    100 bytes: the body section holds 33 euro signs and U+FFFD, 102 bytes
    that are not the first 100 bytes of the body. *)
Definition euro_body : string := Reference.repeat_string 166 euro +:+ "ab".

Lemma truncation_splits_a_character :
  byteLength euro_body = 500
  /\ formatToolOutput (Reference.runtime [])
       {| statusCode := 200%float; headers := []; bodyText := euro_body |} 100
     = "Status: 200" +:+ nl +:+ nl +:+ "Headers:" +:+ nl +:+ "{}" +:+ nl +:+ nl
       +:+ "Body:" +:+ nl
       +:+ (Reference.repeat_string 33 euro +:+ REPLACEMENT)
       +:+ nl +:+ "[truncated to 100 bytes]"
  /\ byteLength (Reference.repeat_string 33 euro +:+ REPLACEMENT) = 102
  /\ subarray 100 euro_body = Reference.repeat_string 33 euro +:+ String (ascii_of_nat 226) ""
  /\ Reference.repeat_string 33 euro +:+ REPLACEMENT <> subarray 100 euro_body.
Proof.
  split; [vm_compute; reflexivity|]. split; [vm_compute; reflexivity|].
  split; [vm_compute; reflexivity|]. split; [vm_compute; reflexivity|].
  intros E. apply (f_equal String.length) in E. vm_compute in E. discriminate.
Qed.

(** ** The report *)

(** The report of [shadowed_report] with a status at the top level as
    well: the status returned is that one, not the one of the first
    result, whose headers are returned beside it. *)
Definition mixed_report : Json :=
  JObj [("results",
         JArr [JObj [("response", JObj [("body", JStr "ok")]);
                     ("statusCode", JNum 200%float);
                     ("headers", JObj [("x-request-id", JStr "7")])]]);
        ("statusCode", JNum 502%float)].

Lemma status_beside_response_is_not_read :
  extractReportView (Reference.runtime []) shadowed_report = Throw report_error
  /\ prop (first_object (report_root shadowed_report)) "statusCode"
     = Some (JNum 200%float)
  /\ is_finite 200%float = true
  /\ extractReportView (Reference.runtime []) mixed_report
     = Ok {| statusCode := 502%float; headers := [("x-request-id", "7")]; bodyText := "ok" |}
  /\ extractReportView (Reference.runtime [])
       (JObj [("results", JArr [JObj [("statusCode", JNum 200%float)]])])
     = Ok {| statusCode := 200%float; headers := []; bodyText := "" |}.
Proof. repeat split; vm_compute; reflexivity. Qed.

(** Headers given as a list of names and values: the object built from
    them lists the array indices first, keeps the place of a name that
    is assigned again, and has no property [__proto__]; a value that is
    an object with a [toString] of its own makes the call throw. *)
Definition header (name : string) (value : Json) : Json :=
  JObj [("name", JStr name); ("value", value)].

Lemma headers_are_listed_as_an_object_lists_them :
  toHeaders (Reference.runtime [])
    (Some (JArr [header "b" (JStr "1"); header "10" (JStr "x"); header "__proto__" (JStr "p");
                 header "2" (JNum 7%float); header "b" JNull; JStr "c"]))
  = Ok [("2", "7"); ("10", "x"); ("b", "")]
  /\ toHeaders (Reference.runtime [])
       (Some (JObj [("x", JArr [JNull; JStr "a"; JArr [JBool true; JNum 1%float]])]))
     = Ok [("x", ",a,true,1")]
  /\ toHeaders (Reference.runtime [])
       (Some (JObj [("x", JObj [("toString", JNum 1%float)])]))
     = Throw not_primitive.
Proof. repeat split; vm_compute; reflexivity. Qed.

End Examples.

(* ------------------------------------------------------------------ *)
(** ** The theorems on the rest of the code at concrete inputs          *)
(* ------------------------------------------------------------------ *)

Module Cases.

Import Js Naming Discover Runner Mcp Server Index.
Import StringFacts TimeoutFacts PrefixFacts TemplateFacts RegistryFacts EnvNameFacts ChildFacts.
Import ServerFacts DocsFacts ArgsFacts StartupFacts.

(** ** Names *)

Lemma tool_name_witness :
  buildToolNameFromRelativePath "billing" "auth/Login-1.bru" = Ok "billing_auth_login_1"
  /\ buildToolNameFromRelativePath "billing" "auth/---.bru"
     = Throw (invalid_segment "auth/---.bru").
Proof.
  destruct (tool_name_under_a_valid_prefix "billing" "auth/Login-1.bru" eq_refl) as [Hok _].
  destruct (tool_name_under_a_valid_prefix "billing" "auth/---.bru" eq_refl) as (_ & Hbad & _).
  split.
  - rewrite Hok; [vm_compute; reflexivity|].
    change (path_segments "auth/Login-1.bru") with ["auth"; "login_1"].
    repeat constructor; discriminate.
  - apply Hbad. change (path_segments "auth/---.bru") with ["auth"; ""].
    apply Exists_cons_tl, Exists_cons_hd. reflexivity.
Defined.

(** ** Placeholders *)

Definition login_request : string :=
  "post {{base}}/login?user={{ user.name }}&again={{base}}&not={{ a b }}".

Lemma placeholders_witness :
  "user.name" ∈ template_variables_of Examples.sample_host login_request
  /\ Occurs "base" login_request.
Proof.
  split.
  - apply (template_variables_are_the_placeholders Examples.sample_host login_request
             "user.name" eq_refl).
    exists "post {{base}}/login?user=", " ", " ", "&again={{base}}&not={{ a b }}".
    split; [|reflexivity]. split; [reflexivity|reflexivity|discriminate|reflexivity].
  - apply (template_variables_are_the_placeholders Examples.sample_host login_request
             "base" eq_refl).
    vm_compute. apply list_elem_of_here.
Defined.

Lemma sorted_names_witness :
  template_variables_of Examples.sample_host login_request = ["base"; "user.name"]
  /\ NoDup (template_variables_of Examples.sample_host login_request)
  /\ StronglySorted (fun a b => (Reference.collate a b <= 0)%Z)
       (template_variables_of Examples.sample_host login_request).
Proof.
  destruct (template_variables_are_sorted_names Examples.sample_host login_request
              ReferenceFacts.collate_is_collation) as (Hnodup & _ & Hsorted).
  split; [vm_compute; reflexivity|]. split; [exact Hnodup|exact Hsorted].
Defined.

(** ** The registry *)

(** A collection of two requests and the metadata file. *)
Definition shop_files : list (string * string) :=
  [("/r/collection.bru", "meta {}");
   ("/r/orders/list.bru", "get {{base}}/orders?page={{page}}");
   ("/r/health.bru",
    join LF ["get /health"; "docs {"; "  Is the shop up?"; "}"])].

Definition shop_host : Host := Reference.host shop_files.

Definition shop_paths : list string :=
  ["/r/collection.bru"; "/r/orders/list.bru"; "/r/health.bru"].

Lemma registry_order_witness :
  exists m,
    buildCollectionToolMap shop_host shop_paths "/r" "shop" = Ok m
    /\ map fst m = ["shop_health"; "shop_orders_list"]
    /\ NoDup (map fst m)
    /\ map Mcp.name (Mcp.listTools m) = map fst m.
Proof.
  eexists. split; [vm_compute; reflexivity|].
  split; [reflexivity|].
  destruct (registry_keys_are_distinct_and_sorted shop_host shop_paths "/r" "shop" _
              ReferenceFacts.collate_is_collation
              ltac:(vm_compute; reflexivity)) as (Hnodup & _ & Hnames).
  split; [exact Hnodup|exact Hnames].
Defined.

Lemma registry_size_witness :
  exists m,
    buildCollectionToolMap shop_host shop_paths "/r" "shop" = Ok m
    /\ length m = 2
    /\ map (fun e => bruFileAbs e.2) m ≡ₚ ["/r/orders/list.bru"; "/r/health.bru"].
Proof.
  eexists. split; [vm_compute; reflexivity|].
  destruct (every_request_file_becomes_one_tool shop_host shop_paths "/r" "shop" _
              ltac:(vm_compute; reflexivity)) as (Hperm & Hlen & _).
  split; [exact Hlen|exact Hperm].
Defined.

Lemma registry_target_witness :
  exists m t,
    buildCollectionToolMap shop_host shop_paths "/r" "shop" = Ok m
    /\ ("shop_health", t) ∈ m
    /\ bruFileAbs t ∈ shop_paths
    /\ collectionRootAbs t = "/r"
    /\ docs t = Some "Is the shop up?".
Proof.
  eexists _, _. split; [vm_compute; reflexivity|].
  split; [apply list_elem_of_here|].
  destruct (registry_targets_describe_their_files shop_host shop_paths "/r" "shop" _
              "shop_health" _ ltac:(vm_compute; reflexivity) (list_elem_of_here _ _))
    as (Hfile & Hroot & _).
  split; [exact Hfile|]. split; [exact Hroot|reflexivity].
Defined.

Lemma listed_tools_witness :
  exists m,
    buildCollectionToolMap shop_host shop_paths "/r" "shop" = Ok m
    /\ resolveToolTarget m "shop_orders"
       = Throw (AppError E_TOOL_NOT_FOUND "Unknown tool: shop_orders")
    /\ exists t, resolveToolTarget m "shop_orders_list" = Ok t
                 /\ toolName t = "shop_orders_list".
Proof.
  eexists. split; [vm_compute; reflexivity|].
  edestruct (listed_tools_resolve shop_host "" "/r" "shop" None shop_paths)
    as [Hlisted Hnot]; [left; vm_compute; reflexivity|].
  split.
  - apply Hnot. intros H.
    apply elem_of_cons in H as [H|H]; [discriminate H|].
    apply elem_of_cons in H as [H|H]; [discriminate H|].
    by apply elem_of_nil in H.
  - destruct (Hlisted _ (list_elem_of_further _ _ _ (list_elem_of_here _ _)))
      as (t & Hres & _ & Hname & _).
    exists t. split; [exact Hres|exact Hname].
Defined.

(** ** Variables *)

Lemma accepted_vars_witness :
  exists pt,
    buildVarsPassThrough (Some Examples.sample_vars) = Ok pt
    /\ envMap pt !! "MCP_VAR_ATTACH_IMAGE" = Some "1"
    /\ length (envVarArgs pt) = 4.
Proof.
  eexists. split; [reflexivity|].
  destruct (accepted_vars_name_the_environment Examples.sample_vars _ eq_refl)
    as (Hget & _ & _ & Hlen).
  split; [|exact Hlen].
  apply Hget. exists ("attach_image", "1"). split.
  - apply list_elem_of_further, list_elem_of_here.
  - split; [vm_compute; reflexivity|reflexivity].
Defined.

(** ** The subprocess *)

Definition closing_world (events : list ChildEvent) : World :=
  Examples.sample_world events (inl "ENOENT").

Lemma reaches_spawn events vars_ :
  (exists pt, buildVarsPassThrough vars_ = Ok pt) ->
  ReachesSpawn (closing_world events) Examples.login_target (Examples.options_with vars_).
Proof. intros H. split; [by left|by eexists|exact H]. Defined.

Lemma subprocess_witness :
  exists args env,
    In (Spawn "bru" args "/r" env)
       (runBrunoTool (closing_world [ChildClose (Some 0%Z)]) Examples.login_target
          (Examples.options_with (Some Examples.sample_vars))).1
    /\ env !! "PATH" = Some "/usr/bin"
    /\ env !! "MCP_VAR_QUERY" = Some "air".
Proof.
  assert (exists args env,
            In (Spawn "bru" args "/r" env)
               (runBrunoTool (closing_world [ChildClose (Some 0%Z)]) Examples.login_target
                  (Examples.options_with (Some Examples.sample_vars))).1)
    as (args & env & Hin).
  { eexists _, _. vm_compute. right. left. reflexivity. }
  exists args, env. split; [exact Hin|].
  destruct (the_subprocess_is_bru _ _ _ _ _ _ _ Hin) as (_ & _ & _ & Hkeeps & Hsets).
  split.
  - rewrite Hkeeps; [vm_compute; reflexivity|].
    intros e He.
    apply elem_of_cons in He as [->|He]; [discriminate|].
    apply elem_of_cons in He as [->|He]; [discriminate|].
    by apply elem_of_nil in He.
  - exact (Hsets ("query", "air") (list_elem_of_here _ _)).
Defined.

Lemma failed_exit_witness :
  (runBrunoTool (closing_world [StderrData "connect ECONNREFUSED"; ChildClose (Some 1%Z)])
     Examples.login_target (Examples.options_with None)).2
  = Some (Throw (AppError E_BRU_EXIT
                   "Bruno CLI exited with code 1. connect ECONNREFUSED")).
Proof.
  destruct (failed_exit_is_reported
              (closing_world [StderrData "connect ECONNREFUSED"; ChildClose (Some 1%Z)])
              Examples.login_target (Examples.options_with None)
              [StderrData "connect ECONNREFUSED"] [] (Some 1%Z)) as [H _].
  - apply reaches_spawn. by eexists.
  - reflexivity.
  - repeat constructor.
  - reflexivity.
  - discriminate.
  - rewrite H. vm_compute. reflexivity.
Defined.

Lemma clean_exit_witness :
  exists reportPath,
    (runBrunoTool (closing_world [StderrData "warning"; ChildClose (Some 0%Z)])
       Examples.login_target (Examples.options_with None)).2
    = Some (Throw (AppError E_REPORT
              ("Bruno JSON report not found at " +:+ reportPath +:+ ": ENOENT"))).
Proof.
  destruct (clean_exit_returns_the_report
              (closing_world [StderrData "warning"; ChildClose (Some 0%Z)])
              Examples.login_target (Examples.options_with None)
              [StderrData "warning"] [])
    as (reportPath & _ & _ & _ & _ & _ & _ & _ & _ & H & _).
  - apply reaches_spawn. by eexists.
  - reflexivity.
  - repeat constructor.
  - exists reportPath. exact H.
Defined.

Lemma spawn_error_witness :
  (runBrunoTool (closing_world [StderrData "sh"; ChildError "spawn bru ENOENT";
                                ChildClose None])
     Examples.login_target (Examples.options_with None)).2
  = Some (Throw (AppError E_RUNNER "Failed to spawn Bruno CLI: spawn bru ENOENT")).
Proof.
  destruct (spawn_error_is_reported
              (closing_world [StderrData "sh"; ChildError "spawn bru ENOENT"; ChildClose None])
              Examples.login_target (Examples.options_with None)
              [StderrData "sh"] [ChildClose None] "spawn bru ENOENT") as [H _].
  - apply reaches_spawn. by eexists.
  - reflexivity.
  - repeat constructor.
  - exact H.
Defined.

Lemma first_settlement_witness :
  (runBrunoTool (closing_world [ChildClose (Some 2%Z); ChildError "late";
                                TimerFired TimeoutTimer])
     Examples.login_target (Examples.options_with None)).2
  = (runBrunoTool (with_events (closing_world [ChildClose (Some 2%Z); ChildError "late";
                                               TimerFired TimeoutTimer])
                     [ChildClose (Some 2%Z)])
       Examples.login_target (Examples.options_with None)).2.
Proof.
  destruct (the_first_settlement_decides
              (closing_world [ChildClose (Some 2%Z); ChildError "late";
                              TimerFired TimeoutTimer])
              Examples.login_target (Examples.options_with None)
              [] [ChildError "late"; TimerFired TimeoutTimer] (ChildClose (Some 2%Z))
              eq_refl (fun H : False => H)) as [H _].
  exact H.
Defined.

(** ** Documentation *)

Definition health_request : string :=
  join LF ["get /health"; "docs {"; "  Is the shop up?  "; ""; "}"; "tests {"; "}"].

Lemma trimmed_docs_witness :
  extractDocsFromBruContent health_request = Some "Is the shop up?"
  /\ first_is is_space "Is the shop up?" = false
  /\ last_is is_space "Is the shop up?" = false.
Proof.
  destruct (extracted_docs_are_trimmed health_request "Is the shop up?"
              ltac:(vm_compute; reflexivity)) as (_ & Hfirst & Hlast & _).
  split; [vm_compute; reflexivity|]. split; [exact Hfirst|exact Hlast].
Defined.

Lemma docs_block_witness :
  extractDocsFromBruContent health_request = Some "Is the shop up?".
Proof.
  etrans.
  - apply (docs_block_is_returned ["get /health"] ["  Is the shop up?  "; ""]
             ["tests {"; "}"]).
    + repeat constructor.
    + repeat constructor.
    + repeat constructor.
  - vm_compute. reflexivity.
Defined.

(** ** The command line *)

Lemma refusals_witness :
  Args.parseRawArgs ["--bru"; "a.bru"; "--verbose"; "--env"; "prod"]
  = Throw (AppError E_ARGS "Unknown argument: --verbose")
  /\ Args.parseRawArgs ["--bru"; "a.bru"; "--env"]
     = Throw (AppError E_ARGS "Missing value for --env").
Proof.
  assert (Forall valid_pair [("--bru", "a.bru")]) as Hpairs.
  { constructor; [|constructor]. split; [reflexivity|discriminate]. }
  destruct (parseRawArgs_refusals [("--bru", "a.bru")] "--verbose" ["--env"; "prod"] Hpairs)
    as [Hunknown _].
  destruct (parseRawArgs_refusals [("--bru", "a.bru")] "--env" [] Hpairs)
    as (_ & Hmissing & _).
  split.
  - apply Hunknown. reflexivity.
  - apply Hmissing; [reflexivity|by left].
Defined.

(** ** Start-up *)

Lemma discovered_files_witness :
  Forall (fun f => escapes (Path.relative "/" "/r" f) = false)
    ["/r/a.bru"; "/r/a/x.bru"; "/r/B.bru"; "/r/b/z.bru"].
Proof.
  destruct (discovered_files_pass_the_registry_check Examples.sample_host Examples.sample_fs
              "/r" "billing" ["/r/a.bru"; "/r/a/x.bru"; "/r/B.bru"; "/r/b/z.bru"]
              eq_refl eq_refl ltac:(vm_compute; reflexivity)) as [H _].
  exact H.
Defined.

Definition shop_config : Args.ServerConfig :=
  Args.config_of Args.no_args Args.Collection None "/r".

Lemma empty_collection_witness :
  start Examples.sample_host {| realpath := fun p => p; root_entries := [Dir "docs" []] |}
    shop_config
  = Throw no_bru_files
  /\ exists params,
       start shop_host
         {| realpath := fun p => p; root_entries := [File "collection.bru"] |} shop_config
       = Ok params
       /\ tools params = [].
Proof.
  split.
  - destruct (a_collection_needs_a_bru_file Examples.sample_host
                {| realpath := fun p => p; root_entries := [Dir "docs" []] |}
                shop_config "r" eq_refl ltac:(vm_compute; reflexivity)) as [H _].
    apply H. vm_compute. reflexivity.
  - destruct (a_collection_needs_a_bru_file shop_host
                {| realpath := fun p => p; root_entries := [File "collection.bru"] |}
                shop_config "r" eq_refl ltac:(vm_compute; reflexivity)) as (_ & H & _).
    eexists. split.
    + apply (H ["/r/collection.bru"]).
      * vm_compute. reflexivity.
      * discriminate.
      * repeat constructor.
    + reflexivity.
Defined.

(** ** Prefixes *)

Lemma prefix_witness :
  sanitizePrefix "My API" = Ok "my_api"
  /\ sanitizePrefix "---" = Throw prefix_is_empty.
Proof.
  destruct (sanitizePrefix_needs_an_alphanumeric "My API") as [Hok _].
  destruct (sanitizePrefix_needs_an_alphanumeric "---") as [_ Hbad].
  split.
  - destruct (Hok eq_refl) as [H _]. exact H.
  - exact (Hbad eq_refl eq_refl).
Defined.

Lemma derived_prefix_witness :
  derivePrefix None "/home/me/My Shop" = Ok "my_shop"
  /\ validateToolName "my_shop" = Ok "my_shop"
  /\ derivePrefix (Some "") "/home/me/My Shop" = Ok "my_shop".
Proof.
  destruct (derivePrefix_yields_a_valid_name None "/home/me/My Shop") as (Hok & _ & Hempty).
  assert (derivePrefix None "/home/me/My Shop" = Ok "my_shop") as Hrun
    by (vm_compute; reflexivity).
  destruct (Hok _ Hrun) as (_ & Hvalid & _).
  split; [exact Hrun|]. split; [exact Hvalid|]. rewrite Hempty. exact Hrun.
Defined.

(** ** A single request *)

Lemma single_request_witness :
  exists m t,
    buildSingleToolMap shop_host "/r/health.bru" "/r" "shop" None = Ok m
    /\ m = [(toolName t, t)]
    /\ toolName t = "shop_health"
    /\ buildSingleToolMap shop_host "/r/---.bru" "/r" "shop" None
       = Throw (invalid_file_name "/r/---.bru").
Proof.
  destruct (single_request_registry shop_host "/r/health.bru" "/r" "shop" None) as [Hok _].
  destruct (single_request_registry shop_host "/r/---.bru" "/r" "shop" None) as [_ Hbad].
  edestruct Hok as (t & Hm & _ & _ & _ & Hname & _); [vm_compute; reflexivity|].
  eexists _, t. split; [vm_compute; reflexivity|].
  split; [exact Hm|]. split; [exact Hname|]. apply Hbad. reflexivity.
Defined.

(** ** The body section *)

Lemma body_within_the_cap_witness :
  formatToolOutput (Reference.runtime []) Examples.euro_view 5
  = "Status: 200" +:+ LF +:+ LF +:+ "Headers:" +:+ LF +:+ "{}" +:+ LF +:+ LF
    +:+ "Body:" +:+ LF +:+ "a" +:+ Examples.euro +:+ "b".
Proof.
  destruct (BodyFacts.body_section_within_the_cap (Reference.runtime []) Examples.euro_view 5)
    as [H _].
  rewrite H; [vm_compute; reflexivity|]. vm_compute. lia.
Defined.

(** ** The arguments of a call *)

(** The arguments of a call as [JSON.parse] gives them: the array
    indices first, and an own property [__proto__]. *)
Definition indexed_vars : list (string * Json) :=
  [("2", JStr "b"); ("10", JStr "j"); ("query", JStr "air"); ("__proto__", JStr "p")].

Lemma indexed_vars_order : ObjectOrder (map fst indexed_vars).
Proof.
  intros i j ki kj nj Hij Hi Hj Hn.
  destruct j as [|[|[|[|j]]]]; simpl in Hj; try discriminate; injection Hj as <-;
    try (vm_compute in Hn; discriminate); [lia|].
  destruct i as [|i]; [|lia]. simpl in Hi. injection Hi as <-.
  exists 2%N. vm_compute in Hn. injection Hn as <-. split; [reflexivity|lia].
Defined.

Lemma validateVars_witness :
  (exists vars_,
     validateVars (Some (JObj [("vars", JObj indexed_vars)])) = Ok (Some vars_)
     /\ vars_ = [("2", "b"); ("10", "j"); ("query", "air")]
     /\ ("__proto__" ∉ map fst vars_))
  /\ validateVars (Some (JObj [("vars", JNull)])) = Ok None
  /\ exists msg,
       validateVars (Some (JObj [("vars", JObj [("page", JNum 2%float)])]))
       = Throw (AppError E_INPUT msg).
Proof.
  split; [|split].
  - destruct (validateVars_accepts_string_maps
                (Some (JObj [("vars", JObj indexed_vars)]))) as (_ & Hok & _).
    assert (exists vars_,
              validateVars (Some (JObj [("vars", JObj indexed_vars)])) = Ok (Some vars_))
      as [vars_ Hrun] by (eexists; vm_compute; reflexivity).
    destruct (Hok vars_ Hrun)
      as (obj & entries & strings & Hobj & _ & Hvars & Hstrings & _ & Hproto & Hfilter).
    injection Hobj as <-. injection Hvars as <-.
    vm_compute in Hstrings. injection Hstrings as <-.
    exists vars_. split; [exact Hrun|]. split; [|exact Hproto].
    rewrite Hfilter; [reflexivity| |exact indexed_vars_order].
    repeat (apply NoDup_cons; split;
            [intros H; repeat (apply elem_of_cons in H as [H|H]; [discriminate H|]);
             by apply elem_of_nil in H|]).
    apply NoDup_nil_2.
  - destruct (validateVars_accepts_string_maps (Some (JObj [("vars", JNull)]))) as (Hnone & _).
    apply Hnone. right. exists [("vars", JNull)].
    split; [reflexivity|]. split; [by repeat constructor|reflexivity].
  - destruct (validateVars_accepts_string_maps
                (Some (JObj [("vars", JObj [("page", JNum 2%float)])]))) as (_ & _ & Hthrow).
    destruct (Hthrow _ ltac:(vm_compute; reflexivity)) as [msg Hmsg].
    exists msg. rewrite <- Hmsg. vm_compute. reflexivity.
Defined.

Definition shop_params : ServerParams :=
  {| tools := [("shop_login", Examples.login_target)];
     server_envName := None;
     server_timeoutMs := 200;
     server_bodyLimitBytes := 100 |}.

Lemma call_witness :
  callTool (closing_world [ChildClose (Some 0%Z)]) shop_params "shop_logout" None
  = ([], Some {| isError := true; text := "[E_TOOL_NOT_FOUND] Unknown tool: shop_logout" |})
  /\ callTool (closing_world [ChildClose (Some 0%Z)]) shop_params "shop_login"
       (Some (JObj [("headers", JObj [])]))
     = ([], Some {| isError := true;
                    text := "[E_INPUT] Unsupported input key: headers. Only "
                            +:+ quote_mark +:+ "vars" +:+ quote_mark +:+ " is allowed." |}).
Proof.
  destruct (a_call_runs_registered_tools_only (closing_world [ChildClose (Some 0%Z)])
              shop_params "shop_logout" None) as [Hunknown _].
  destruct (a_call_runs_registered_tools_only (closing_world [ChildClose (Some 0%Z)])
              shop_params "shop_login" (Some (JObj [("headers", JObj [])])))
    as (_ & Hinput & _).
  split.
  - exact (Hunknown eq_refl).
  - rewrite (Hinput Examples.login_target _ eq_refl ltac:(vm_compute; reflexivity)).
    vm_compute. reflexivity.
Defined.

(** ** The collection root *)

(** A disk on which [/r] is a directory that holds a readable
    [bruno.json] and the request file [/r/orders/list.bru]. *)
Definition shop_disk : Args.Fs :=
  {| Args.realpath := fun p => inr p;
     Args.stat := fun p =>
       if decide (p = "/r") then inr Args.IsDirectory
       else if decide (p = "/r/orders") then inr Args.IsDirectory
       else if decide (p = "/r/bruno.json") then inr Args.IsFile
       else if decide (p = "/r/orders/list.bru") then inr Args.IsFile
       else inl ("ENOENT: no such file or directory, stat '" +:+ p +:+ "'");
     Args.access := fun _ => None |}.

Lemma collection_root_witness :
  Args.resolveCollectionRoot shop_disk "/r/orders" = Some (Ok "/r")
  /\ (exists n, "/r" = ancestor n "/r/orders"
                /\ Args.marker_readable shop_disk (ancestor 0 "/r/orders") = false)
  /\ exists e, Args.resolveCollectionRoot shop_disk "/srv/shop" = Some (Throw e)
               /\ Args.marker_readable shop_disk "/" = false.
Proof.
  assert (Args.resolveCollectionRoot shop_disk "/r/orders" = Some (Ok "/r")) as Hrun
    by (vm_compute; reflexivity).
  split; [exact Hrun|]. split.
  - destruct (resolveCollectionRoot_finds_the_nearest_marker shop_disk "/r/orders")
      as (r & Hr & Hspec).
    rewrite Hrun in Hr. injection Hr as <-.
    destruct Hspec as (n & Hn & _ & Hbelow).
    exists n. split; [exact Hn|]. apply Hbelow.
    destruct n as [|n]; [discriminate Hn|lia].
  - destruct (resolveCollectionRoot_finds_the_nearest_marker shop_disk "/srv/shop")
      as (r & Hr & Hspec).
    assert (Args.resolveCollectionRoot shop_disk "/srv/shop"
            = Some (Throw (Args.root_not_found "/srv/shop"))) as Hfail
      by (vm_compute; reflexivity).
    rewrite Hfail in Hr. injection Hr as <-.
    destruct Hspec as [_ Hnone].
    eexists. split; [exact Hfail|]. exact (Hnone 2).
Defined.

(** ** The configuration *)

#[warnings="-abstract-large-number"] Lemma configuration_witness :
  (exists config,
     Args.parseAndValidateArgs shop_host shop_disk
       ["--bru"; "/r/orders/list.bru"; "--env"; "prod"] = Some (Ok config)
     /\ Args.mode config = Args.Single
     /\ Args.collectionRootAbs config = "/r"
     /\ Args.timeoutMs config = 30000%nat)
  /\ Args.parseAndValidateArgs shop_host shop_disk
       ["--bru"; "/r/orders/list.bru"; "--collection"; "/r"] = Some (Throw exactly_one).
Proof.
  split.
  - destruct (parseAndValidateArgs_configures shop_host shop_disk
                ["--bru"; "/r/orders/list.bru"; "--env"; "prod"])
      as (r & Hr & _ & _ & Hconfig).
    assert (exists config,
              Args.parseAndValidateArgs shop_host shop_disk
                ["--bru"; "/r/orders/list.bru"; "--env"; "prod"] = Some (Ok config)
              /\ Args.mode config = Args.Single
              /\ Args.collectionRootAbs config = "/r") as (config & Hrun & Hmode & Hroot).
    { eexists. split; [reflexivity|]. split; reflexivity. }
    exists config. split; [exact Hrun|]. split; [exact Hmode|]. split; [exact Hroot|].
    rewrite Hrun in Hr. injection Hr as <-.
    destruct (Hconfig config eq_refl) as (_ & Htimeout & _). exact Htimeout.
  - destruct (parseAndValidateArgs_configures shop_host shop_disk
                ["--bru"; "/r/orders/list.bru"; "--collection"; "/r"])
      as (r & Hr & _ & Hone & _).
    rewrite Hr. f_equal.
    apply (Hone (Args.set_collection "/r" (Args.set_bru "/r/orders/list.bru" Args.no_args)));
      reflexivity.
Defined.

(** ** The start of the server *)

Definition shop_tree : FileSystem :=
  {| realpath := fun p => p;
     root_entries :=
       [File "collection.bru"; Dir "orders" [File "list.bru"]; File "health.bru";
        File "bruno.json"] |}.

Lemma main_witness :
  (exists params,
     main shop_host shop_disk shop_tree ["--collection"; "/r"; "--env"; "prod"]
     = Some (Ok params)
     /\ map fst (tools params) = ["r_health"; "r_orders_list"]
     /\ NoDup (map fst (tools params))
     /\ server_envName params = Some "prod")
  /\ exists e,
       main shop_host shop_disk shop_tree ["--collection"; "/srv"] = Some (Throw e)
       /\ has_code [E_ARGS; E_NAMING; E_DISCOVERY] e.
Proof.
  split.
  - destruct (main_settles shop_host shop_disk shop_tree
                ["--collection"; "/r"; "--env"; "prod"]) as (r & Hr & _ & Hok).
    assert (exists params,
              main shop_host shop_disk shop_tree ["--collection"; "/r"; "--env"; "prod"]
              = Some (Ok params)
              /\ map fst (tools params) = ["r_health"; "r_orders_list"]
              /\ server_envName params = Some "prod") as (params & Hrun & Hkeys & Henv).
    { eexists. split; [reflexivity|]. split; reflexivity. }
    exists params. split; [exact Hrun|]. split; [exact Hkeys|].
    rewrite Hrun in Hr. injection Hr as <-.
    destruct (Hok params eq_refl) as (_ & _ & _ & Hnodup & _).
    split; [exact Hnodup|exact Henv].
  - destruct (main_settles shop_host shop_disk shop_tree ["--collection"; "/srv"])
      as (r & Hr & Hthrow & _).
    assert (exists e, main shop_host shop_disk shop_tree ["--collection"; "/srv"]
                      = Some (Throw e)) as [e He].
    { eexists. vm_compute. reflexivity. }
    exists e. split; [exact He|].
    rewrite He in Hr. injection Hr as <-.
    destruct (Hthrow e eq_refl) as [Hcode _]. exact Hcode.
Defined.

End Cases.
